(** * The training orchestrator of BigARTM: [artm/core/master_component.cc]

    A shallow embedding of [MasterComponent] (the named matrix registry,
    ProcessBatches, Merge / Regularize / Normalize, model export and import),
    of the batch iterators and of [ArtmExecutor] (offline, online and
    asynchronous online schedules), followed by the properties of the
    orchestrator stated by the specification.

    Conventions of the embedding.
    - The C++ code mutates the [Instance] behind [instance_] and throws
      exceptions.  A computation is a function from the state to an outcome
      and the state it leaves: a thrown exception keeps every mutation made
      before the throw.
    - Undefined behaviour of the source (an index outside a repeated field,
      a division by zero) is the outcome [Undefined].
    - The worker threads are an external collaborator: [worker] is what the
      pool does to the shared memory during one idle interval of the
      orchestrator.  Loops that wait for the workers take a [fuel] bound on
      the number of polls and end in [OutOfFuel] when it is exhausted.
    - The numerical kernels, the protobuf codec and the score and cache
      managers are collaborators too; they are the fields of [Kernels]. *)

From Stdlib Require Import ZArith List Lia Strings.Byte.
From stdpp Require Import base gmap strings list pretty.

Set Default Proof Using "Type".
Set Warnings "-clear-no-such-hyp".
Local Open Scope Z_scope.

(** ** Outcomes *)

(** The exception classes of [artm/core/exceptions.h] met in this file. *)
Inductive Exn : Type :=
  | InvalidOperation
  | CorruptedMessageException
  | DiskReadException
  | DiskWriteException
  | MissingModel.

(** How a computation ends when it does not return: a thrown exception,
    undefined behaviour of the source, or an exhausted bound on waiting. *)
Inductive Failure : Type :=
  | Thrown (e : Exn)
  | UndefinedBehaviour
  | NoFuel.

Inductive Res (A : Type) : Type :=
  | Ok (a : A)
  | Fail (f : Failure).
Arguments Ok {A} a.
Arguments Fail {A} f.

Abbreviation Throw e := (Fail (Thrown e)).
Abbreviation Undefined := (Fail UndefinedBehaviour).
Abbreviation OutOfFuel := (Fail NoFuel).

Definition is_ok {A : Type} (r : Res A) : bool :=
  match r with Ok _ => true | Fail _ => false end.

Global Instance Exn_eq_dec : EqDecision Exn.
Proof. solve_decision. Defined.

Global Instance byte_eq_dec : EqDecision byte := Byte.byte_eq_dec.

(** [RepeatedField::Get(int)]: defined only inside the field. *)
Definition Get {A : Type} (l : list A) (i : Z) : option A :=
  if decide (0 ≤ i) then l !! Z.to_nat i else None.

(** C++ [int] and [unsigned] conversions (32 bits). *)
Definition to_unsigned (z : Z) : Z := z mod 2 ^ 32.
Definition to_int (z : Z) : Z := (z + 2 ^ 31) mod 2 ^ 32 - 2 ^ 31.
Definition INT_MAX : Z := 2 ^ 31 - 1.
Definition INT_MIN : Z := - 2 ^ 31.

Section Master.

(** The type of 32-bit floating point weights and matrix cells.  No claim
    below computes with them; they are only carried around. *)
Context {float : Type}.

(** The values kept by the collaborators that the orchestrator only hands
    over: score values, a score manager, a cache manager (Theta slices keyed
    by batch) and an assembled Theta matrix. *)
Context {ScoreData ScoreManager CacheManager ThetaMatrix : Type}.

(** ** Data model *)

Record Token : Type := mkToken { keyword : string; class_id : string }.

(** [::artm::TopicModel], the external representation of a matrix. *)
Record TopicModel : Type := mkTopicModel {
  tm_name : option string;
  tm_topic_name : list string;
  tm_token : list string;
  tm_class_id : list string;
  tm_token_weights : list (list float)
}.

Definition tm_set_name (n : string) (t : TopicModel) : TopicModel :=
  mkTopicModel (Some n) (tm_topic_name t) (tm_token t) (tm_class_id t)
               (tm_token_weights t).

(** Modelled from the spec: [PhiMatrix] / [DensePhiMatrix]
    (artm/core/phi_matrix.h, dense_phi_matrix.h are not part of the file):
    a dense array of floats, rows indexed by token, columns by topic name. *)
Record PhiMatrix : Type := mkPhiMatrix {
  model_name : string;
  topic_name : list string;
  token : list Token;
  values : list (list float)
}.

Definition token_size (m : PhiMatrix) : Z := Z.of_nat (length (token m)).
Definition topic_size (m : PhiMatrix) : Z := Z.of_nat (length (topic_name m)).

(** Modelled from the spec: the constructor [DensePhiMatrix(name, topic_name)]
    gives a matrix over the topics and no token. *)
Definition DensePhiMatrix (name : string) (topics : list string) : PhiMatrix :=
  mkPhiMatrix name topics [] [].

Record Batch : Type := mkBatch {
  id : string;
  item : list (list (Z * float))
}.

Inductive ThetaMatrixType : Type :=
  | ThetaMatrixType_None
  | ThetaMatrixType_Dense
  | ThetaMatrixType_Sparse
  | ThetaMatrixType_Cache
  | ThetaMatrixType_DensePtdw
  | ThetaMatrixType_SparsePtdw.

Global Instance ThetaMatrixType_eq_dec : EqDecision ThetaMatrixType.
Proof. solve_decision. Defined.

Inductive MatrixLayout : Type := MatrixLayout_Dense | MatrixLayout_Sparse.
Inductive RequestType : Type := RequestType_Pwt | RequestType_Nwt.

(** Protobuf messages: an optional field is an [option] ([has_x] is
    [is_Some]); a repeated field is a list. *)
Record ProcessBatchesArgs : Type := mkProcessBatchesArgs {
  pba_pwt_source_name : option string;
  pba_nwt_target_name : option string;
  pba_theta_matrix_type : option ThetaMatrixType;
  pba_topic_name : list string;
  pba_batch_filename : list string;
  pba_batch_weight : list float;
  pba_batch : list Batch;
  pba_inner_iterations_count : option Z;
  pba_class_id : list string;
  pba_class_weight : list float;
  pba_regularizer_name : list string;
  pba_regularizer_tau : list float;
  pba_opt_for_avx : option bool;
  pba_reuse_theta : option bool
}.

Record MergeModelArgs : Type := mkMergeModelArgs {
  mma_nwt_source_name : list string;
  mma_source_weight : list float;
  mma_nwt_target_name : option string;
  mma_topic_name : list string
}.

Record RegularizerSettings : Type := mkRegularizerSettings {
  rs_name : string;
  rs_tau : float;
  rs_use_relative_regularization : bool
}.

Record RegularizeModelArgs : Type := mkRegularizeModelArgs {
  rma_pwt_source_name : option string;
  rma_nwt_source_name : option string;
  rma_rwt_target_name : option string;
  rma_regularizer_settings : list RegularizerSettings
}.

Record NormalizeModelArgs : Type := mkNormalizeModelArgs {
  nma_pwt_target_name : option string;
  nma_nwt_source_name : option string;
  nma_rwt_source_name : option string
}.

Record GetTopicModelArgs : Type := mkGetTopicModelArgs {
  gtm_model_name : option string;
  gtm_request_type : option RequestType;
  gtm_matrix_layout : option MatrixLayout;
  gtm_token : list string;
  gtm_class_id : list string
}.

Record GetThetaMatrixArgs : Type := mkGetThetaMatrixArgs {
  gth_matrix_layout : option MatrixLayout
}.

Record ExportModelArgs : Type := mkExportModelArgs {
  ema_file_name : string;
  ema_model_name : option string
}.

Record ImportModelArgs : Type := mkImportModelArgs {
  ima_file_name : string;
  ima_model_name : option string
}.

Record RegularizerConfig : Type := mkRegularizerConfig {
  rc_name : string;
  rc_tau : float
}.

Record ScoreConfig : Type := mkScoreConfig { sc_name : string }.

Record MasterModelConfig : Type := mkMasterModelConfig {
  pwt_name : string;
  nwt_name : string;
  cfg_topic_name : list string;
  cfg_class_id : list string;
  cfg_class_weight : list float;
  cfg_regularizer_config : list RegularizerConfig;
  cfg_score_config : list ScoreConfig;
  cfg_inner_iterations_count : option Z;
  cfg_threads : Z;
  cfg_cache_theta : bool;
  cfg_opt_for_avx : option bool;
  cfg_reuse_theta : option bool
}.

(** A getter of an optional string field returns the empty string when the
    field is not set. *)
Definition str_or_empty (o : option string) : string := default EmptyString o.

(** ** Shared memory *)

(** Objects that the orchestrator shares with the workers through pointers
    (batch managers, executor-local score managers, call-local cache
    managers) live in tables of the state; a pointer is an index. *)
Definition uuid : Type := N.

Inductive CachePtr : Type :=
  | InstanceCache
  | LocalCache (h : nat).

Record ProcessorInput : Type := mkProcessorInput {
  pi_task_id : uuid;
  pi_batch_manager : nat;
  pi_score_manager : option nat;
  pi_cache_manager : option CachePtr;
  pi_ptdw_cache_manager : option CachePtr;
  pi_model_name : string;
  pi_args : ProcessBatchesArgs;
  pi_reuse_theta_cache_manager : option CachePtr;
  pi_nwt_target_name : option string;
  pi_batch_filename : option string;
  pi_batch : option Batch;
  pi_batch_weight : option float
}.

(** The memory shared by the orchestrator and the workers: the [Instance]
    (registry [models_], processors, queue, configuration, instance-level
    score manager, score tracker and cache manager), the tables of shared
    objects, the file system and the number of task ids drawn so far. *)
Record World : Type := mkWorld {
  models_ : gmap string PhiMatrix;
  processor_size : Z;
  processor_queue : list ProcessorInput;
  config : option MasterModelConfig;
  score_manager : ScoreManager;
  score_tracker : list ScoreData;
  cache_manager : CacheManager;
  batch_managers : list (gset uuid);
  score_managers : list ScoreManager;
  cache_managers : list CacheManager;
  files : gmap string (list byte);
  uuid_count : nat
}.

(** What the log of a run records: registry writes, pushes on the processor
    queue, and the steps of [ArtmExecutor] (its private methods, logged on
    entry with their arguments). *)
Inductive Event : Type :=
  | EvSetPhiMatrix (name : string) (m : PhiMatrix)
  | EvDisposeModel (name : string)
  | EvPush (pi : ProcessorInput)
  | EvClearScoreCache
  | EvProcessBatches (pwt nwt : string) (batch_filename : list string)
      (batch_weight : list float) (score_manager : nat)
  | EvAsyncProcessBatches (operation_id : Z) (pwt nwt : string)
      (batch_filename : list string) (batch_weight : list float)
  | EvAwait (operation_id : Z)
  | EvMerge (nwt : string) (decay_weight : float) (nwt_hat : string)
      (apply_weight : float)
  | EvRegularize (pwt nwt rwt : string)
  | EvNormalize (pwt nwt rwt : string)
  | EvStoreScores (score_manager : nat)
  | EvNewScoreManager (score_manager : nat).

Record State : Type := mkState {
  world : World;
  history : list Event
}.

(** ** Collaborators *)

Record Kernels : Type := mkKernels {
  (** the constants [0.0f] and [1.0f] *)
  float_zero : float;
  float_one : float;
  (** what the worker pool does during one idle interval *)
  worker : World -> World;
  (** [boost::uuids::random_generator], by the number of the draw *)
  random_generator : nat -> uuid;
  (** the default of the optional field [theta_matrix_type] *)
  default_theta_matrix_type : ThetaMatrixType;
  (** [PhiMatrixOperations] *)
  RetrieveExternalTopicModel : PhiMatrix -> GetTopicModelArgs -> TopicModel;
  ApplyTopicModelOperation : TopicModel -> float -> PhiMatrix -> PhiMatrix;
  InvokePhiRegularizers :
    World -> list RegularizerSettings -> PhiMatrix -> PhiMatrix -> PhiMatrix ->
    PhiMatrix;
  FindPwt : PhiMatrix -> PhiMatrix -> PhiMatrix;
  FindPwt_rwt : PhiMatrix -> PhiMatrix -> PhiMatrix -> PhiMatrix;
  (** the protobuf codec of [TopicModel] *)
  SerializeAsString : TopicModel -> list byte;
  ParseFromArray : list byte -> option TopicModel;
  (** whether the file system lets [std::ofstream] create the file *)
  can_create : World -> string -> bool;
  (** the contents of the locals [char version] and [int length] of
      [ImportModel] before anything is stored in them *)
  indeterminate_char : byte;
  indeterminate_int : Z;
  (** [ScoreManager] and [CacheManager] *)
  ScoreManager_new : ScoreManager;
  ScoreManager_Clear : ScoreManager -> ScoreManager;
  RequestScore : ScoreManager -> string -> ScoreData;
  RequestAllScores : ScoreManager -> list ScoreData;
  CacheManager_new : CacheManager;
  RequestThetaMatrix : GetThetaMatrixArgs -> CacheManager -> ThetaMatrix
}.

Variable K : Kernels.

(** Modelled from the spec: [DensePhiMatrix::Reshape] (dense_phi_matrix.h is
    not part of the file) copies the token axis of another matrix; the cells
    of the reshaped matrix are zero. *)
Definition Reshape (src m : PhiMatrix) : PhiMatrix :=
  mkPhiMatrix (model_name m) (topic_name m) (token src)
    (map (fun _ => repeat (float_zero K) (length (topic_name m))) (token src)).

(** ** The monad of the orchestrator *)

Definition M (A : Type) : Type := State -> Res A * State.

Definition ret {A : Type} (a : A) : M A := fun s => (Ok a, s).

Definition bind {A B : Type} (m : M A) (k : A -> M B) : M B :=
  fun s =>
    match m s with
    | (Ok a, s') => k a s'
    | (Fail f, s') => (Fail f, s')
    end.

Definition throw {A : Type} (e : Exn) : M A := fun s => (Throw e, s).
Definition undefined {A : Type} : M A := fun s => (Undefined, s).
Definition out_of_fuel {A : Type} : M A := fun s => (OutOfFuel, s).

Definition gets {A : Type} (f : World -> A) : M A :=
  fun s => (Ok (f (world s)), s).
Definition modify (f : World -> World) : M unit :=
  fun s => (Ok tt, mkState (f (world s)) (history s)).
Definition log (e : Event) : M unit :=
  fun s => (Ok tt, mkState (world s) (history s ++ [e])).

(** A value that the source reads through an index: outside the field the
    behaviour is undefined. *)
Definition defined {A : Type} (o : option A) : M A :=
  match o with Some a => ret a | None => undefined end.

Notation "'let*' x ':=' m 'in' k" := (bind m (fun x => k))
  (at level 10, x binder, m at level 100, k at level 200).

(** [for (int i = 0; i < n; ++i) body]: the loop variable runs over
    [seq 0 n], the accumulator carries the loop's local state. *)
Fixpoint for_each {I A : Type} (l : list I) (body : I -> A -> M A) (acc : A)
  : M A :=
  match l with
  | [] => ret acc
  | i :: l' => let* acc' := body i acc in for_each l' body acc'
  end.

(** ** The Instance: registry, score cache, queue, batch managers *)

Definition with_models (f : gmap string PhiMatrix -> gmap string PhiMatrix)
  (w : World) : World :=
  mkWorld (f (models_ w)) (processor_size w) (processor_queue w) (config w)
    (score_manager w) (score_tracker w) (cache_manager w) (batch_managers w)
    (score_managers w) (cache_managers w) (files w) (uuid_count w).

Definition with_processor_queue
  (f : list ProcessorInput -> list ProcessorInput) (w : World) : World :=
  mkWorld (models_ w) (processor_size w) (f (processor_queue w)) (config w)
    (score_manager w) (score_tracker w) (cache_manager w) (batch_managers w)
    (score_managers w) (cache_managers w) (files w) (uuid_count w).

Definition with_score_manager (f : ScoreManager -> ScoreManager) (w : World)
  : World :=
  mkWorld (models_ w) (processor_size w) (processor_queue w) (config w)
    (f (score_manager w)) (score_tracker w) (cache_manager w)
    (batch_managers w) (score_managers w) (cache_managers w) (files w)
    (uuid_count w).

Definition with_score_tracker (f : list ScoreData -> list ScoreData)
  (w : World) : World :=
  mkWorld (models_ w) (processor_size w) (processor_queue w) (config w)
    (score_manager w) (f (score_tracker w)) (cache_manager w)
    (batch_managers w) (score_managers w) (cache_managers w) (files w)
    (uuid_count w).

Definition with_batch_managers (f : list (gset uuid) -> list (gset uuid))
  (w : World) : World :=
  mkWorld (models_ w) (processor_size w) (processor_queue w) (config w)
    (score_manager w) (score_tracker w) (cache_manager w)
    (f (batch_managers w)) (score_managers w) (cache_managers w) (files w)
    (uuid_count w).

Definition with_score_managers (f : list ScoreManager -> list ScoreManager)
  (w : World) : World :=
  mkWorld (models_ w) (processor_size w) (processor_queue w) (config w)
    (score_manager w) (score_tracker w) (cache_manager w) (batch_managers w)
    (f (score_managers w)) (cache_managers w) (files w) (uuid_count w).

Definition with_cache_managers (f : list CacheManager -> list CacheManager)
  (w : World) : World :=
  mkWorld (models_ w) (processor_size w) (processor_queue w) (config w)
    (score_manager w) (score_tracker w) (cache_manager w) (batch_managers w)
    (score_managers w) (f (cache_managers w)) (files w) (uuid_count w).

Definition with_files (f : gmap string (list byte) -> gmap string (list byte))
  (w : World) : World :=
  mkWorld (models_ w) (processor_size w) (processor_queue w) (config w)
    (score_manager w) (score_tracker w) (cache_manager w) (batch_managers w)
    (score_managers w) (cache_managers w) (f (files w)) (uuid_count w).

Definition with_uuid_count (f : nat -> nat) (w : World) : World :=
  mkWorld (models_ w) (processor_size w) (processor_queue w) (config w)
    (score_manager w) (score_tracker w) (cache_manager w) (batch_managers w)
    (score_managers w) (cache_managers w) (files w) (f (uuid_count w)).

(** Modelled from the spec: the registry operations of [Instance]
    (artm/core/instance.h is not part of the file): [get], [get_or_fail]
    (error MissingModel), [set] (replaces any prior entry) and [dispose]. *)
Definition GetPhiMatrix (name : string) : M (option PhiMatrix) :=
  gets (fun w => models_ w !! name).

Definition GetPhiMatrixSafe (name : string) : M PhiMatrix :=
  let* o := GetPhiMatrix name in
  match o with
  | Some m => ret m
  | None => throw MissingModel
  end.

Definition SetPhiMatrix (name : string) (m : PhiMatrix) : M unit :=
  let* _ := log (EvSetPhiMatrix name m) in
  modify (with_models (insert name m)).

Definition DisposeModel (name : string) : M unit :=
  let* _ := log (EvDisposeModel name) in
  modify (with_models (delete name)).

Definition ClearScoreCache : M unit :=
  let* _ := log EvClearScoreCache in
  modify (with_score_manager (ScoreManager_Clear K)).

(** Modelled from the spec: [ProcessorQueue::push] appends to an unbounded
    FIFO (artm/core/processor.h is not part of the file). *)
Definition push (pi : ProcessorInput) : M unit :=
  let* _ := log (EvPush pi) in
  modify (with_processor_queue (fun q => q ++ [pi])).

(** Modelled from the spec: a [BatchManager] (artm/core/batch_manager.h is not
    part of the file) is the set of outstanding task ids of one operation;
    [Add] inserts, [IsEverythingProcessed] is true iff the set is empty.  A
    new manager is a new entry of the table. *)
Definition BatchManager_new : M nat :=
  let* h := gets (fun w => length (batch_managers w)) in
  let* _ := modify (with_batch_managers (fun l => l ++ [∅])) in
  ret h.

Definition BatchManager_Add (h : nat) (task_id : uuid) : M unit :=
  let* o := gets (fun w => batch_managers w !! h) in
  let* tasks := defined o in
  modify (with_batch_managers (fun l => <[h := {[task_id]} ∪ tasks]> l)).

Definition IsEverythingProcessed (h : nat) : M bool :=
  let* o := gets (fun w => batch_managers w !! h) in
  let* tasks := defined o in
  ret (bool_decide (tasks = ∅)).

(** [boost::this_thread::sleep(kIdleLoopFrequency)]: the workers run. *)
Definition sleep : M unit := modify (worker K).

(** [while (!batch_manager->IsEverythingProcessed()) sleep(...)] *)
Fixpoint wait_until_processed (fuel : nat) (h : nat) : M unit :=
  let* done := IsEverythingProcessed h in
  if done then ret tt
  else
    match fuel with
    | O => out_of_fuel
    | S fuel' => let* _ := sleep in wait_until_processed fuel' h
    end.

(** ** MergeModel, RegularizeModel, NormalizeModel *)

(** The body of the loop of [MergeModel] at index [i]; the accumulator is
    the local [nwt_target] (a null pointer is [None]). *)
Definition MergeModel_body (a : MergeModelArgs) (i : nat)
  (nwt_target : option PhiMatrix) : M (option PhiMatrix) :=
  let* name := defined (mma_nwt_source_name a !! i) in
  let* weight := defined (mma_source_weight a !! i) in
  let* phi_matrix := GetPhiMatrix name in
  match phi_matrix with
  | None => ret nwt_target  (* LOG(WARNING), continue *)
  | Some n_wt =>
      let nwt_target' :=
        match nwt_target with
        | Some t => t
        | None =>
            DensePhiMatrix (str_or_empty (mma_nwt_target_name a))
              (if negb (Nat.eqb (length (mma_topic_name a)) 0)
               then mma_topic_name a else topic_name n_wt)
        end in
      if decide (token_size n_wt > 0) then
        let topic_model :=
          RetrieveExternalTopicModel K n_wt
            (mkGetTopicModelArgs None None None [] [])
        in
        ret (Some (ApplyTopicModelOperation K topic_model weight nwt_target'))
      else ret (Some nwt_target')
  end.

Definition MergeModel (a : MergeModelArgs) : M unit :=
  if decide (length (mma_nwt_source_name a) = 0%nat) then
    throw InvalidOperation
  else if decide (length (mma_nwt_source_name a)
                  ≠ length (mma_source_weight a)) then
    throw InvalidOperation
  else
    let* nwt_target :=
      for_each (seq 0 (length (mma_nwt_source_name a))) (MergeModel_body a)
               None in
    match nwt_target with
    | None => throw InvalidOperation
    | Some t => SetPhiMatrix (str_or_empty (mma_nwt_target_name a)) t
    end.

Definition RegularizeModel (a : RegularizeModelArgs) : M unit :=
  let pwt_source_name := str_or_empty (rma_pwt_source_name a) in
  let nwt_source_name := str_or_empty (rma_nwt_source_name a) in
  let rwt_target_name := str_or_empty (rma_rwt_target_name a) in
  if negb (bool_decide (is_Some (rma_pwt_source_name a))) then
    throw InvalidOperation
  else if negb (bool_decide (is_Some (rma_nwt_source_name a))) then
    throw InvalidOperation
  else if negb (bool_decide (is_Some (rma_rwt_target_name a))) then
    throw InvalidOperation
  else
    let* n_wt := GetPhiMatrixSafe nwt_source_name in
    let* p_wt := GetPhiMatrixSafe pwt_source_name in
    let rwt_target :=
      Reshape n_wt (DensePhiMatrix rwt_target_name (topic_name n_wt)) in
    let* w := gets (fun w => w) in
    let rwt_target' :=
      InvokePhiRegularizers K w (rma_regularizer_settings a) p_wt n_wt
                            rwt_target in
    SetPhiMatrix rwt_target_name rwt_target'.

Definition NormalizeModel (a : NormalizeModelArgs) : M unit :=
  let pwt_target_name := str_or_empty (nma_pwt_target_name a) in
  let nwt_source_name := str_or_empty (nma_nwt_source_name a) in
  let rwt_source_name := str_or_empty (nma_rwt_source_name a) in
  if negb (bool_decide (is_Some (nma_pwt_target_name a))) then
    throw InvalidOperation
  else if negb (bool_decide (is_Some (nma_nwt_source_name a))) then
    throw InvalidOperation
  else
    let* n_wt := GetPhiMatrixSafe nwt_source_name in
    let* rwt_phi_matrix :=
      match nma_rwt_source_name a with
      | Some _ =>
          let* r := GetPhiMatrixSafe rwt_source_name in ret (Some r)
      | None => ret None
      end in
    let pwt_target :=
      Reshape n_wt (DensePhiMatrix pwt_target_name (topic_name n_wt)) in
    let pwt_target' :=
      match rwt_phi_matrix with
      | None => FindPwt K n_wt pwt_target
      | Some r_wt => FindPwt_rwt K n_wt r_wt pwt_target
      end in
    SetPhiMatrix pwt_target_name pwt_target'.

(** ** ProcessBatches *)

Definition theta_matrix_type (a : ProcessBatchesArgs) : ThetaMatrixType :=
  default (default_theta_matrix_type K) (pba_theta_matrix_type a).

Definition set_topic_name (t : list string) (a : ProcessBatchesArgs)
  : ProcessBatchesArgs :=
  mkProcessBatchesArgs (pba_pwt_source_name a) (pba_nwt_target_name a)
    (pba_theta_matrix_type a) t (pba_batch_filename a) (pba_batch_weight a)
    (pba_batch a) (pba_inner_iterations_count a) (pba_class_id a)
    (pba_class_weight a) (pba_regularizer_name a) (pba_regularizer_tau a)
    (pba_opt_for_avx a) (pba_reuse_theta a).

Definition set_names (pwt nwt : string) (a : ProcessBatchesArgs)
  : ProcessBatchesArgs :=
  mkProcessBatchesArgs (Some pwt) (Some nwt)
    (pba_theta_matrix_type a) (pba_topic_name a) (pba_batch_filename a)
    (pba_batch_weight a) (pba_batch a) (pba_inner_iterations_count a)
    (pba_class_id a) (pba_class_weight a) (pba_regularizer_name a)
    (pba_regularizer_tau a) (pba_opt_for_avx a) (pba_reuse_theta a).

Definition set_theta_matrix_type (t : ThetaMatrixType)
  (a : ProcessBatchesArgs) : ProcessBatchesArgs :=
  mkProcessBatchesArgs (pba_pwt_source_name a) (pba_nwt_target_name a)
    (Some t) (pba_topic_name a) (pba_batch_filename a) (pba_batch_weight a)
    (pba_batch a) (pba_inner_iterations_count a) (pba_class_id a)
    (pba_class_weight a) (pba_regularizer_name a) (pba_regularizer_tau a)
    (pba_opt_for_avx a) (pba_reuse_theta a).

Definition set_batches (f : list string) (w : list float)
  (a : ProcessBatchesArgs) : ProcessBatchesArgs :=
  mkProcessBatchesArgs (pba_pwt_source_name a) (pba_nwt_target_name a)
    (pba_theta_matrix_type a) (pba_topic_name a) f w
    (pba_batch a) (pba_inner_iterations_count a) (pba_class_id a)
    (pba_class_weight a) (pba_regularizer_name a) (pba_regularizer_tau a)
    (pba_opt_for_avx a) (pba_reuse_theta a).

Definition clear_batch_filename (a : ProcessBatchesArgs)
  : ProcessBatchesArgs :=
  set_batches [] (pba_batch_weight a) a.

(** The local [CacheManager cache_manager] of [RequestProcessBatchesImpl]:
    a new entry of the table of cache managers. *)
Definition CacheManager_local : M nat :=
  let* h := gets (fun w => length (cache_managers w)) in
  let* _ := modify (with_cache_managers (fun l => l ++ [CacheManager_new K])) in
  ret h.

(** The lambda [createProcessorInput]: draws a task id, registers it in the
    batch manager and fills the fields common to all inputs of the call. *)
Definition createProcessorInput (args : ProcessBatchesArgs)
  (batch_manager : nat) (score_manager : option nat)
  (theta_cache_manager_ptr ptdw_cache_manager_ptr : option CachePtr)
  (model_name : string) : M ProcessorInput :=
  let* n := gets uuid_count in
  let* _ := modify (with_uuid_count S) in
  let task_id := random_generator K n in
  let* _ := BatchManager_Add batch_manager task_id in
  ret (mkProcessorInput task_id batch_manager score_manager
         theta_cache_manager_ptr ptdw_cache_manager_ptr model_name args
         (if default false (pba_reuse_theta args)
          then Some InstanceCache else None)
         (pba_nwt_target_name args) None None None).

Definition set_batch_filename (f : string) (weight : float)
  (pi : ProcessorInput) : ProcessorInput :=
  mkProcessorInput (pi_task_id pi) (pi_batch_manager pi) (pi_score_manager pi)
    (pi_cache_manager pi) (pi_ptdw_cache_manager pi) (pi_model_name pi)
    (pi_args pi) (pi_reuse_theta_cache_manager pi) (pi_nwt_target_name pi)
    (Some f) (pi_batch pi) (Some weight).

Definition set_batch (b : Batch) (weight : float) (pi : ProcessorInput)
  : ProcessorInput :=
  mkProcessorInput (pi_task_id pi) (pi_batch_manager pi) (pi_score_manager pi)
    (pi_cache_manager pi) (pi_ptdw_cache_manager pi) (pi_model_name pi)
    (pi_args pi) (pi_reuse_theta_cache_manager pi) (pi_nwt_target_name pi)
    (pi_batch_filename pi) (Some b) (Some weight).

(** The first part of [RequestProcessBatchesImpl], up to the choice of the
    caches: the checks and the installation of the target matrix.  It
    returns the arguments with [topic_name] overwritten (the source writes
    through a [const_cast]) and the source matrix. *)
Definition ProcessBatches_prepare (args : ProcessBatchesArgs) (async : bool)
  : M ProcessBatchesArgs :=
  let model_name := str_or_empty (pba_pwt_source_name args) in
  let* processors := gets processor_size in
  if decide (processors <= 0) then throw InvalidOperation
  else
    let* p_wt := GetPhiMatrixSafe model_name in
    let args := set_topic_name (topic_name p_wt) args in
    let* _ :=
      match pba_nwt_target_name args with
      | Some nwt_target_name =>
          if decide (nwt_target_name = str_or_empty (pba_pwt_source_name args))
          then throw InvalidOperation
          else
            SetPhiMatrix nwt_target_name
              (Reshape p_wt (DensePhiMatrix nwt_target_name (topic_name p_wt)))
      | None => ret tt
      end in
    if async && negb (bool_decide (theta_matrix_type args = ThetaMatrixType_None))
    then throw InvalidOperation
    else ret args.

(** The [switch] on [theta_matrix_type]: the cache handed to the workers for
    Theta and the one for ptdw. *)
Definition ProcessBatches_caches (args : ProcessBatchesArgs)
  (cache_manager : nat) : M (option CachePtr * option CachePtr) :=
  match theta_matrix_type args with
  | ThetaMatrixType_Cache =>
      let* c := gets config in
      let* c := defined c in
      ret (if cfg_cache_theta c then Some InstanceCache else None, None)
  | ThetaMatrixType_Dense | ThetaMatrixType_Sparse =>
      ret (Some (LocalCache cache_manager), None)
  | ThetaMatrixType_DensePtdw | ThetaMatrixType_SparsePtdw =>
      ret (None, Some (LocalCache cache_manager))
  | ThetaMatrixType_None => ret (None, None)
  end.

(** The two loops that enqueue one task per batch file name, then one per
    inline batch. *)
Definition ProcessBatches_enqueue (args : ProcessBatchesArgs)
  (batch_manager : nat) (score_manager : option nat)
  (theta_ptr ptdw_ptr : option CachePtr) : M unit :=
  let model_name := str_or_empty (pba_pwt_source_name args) in
  let create :=
    createProcessorInput args batch_manager score_manager theta_ptr ptdw_ptr
                         model_name in
  let* _ :=
    for_each (seq 0 (length (pba_batch_filename args)))
      (fun batch_index _ =>
         let* pi := create in
         let* f := defined (pba_batch_filename args !! batch_index) in
         let* w := defined (pba_batch_weight args !! batch_index) in
         push (set_batch_filename f w pi)) tt in
  for_each (seq 0 (length (pba_batch args)))
    (fun batch_index _ =>
       let* pi := create in
       let* b := defined (pba_batch args !! batch_index) in
       let* w := defined (pba_batch_weight args !! batch_index) in
       push (set_batch b w pi)) tt.

(** The end of a synchronous call: the Theta matrix is assembled from the
    local cache when the caller gave a place for it ([theta_matrix] is not
    null) and the field [theta_matrix_type] is set. *)
Definition ProcessBatches_theta (args : ProcessBatchesArgs)
  (cache_manager : nat) (theta_matrix : bool) : M (option ThetaMatrix) :=
  let get_theta_matrix_args :=
    match theta_matrix_type args with
    | ThetaMatrixType_Dense | ThetaMatrixType_DensePtdw =>
        mkGetThetaMatrixArgs (Some MatrixLayout_Dense)
    | ThetaMatrixType_Sparse | ThetaMatrixType_SparsePtdw =>
        mkGetThetaMatrixArgs (Some MatrixLayout_Sparse)
    | _ => mkGetThetaMatrixArgs None
    end in
  if theta_matrix && bool_decide (is_Some (pba_theta_matrix_type args)) then
    let* c := gets (fun w => cache_managers w !! cache_manager) in
    let* c := defined c in
    ret (Some (RequestThetaMatrix K get_theta_matrix_args c))
  else ret None.

Definition RequestProcessBatchesImpl (fuel : nat)
  (process_batches_args : ProcessBatchesArgs) (batch_manager : nat)
  (async : bool) (score_manager : option nat) (theta_matrix : bool)
  : M (ProcessBatchesArgs * option ThetaMatrix) :=
  let* args := ProcessBatches_prepare process_batches_args async in
  let* cache_manager := CacheManager_local in
  let* '(theta_ptr, ptdw_ptr) := ProcessBatches_caches args cache_manager in
  let* _ :=
    ProcessBatches_enqueue args batch_manager score_manager theta_ptr
                           ptdw_ptr in
  if async then ret (args, None)
  else
    let* _ := wait_until_processed fuel batch_manager in
    let* theta := ProcessBatches_theta args cache_manager theta_matrix in
    ret (args, theta).

(** [MasterComponent::Request] for [ProcessBatchesArgs]: a synchronous call
    with a batch manager of its own. *)
Definition Request_ProcessBatches (fuel : nat) (args : ProcessBatchesArgs)
  : M (option ThetaMatrix * list ScoreData) :=
  let* batch_manager := BatchManager_new in
  let* '(_, theta) :=
    RequestProcessBatchesImpl fuel args batch_manager false None true in
  let* scores := gets (fun w => RequestAllScores K (score_manager w)) in
  ret (theta, scores).

Definition AsyncRequestProcessBatches (args : ProcessBatchesArgs)
  (batch_manager : nat) : M unit :=
  let* _ := RequestProcessBatchesImpl 0 args batch_manager true None false in
  ret tt.

(** ** Batch iterators *)

(** [class BatchesIterator]: the virtual [move(ProcessBatchesArgs* )].  The
    result is the iterator and the arguments after the call, or [None] where
    the source reads outside a repeated field. *)
Class BatchesIterator (I : Type) : Type :=
  move : I -> ProcessBatchesArgs -> option (I * ProcessBatchesArgs).

Record OfflineBatchesIterator : Type := mkOfflineBatchesIterator {
  off_batch_filename_ : list string;
  off_batch_weight_ : list float
}.

Global Instance Offline_move : BatchesIterator OfflineBatchesIterator :=
  fun it args =>
    Some (it, set_batches (off_batch_filename_ it) (off_batch_weight_ it) args).

Record OnlineBatchesIterator : Type := mkOnlineBatchesIterator {
  batch_filename_ : list string;
  batch_weight_ : list float;
  update_after_ : list Z;
  apply_weight_ : list float;
  decay_weight_ : list float;
  current_ : Z  (* unsigned: index in update_after_ *)
}.

Definition set_current (c : Z) (it : OnlineBatchesIterator)
  : OnlineBatchesIterator :=
  mkOnlineBatchesIterator (batch_filename_ it) (batch_weight_ it)
    (update_after_ it) (apply_weight_ it) (decay_weight_ it) c.

(** [size()] of a repeated field, an [int]. *)
Definition size {A : Type} (l : list A) : Z := Z.of_nat (length l).

(** [current_ < static_cast<int>(update_after_.size())]: the comparison of
    an [unsigned] with an [int] is made on [unsigned]. *)
Definition more (it : OnlineBatchesIterator) : bool :=
  bool_decide (current_ it < to_unsigned (to_int (size (update_after_ it)))).

Definition add_batch (f : string) (w : float) (a : ProcessBatchesArgs)
  : ProcessBatchesArgs :=
  set_batches (pba_batch_filename a ++ [f]) (pba_batch_weight a ++ [w]) a.

(** [for (unsigned i = first; i < last; ++i)], by the number [n] of
    iterations left; [Get] takes an [int]. *)
Fixpoint add_batches (it : OnlineBatchesIterator) (i : Z) (n : nat)
  (a : ProcessBatchesArgs) : option ProcessBatchesArgs :=
  match n with
  | O => Some a
  | S n' =>
      f ← Get (batch_filename_ it) (to_int i);
      w ← Get (batch_weight_ it) (to_int i);
      add_batches it (to_unsigned (i + 1)) n' (add_batch f w a)
  end.

Global Instance Online_move : BatchesIterator OnlineBatchesIterator :=
  fun it args =>
    let args := set_batches [] [] args in
    if decide (to_int (current_ it) >= size (update_after_ it)) then
      Some (it, args)
    else
      first ← (if decide (current_ it = 0) then Some 0
               else to_unsigned <$>
                      Get (update_after_ it)
                          (to_int (to_unsigned (current_ it - 1))));
      last ← to_unsigned <$> Get (update_after_ it) (to_int (current_ it));
      args' ← add_batches it first (Z.to_nat (last - first)) args;
      Some (set_current (to_unsigned (current_ it + 1)) it, args').

(** The accessors without argument read at the cursor, those with an
    argument at the given index. *)
Definition apply_weight_current (it : OnlineBatchesIterator) : option float :=
  Get (apply_weight_ it) (to_int (current_ it)).
Definition decay_weight_current (it : OnlineBatchesIterator) : option float :=
  Get (decay_weight_ it) (to_int (current_ it)).
Definition apply_weight (it : OnlineBatchesIterator) (index : Z)
  : option float := Get (apply_weight_ it) index.
Definition decay_weight (it : OnlineBatchesIterator) (index : Z)
  : option float := Get (decay_weight_ it) index.
Definition update_after (it : OnlineBatchesIterator) (index : Z) : option Z :=
  Get (update_after_ it) index.

Definition reset (it : OnlineBatchesIterator) : OnlineBatchesIterator :=
  set_current 0 it.

(** ** StringIndex *)

Record StringIndex : Type := mkStringIndex { prefix_ : string; i_ : Z }.

(** [operator std::string]: the prefix followed by the decimal index. *)
Definition to_string (x : StringIndex) : string := prefix_ x +:+ pretty (i_ x).
Definition offset (x : StringIndex) (d : Z) : StringIndex :=
  mkStringIndex (prefix_ x) (to_int (i_ x + d)).
Definition incr (x : StringIndex) : StringIndex := offset x 1.

(** ** ArtmExecutor *)

Record ArtmExecutor : Type := mkArtmExecutor {
  master_model_config_ : MasterModelConfig;
  process_batches_args_ : ProcessBatchesArgs;
  regularize_model_args_ : RegularizeModelArgs;
  async_ : list nat
}.

Definition pwt_name_ (ex : ArtmExecutor) : string :=
  pwt_name (master_model_config_ ex).
Definition nwt_name_ (ex : ArtmExecutor) : string :=
  nwt_name (master_model_config_ ex).

(** The constructor. *)
Definition ArtmExecutor_new (c : MasterModelConfig) : ArtmExecutor :=
  mkArtmExecutor c
    (mkProcessBatchesArgs None None None [] [] [] []
       (cfg_inner_iterations_count c) (cfg_class_id c) (cfg_class_weight c)
       (map rc_name (cfg_regularizer_config c))
       (map rc_tau (cfg_regularizer_config c))
       (cfg_opt_for_avx c) (cfg_reuse_theta c))
    (mkRegularizeModelArgs None None None
       (map (fun r => mkRegularizerSettings (rc_name r) (rc_tau r) false)
            (cfg_regularizer_config c)))
    [].

Definition set_process_batches_args (a : ProcessBatchesArgs)
  (ex : ArtmExecutor) : ArtmExecutor :=
  mkArtmExecutor (master_model_config_ ex) a (regularize_model_args_ ex)
                 (async_ ex).

Definition set_regularize_model_args (a : RegularizeModelArgs)
  (ex : ArtmExecutor) : ArtmExecutor :=
  mkArtmExecutor (master_model_config_ ex) (process_batches_args_ ex) a
                 (async_ ex).

Definition push_async (h : nat) (ex : ArtmExecutor) : ArtmExecutor :=
  mkArtmExecutor (master_model_config_ ex) (process_batches_args_ ex)
                 (regularize_model_args_ ex) (async_ ex ++ [h]).

(** [::artm::core::ScoreManager score_manager(instance)]: a new score
    manager, local to one pass. *)
Definition ScoreManager_local : M nat :=
  let* h := gets (fun w => length (score_managers w)) in
  let* _ := modify (with_score_managers (fun l => l ++ [ScoreManager_new K])) in
  let* _ := log (EvNewScoreManager h) in
  ret h.

Definition ProcessBatches {I : Type} `{BatchesIterator I} (fuel : nat)
  (ex : ArtmExecutor) (pwt nwt : string) (iter : I) (score_manager : nat)
  : M (ArtmExecutor * I) :=
  let args := set_names pwt nwt (process_batches_args_ ex) in
  let* '(iter, args) := defined (move iter args) in
  let* batch_manager := BatchManager_new in
  let* _ := log (EvProcessBatches pwt nwt (pba_batch_filename args)
                                  (pba_batch_weight args) score_manager) in
  let* '(args, _) :=
    RequestProcessBatchesImpl fuel args batch_manager false
                              (Some score_manager) false in
  ret (set_process_batches_args (clear_batch_filename args) ex, iter).

Definition AsyncProcessBatches {I : Type} `{BatchesIterator I}
  (ex : ArtmExecutor) (pwt nwt : string) (iter : I)
  : M (Z * ArtmExecutor * I) :=
  let args :=
    set_theta_matrix_type ThetaMatrixType_None
      (set_names pwt nwt (process_batches_args_ ex)) in
  let* '(iter, args) := defined (move iter args) in
  let operation_id := to_int (size (async_ ex)) in
  let* batch_manager := BatchManager_new in
  let ex := push_async batch_manager ex in
  let* _ := log (EvAsyncProcessBatches operation_id pwt nwt
                   (pba_batch_filename args) (pba_batch_weight args)) in
  let* '(args, _) :=
    RequestProcessBatchesImpl 0 args batch_manager true None false in
  ret (operation_id,
       set_process_batches_args (clear_batch_filename args) ex, iter).

(** [async_[operation_id]] is undefined outside the vector. *)
Definition Await (fuel : nat) (ex : ArtmExecutor) (operation_id : Z)
  : M unit :=
  let* _ := log (EvAwait operation_id) in
  let* h := defined (Get (async_ ex) operation_id) in
  wait_until_processed fuel h.

Definition Regularize (ex : ArtmExecutor) (pwt nwt rwt : string)
  : M ArtmExecutor :=
  let* _ := log (EvRegularize pwt nwt rwt) in
  if decide (size (rma_regularizer_settings (regularize_model_args_ ex)) > 0)
  then
    let args :=
      mkRegularizeModelArgs (Some pwt) (Some nwt) (Some rwt)
        (rma_regularizer_settings (regularize_model_args_ ex)) in
    let* _ := RegularizeModel args in
    ret (set_regularize_model_args args ex)
  else ret ex.

Definition Normalize (ex : ArtmExecutor) (pwt nwt rwt : string) : M unit :=
  let* _ := log (EvNormalize pwt nwt rwt) in
  NormalizeModel
    (mkNormalizeModelArgs (Some pwt) (Some nwt)
       (if decide (size (rma_regularizer_settings (regularize_model_args_ ex))
                   > 0)
        then Some rwt else None)).

(** One [score_tracker()->Add()] and one [RequestScore] for each configured
    score; the configuration is read through [master_component_->config()]. *)
Definition StoreScores (score_manager : nat) : M unit :=
  let* _ := log (EvStoreScores score_manager) in
  let* c := gets config in
  let* c := defined c in
  let* m := gets (fun w => score_managers w !! score_manager) in
  let* m := defined m in
  modify (with_score_tracker
            (fun t => t ++ map (fun sc => RequestScore K m (sc_name sc))
                               (cfg_score_config c))).

Definition Merge (nwt : string) (decay_weight : float) (nwt_hat : string)
  (apply_weight : float) : M unit :=
  let* _ := log (EvMerge nwt decay_weight nwt_hat apply_weight) in
  MergeModel
    (mkMergeModelArgs [nwt; nwt_hat] [decay_weight; apply_weight] (Some nwt)
                      []).

Definition Dispose (name : string) : M unit := DisposeModel name.

Definition rwt_name : string := "rwt".

(** The body of the loop over the passes. *)
Definition ExecuteOfflineAlgorithm_pass (fuel : nat)
  (st : ArtmExecutor * OfflineBatchesIterator)
  : M (ArtmExecutor * OfflineBatchesIterator) :=
  let '(ex, iter) := st in
  let* score_manager := ScoreManager_local in
  let* '(ex, iter) :=
    ProcessBatches fuel ex (pwt_name_ ex) (nwt_name_ ex) iter score_manager in
  let* ex := Regularize ex (pwt_name_ ex) (nwt_name_ ex) rwt_name in
  let* _ := Normalize ex (pwt_name_ ex) (nwt_name_ ex) rwt_name in
  let* _ := StoreScores score_manager in
  ret (ex, iter).

Definition ExecuteOfflineAlgorithm (fuel : nat) (ex : ArtmExecutor)
  (passes : Z) (iter : OfflineBatchesIterator)
  : M (ArtmExecutor * OfflineBatchesIterator) :=
  let* _ := ClearScoreCache in
  let* st :=
    for_each (seq 0 (Z.to_nat passes))
             (fun _ st => ExecuteOfflineAlgorithm_pass fuel st) (ex, iter) in
  let* _ := Dispose rwt_name in
  ret st.

(** [while (iter->more())] of the synchronous online schedule, with a bound
    [n] on the number of iterations. *)
Fixpoint ExecuteOnlineAlgorithm_loop (n fuel : nat) (ex : ArtmExecutor)
  (iter : OnlineBatchesIterator) (nwt_hat_index : StringIndex)
  : M (ArtmExecutor * OnlineBatchesIterator) :=
  if more iter then
    match n with
    | O => out_of_fuel
    | S n' =>
        let* apply_weight := defined (apply_weight_current iter) in
        let* decay_weight := defined (decay_weight_current iter) in
        let* score_manager := ScoreManager_local in
        let* '(ex, iter) :=
          ProcessBatches fuel ex (pwt_name_ ex) (to_string nwt_hat_index) iter
                         score_manager in
        let* _ := Merge (nwt_name_ ex) decay_weight (to_string nwt_hat_index)
                        apply_weight in
        let* _ := Dispose (to_string nwt_hat_index) in
        let* ex := Regularize ex (pwt_name_ ex) (nwt_name_ ex) rwt_name in
        let* _ := Normalize ex (pwt_name_ ex) (nwt_name_ ex) rwt_name in
        let* _ := StoreScores score_manager in
        ExecuteOnlineAlgorithm_loop n' fuel ex iter (incr nwt_hat_index)
    end
  else ret (ex, iter).

Definition ExecuteOnlineAlgorithm (fuel : nat) (ex : ArtmExecutor)
  (iter : OnlineBatchesIterator) : M (ArtmExecutor * OnlineBatchesIterator) :=
  let* _ := ClearScoreCache in
  let* '(ex, iter) :=
    ExecuteOnlineAlgorithm_loop fuel fuel ex iter (mkStringIndex "nwt_hat" 0) in
  ret (ex, reset iter).

(** The local variables of [ExecuteAsyncOnlineAlgorithm] that live across
    the iterations of its loop. *)
Record AsyncLoop : Type := mkAsyncLoop {
  al_ex : ArtmExecutor;
  al_iter : OnlineBatchesIterator;
  al_pwt_active : string;
  al_pwt_index : StringIndex;
  al_nwt_hat_index : StringIndex;
  al_op_id : Z
}.

(** One iteration of [while (true)]; the boolean is [is_last] (the loop
    breaks after this iteration). *)
Definition ExecuteAsyncOnlineAlgorithm_body (fuel : nat) (l : AsyncLoop)
  : M (bool * AsyncLoop) :=
  let ex := al_ex l in
  let iter := al_iter l in
  let pwt_active := al_pwt_active l in
  let op_id := al_op_id l in
  let is_last := negb (more iter) in
  let pwt_index := incr (al_pwt_index l) in
  let nwt_hat_index := incr (al_nwt_hat_index l) in
  let* apply_weight := defined (apply_weight iter op_id) in
  let* decay_weight := defined (decay_weight iter op_id) in
  let temp_op_id := op_id in
  let* '(op_id, ex, iter) :=
    if negb is_last
    then AsyncProcessBatches ex pwt_active (to_string nwt_hat_index) iter
    else ret (op_id, ex, iter) in
  let* _ := Await fuel ex temp_op_id in
  let* _ := Merge (nwt_name_ ex) decay_weight
                  (to_string (offset nwt_hat_index (-1))) apply_weight in
  let* _ := Dispose (to_string (offset nwt_hat_index (-1))) in
  let* ex := Regularize ex pwt_active (nwt_name_ ex) rwt_name in
  let pwt_active :=
    if is_last then pwt_name_ ex else to_string (offset pwt_index 1) in
  let* _ := Normalize ex pwt_active (nwt_name_ ex) rwt_name in
  let* _ := Dispose (to_string (offset pwt_index (-1))) in
  let* _ := if is_last then Dispose (to_string pwt_index) else ret tt in
  ret (is_last,
       mkAsyncLoop ex iter pwt_active pwt_index nwt_hat_index op_id).

Fixpoint ExecuteAsyncOnlineAlgorithm_loop (n fuel : nat) (l : AsyncLoop)
  : M AsyncLoop :=
  match n with
  | O => out_of_fuel
  | S n' =>
      let* '(is_last, l) := ExecuteAsyncOnlineAlgorithm_body fuel l in
      if is_last then ret l
      else ExecuteAsyncOnlineAlgorithm_loop n' fuel l
  end.

Definition ExecuteAsyncOnlineAlgorithm (fuel : nat) (ex : ArtmExecutor)
  (iter : OnlineBatchesIterator) : M (ArtmExecutor * OnlineBatchesIterator) :=
  let pwt_active := pwt_name_ ex in
  let pwt_index := mkStringIndex "pwt" 0 in
  let nwt_hat_index := mkStringIndex "nwt_hat" 0 in
  let* _ := ClearScoreCache in
  let* '(op_id, ex, iter) :=
    AsyncProcessBatches ex pwt_active (to_string nwt_hat_index) iter in
  let* l :=
    ExecuteAsyncOnlineAlgorithm_loop fuel fuel
      (mkAsyncLoop ex iter pwt_active pwt_index nwt_hat_index op_id) in
  ret (al_ex l, reset (al_iter l)).

Record FitOnlineMasterModelArgs : Type := mkFitOnlineMasterModelArgs {
  fo_batch_filename : list string;
  fo_batch_weight : list float;
  fo_update_after : list Z;
  fo_apply_weight : list float;
  fo_decay_weight : list float;
  fo_async : bool
}.

Definition FitOnline (fuel : nat) (args : FitOnlineMasterModelArgs) : M unit :=
  let* c := gets config in
  match c with
  | None => throw InvalidOperation
  | Some c =>
      let artm_executor := ArtmExecutor_new c in
      let iter :=
        mkOnlineBatchesIterator (fo_batch_filename args) (fo_batch_weight args)
          (fo_update_after args) (fo_apply_weight args) (fo_decay_weight args)
          0 in
      let* _ :=
        if fo_async args
        then ExecuteAsyncOnlineAlgorithm fuel artm_executor iter
        else ExecuteOnlineAlgorithm fuel artm_executor iter in
      ret tt
  end.

(** ** ExportModel *)

Definition add_token (t : Token) (a : GetTopicModelArgs) : GetTopicModelArgs :=
  mkGetTopicModelArgs (gtm_model_name a) (gtm_request_type a)
    (gtm_matrix_layout a) (gtm_token a ++ [keyword t])
    (gtm_class_id a ++ [class_id t]).

Definition clear_tokens (a : GetTopicModelArgs) : GetTopicModelArgs :=
  mkGetTopicModelArgs (gtm_model_name a) (gtm_request_type a)
    (gtm_matrix_layout a) [] [].

(** The body of the loop over [token_id]: the accumulator is the request
    under construction and the requests already written, one per chunk. *)
Definition ExportModel_body (n_wt : PhiMatrix) (tokens_per_chunk : Z)
  (token_id : nat) (acc : GetTopicModelArgs * list GetTopicModelArgs)
  : option (GetTopicModelArgs * list GetTopicModelArgs) :=
  let '(get_topic_model_args, chunks) := acc in
  t ← token n_wt !! token_id;
  let get_topic_model_args := add_token t get_topic_model_args in
  if bool_decide (Z.of_nat token_id + 1 = token_size n_wt)
     || bool_decide (size (gtm_token get_topic_model_args) >= tokens_per_chunk)
  then Some (clear_tokens get_topic_model_args,
             chunks ++ [get_topic_model_args])
  else Some (get_topic_model_args, chunks).

Fixpoint ExportModel_loop (n_wt : PhiMatrix) (tokens_per_chunk : Z)
  (ids : list nat) (acc : GetTopicModelArgs * list GetTopicModelArgs)
  : option (GetTopicModelArgs * list GetTopicModelArgs) :=
  match ids with
  | [] => Some acc
  | token_id :: ids' =>
      acc' ← ExportModel_body n_wt tokens_per_chunk token_id acc;
      ExportModel_loop n_wt tokens_per_chunk ids' acc'
  end.

(** [std::min<int>(token_size, 100 * 1024 * 1024 / n_wt.topic_size())];
    the division of [int]s is undefined for a zero divisor. *)
Definition tokens_per_chunk (n_wt : PhiMatrix) : option Z :=
  if decide (topic_size n_wt = 0) then None
  else Some (Z.min (token_size n_wt) ((100 * 1024 * 1024) `quot` topic_size n_wt)).

(** The requests of the chunks that [ExportModel] writes for a matrix, in
    the order of writing. *)
Definition ExportModel_chunks (model_name : string) (n_wt : PhiMatrix)
  : option (list GetTopicModelArgs) :=
  n ← tokens_per_chunk n_wt;
  r ← ExportModel_loop n_wt n (seq 0 (Z.to_nat (token_size n_wt)))
        (mkGetTopicModelArgs (Some model_name) (Some RequestType_Nwt)
                             (Some MatrixLayout_Sparse) [] [], []);
  Some r.2.

(** [fout << str.size(); fout << str]: the decimal length, then the bytes. *)
Definition chunk_bytes (n_wt : PhiMatrix) (a : GetTopicModelArgs) : list byte :=
  let str := SerializeAsString K (RetrieveExternalTopicModel K n_wt a) in
  String.list_byte_of_string (pretty (size str)) ++ str.

Definition ExportModel (args : ExportModelArgs) : M unit :=
  let* c := gets config in
  let model_name :=
    match c, ema_model_name args with
    | Some c, None => pwt_name c
    | _, o => str_or_empty o
    end in
  let* existing := gets (fun w => files w !! ema_file_name args) in
  if bool_decide (is_Some existing) then throw DiskWriteException
  else
    let* w := gets (fun w => w) in
    if negb (can_create K w (ema_file_name args)) then throw DiskWriteException
    else
      let* _ := modify (with_files (insert (ema_file_name args) [])) in
      let* n_wt := GetPhiMatrixSafe model_name in
      if decide (token_size n_wt = 0) then throw InvalidOperation
      else
        let* chunks := defined (ExportModel_chunks model_name n_wt) in
        modify (with_files
                  (insert (ema_file_name args)
                     (x00 :: flat_map (chunk_bytes n_wt) chunks))).

(** ** ImportModel *)

(** A [std::ifstream] opened in binary mode: the bytes not yet read and the
    state bits [eofbit] and [failbit]. *)
Record ifstream : Type := mkIfstream {
  rest : list byte;
  eofbit : bool;
  failbit : bool
}.

Definition good (f : ifstream) : bool := negb (eofbit f) && negb (failbit f).

(** [isspace] in the "C" locale. *)
Definition is_space (b : byte) : bool :=
  let n := Byte.to_N b in ((9 <=? n) && (n <=? 13) || (n =? 32))%N.
Definition is_digit (b : byte) : bool :=
  let n := Byte.to_N b in ((48 <=? n) && (n <=? 57))%N.

Fixpoint skipws (l : list byte) : list byte :=
  match l with
  | b :: l' => if is_space b then skipws l' else l
  | [] => []
  end.

(** The decimal digits at the head of [l] read as a number continuing [acc],
    and what follows them. *)
Fixpoint digits (acc : Z) (l : list byte) : Z * list byte :=
  match l with
  | b :: l' =>
      if is_digit b then digits (10 * acc + (Z.of_N (Byte.to_N b) - 48)) l'
      else (acc, l)
  | [] => (acc, [])
  end.

(** [fin >> c] for a [char]: skips white space and reads one byte; at the
    end of the stream it sets [eofbit] and [failbit] and stores nothing. *)
Definition extract_char (c : byte) (f : ifstream) : byte * ifstream :=
  if good f then
    match skipws (rest f) with
    | [] => (c, mkIfstream [] true true)
    | b :: l => (b, mkIfstream l false false)
    end
  else (c, mkIfstream (rest f) (eofbit f) true).

(** [fin >> v] for an [int]: skips white space, reads an optional sign and
    decimal digits.  Nothing is stored when the stream is not good or ends
    before the number; zero is stored and [failbit] set when there is no
    digit; a number outside [int] stores the nearest bound and sets
    [failbit]; [eofbit] is set when the number ends the stream. *)
Definition extract_int (v : Z) (f : ifstream) : Z * ifstream :=
  if good f then
    match skipws (rest f) with
    | [] => (v, mkIfstream [] true true)
    | b :: l =>
        let '(negative, l1) :=
          if bool_decide (b = "-"%byte) then (true, l)
          else if bool_decide (b = "+"%byte) then (false, l)
          else (false, b :: l) in
        let '(n, l2) := digits 0 l1 in
        let at_end := bool_decide (l2 = []) in
        if bool_decide (length l2 = length l1) then
          (0, mkIfstream l2 at_end true)
        else
          let n := if negative then - n else n in
          if decide (n > INT_MAX) then (INT_MAX, mkIfstream l2 at_end true)
          else if decide (n < INT_MIN) then (INT_MIN, mkIfstream l2 at_end true)
          else (n, mkIfstream l2 at_end false)
    end
  else (v, mkIfstream (rest f) (eofbit f) true).

(** [std::string buffer(length, 0); fin.read(&buffer[0], length)]: the
    buffer keeps its zeros where the stream gave no byte. *)
Definition read (n : Z) (f : ifstream) : list byte * ifstream :=
  let n := Z.to_nat n in
  if good f then
    let got := take n (rest f) in
    if decide (length got < n)%nat then
      (got ++ replicate (n - length got)%nat x00, mkIfstream [] true true)
    else (got, mkIfstream (drop n (rest f)) false false)
  else (replicate n x00, mkIfstream (rest f) (eofbit f) true).

(** How one iteration of the loop of [ImportModel] ends. *)
Inductive ImportStep : Type :=
  | Continue (fin : ifstream) (target : PhiMatrix)
  | Break
  | Raise (e : Exn).

(** The body of [while (!fin.eof())]. *)
Definition ImportModel_body (model_name : string) (fin : ifstream)
  (target : option PhiMatrix) : ImportStep :=
  let '(length, fin) := extract_int (indeterminate_int K) fin in
  if eofbit fin then Break
  else if decide (length <= 0) then Raise CorruptedMessageException
  else
    let '(buffer, fin) := read length fin in
    match ParseFromArray K buffer with
    | None => Raise CorruptedMessageException
    | Some topic_model =>
        let topic_model := tm_set_name model_name topic_model in
        let target :=
          match target with
          | Some t => t
          | None => DensePhiMatrix model_name (tm_topic_name topic_model)
          end in
        Continue fin
          (ApplyTopicModelOperation K topic_model (float_one K) target)
    end.

Fixpoint ImportModel_loop (fuel : nat) (model_name : string) (fin : ifstream)
  (target : option PhiMatrix) : Res (option PhiMatrix) :=
  if eofbit fin then Ok target
  else
    match fuel with
    | O => OutOfFuel
    | S fuel' =>
        match ImportModel_body model_name fin target with
        | Continue fin' target' =>
            ImportModel_loop fuel' model_name fin' (Some target')
        | Break => Ok target
        | Raise e => Throw e
        end
    end.

Definition ImportModel (fuel : nat) (args : ImportModelArgs) : M unit :=
  let* c := gets config in
  let model_name :=
    match c, ima_model_name args with
    | Some c, None => pwt_name c
    | _, o => str_or_empty o
    end in
  let* file := gets (fun w => files w !! ima_file_name args) in
  match file with
  | None => throw DiskReadException
  | Some bytes =>
      let fin := mkIfstream bytes false false in
      let '(version, fin) := extract_char (indeterminate_char K) fin in
      if negb (bool_decide (version = x00)) then throw DiskReadException
      else
        let* target := fun s => (ImportModel_loop fuel model_name fin None, s) in
        match target with
        | None => throw CorruptedMessageException
        | Some target => SetPhiMatrix model_name target
        end
  end.

(** ** OverwriteTopicModel *)

Definition OverwriteTopicModel (args : TopicModel) : M unit :=
  let* c := gets config in
  let args :=
    match c, tm_name args with
    | Some c, None => tm_set_name (pwt_name c) args
    | _, _ => args
    end in
  let name := str_or_empty (tm_name args) in
  let target := DensePhiMatrix name (tm_topic_name args) in
  SetPhiMatrix name (ApplyTopicModelOperation K args (float_one K) target).

(** ** FitOffline *)

(** [fof_passes] is the value of the getter [passes()]. *)
Record FitOfflineMasterModelArgs : Type := mkFitOfflineMasterModelArgs {
  fof_batch_filename : list string;
  fof_batch_weight : list float;
  fof_passes : Z;
  fof_batch_folder : option string
}.

Definition add_batch_filenames (names : list string)
  (a : FitOfflineMasterModelArgs) : FitOfflineMasterModelArgs :=
  mkFitOfflineMasterModelArgs (fof_batch_filename a ++ names)
    (fof_batch_weight a) (fof_passes a) (fof_batch_folder a).

Section FitOfflineModel.

(** The collaborators of [FitOffline]: [Helpers::ListAllBatches], which
    lists the batches of a folder of the file system, and [FixMessage] of
    check_messages.h. *)
Variable ListAllBatches : World -> string -> list string.
Variable FixMessage : FitOfflineMasterModelArgs -> FitOfflineMasterModelArgs.

(** [batches_keys] is [instance_->batches()->keys()], the names of the
    batches in memory, which the call only reads. *)
Definition FitOffline (fuel : nat) (batches_keys : list string)
  (args : FitOfflineMasterModelArgs) : M unit :=
  let* c := gets config in
  match c with
  | None => throw InvalidOperation
  | Some c =>
      let* args :=
        if decide (size (fof_batch_filename args) = 0) then
          let* batch_names :=
            match fof_batch_folder args with
            | None =>
                let batch_names := batches_keys in
                if decide (batch_names = []) then throw InvalidOperation
                else ret batch_names
            | Some batch_folder =>
                let* w := gets (fun w => w) in
                let batch_names := ListAllBatches w batch_folder in
                if decide (batch_names = []) then throw InvalidOperation
                else ret batch_names
            end in
          ret (FixMessage (add_batch_filenames batch_names args))
        else ret args in
      let artm_executor := ArtmExecutor_new c in
      let iter :=
        mkOfflineBatchesIterator (fof_batch_filename args)
                                 (fof_batch_weight args) in
      let* _ :=
        ExecuteOfflineAlgorithm fuel artm_executor (fof_passes args) iter in
      ret tt
  end.

End FitOfflineModel.

(** ** Dictionaries *)

Record ImportDictionaryArgs : Type := mkImportDictionaryArgs {
  ida_file_name : string;
  ida_dictionary_name : option string
}.

Record GetDictionaryArgs : Type := mkGetDictionaryArgs {
  gda_dictionary_name : option string
}.

Section Dictionaries.

(** The message [DictionaryData] and the class [Dictionary]
    (artm/core/dictionary.h is not part of the file), with what the file
    uses of them. *)
Context {DictionaryData Dictionary : Type}.

Record DictionaryOps : Type := mkDictionaryOps {
  (** [data.name()], [data.set_name(name)], [data.token_size()] and
      [data.cooc_first_index_size()] *)
  dd_name : DictionaryData -> string;
  dd_set_name : string -> DictionaryData -> DictionaryData;
  dd_token_size : DictionaryData -> Z;
  dd_cooc_first_index_size : DictionaryData -> Z;
  (** the constructor [Dictionary(data)], [Append] and
      [StoreIntoDictionaryData] *)
  Dictionary_new : DictionaryData -> Dictionary;
  Dictionary_Append : DictionaryData -> Dictionary -> Dictionary;
  StoreIntoDictionaryData : Dictionary -> DictionaryData
}.

Variable D : DictionaryOps.

(** Modelled from the spec: [instance_->dictionaries()], a
    [ThreadSafeCollectionHolder] (artm/core/thread_safe_holder.h is not part
    of the file), holds named objects as the registry holds matrices: [set]
    replaces any prior entry, [get] gives a null pointer for a name that is
    not there, [erase] removes an entry and [clear] removes all. *)
Abbreviation Dictionaries := (gmap string Dictionary).

Definition DM (A : Type) : Type := Dictionaries -> Res A * Dictionaries.

Definition DisposeDictionary (name : string) : DM unit :=
  fun d =>
    if decide (name = EmptyString) then (Ok tt, ∅)
    else (Ok tt, delete name d).

Definition CreateDictionary (data : DictionaryData) : DM unit :=
  fun d =>
    let '(_, d) := DisposeDictionary (dd_name D data) d in
    let dictionary := Dictionary_new D data in
    (Ok tt, <[dd_name D data := dictionary]> d).

(** [dict_ptr->Append(data)] changes the dictionary that the collection
    holds. *)
Definition AppendDictionary (data : DictionaryData) : DM unit :=
  fun d =>
    match d !! dd_name D data with
    | None => (Throw InvalidOperation, d)
    | Some dict =>
        (Ok tt, <[dd_name D data := Dictionary_Append D data dict]> d)
    end.

(** [import_data] is the result of [Dictionary::ImportData(args)];
    [front()] of an empty vector is undefined. *)
Definition ImportDictionary (import_data : list DictionaryData)
  (args : ImportDictionaryArgs) : DM unit :=
  fun d =>
    match import_data with
    | [] => (Undefined, d)
    | front :: others =>
        let token_size := dd_token_size D front in
        if decide (token_size <= 0) then (Throw CorruptedMessageException, d)
        else
          let name := str_or_empty (ida_dictionary_name args) in
          let '(_, d) := CreateDictionary (dd_set_name D name front) d in
          fold_left
            (fun (acc : Res unit * Dictionaries) data =>
               match acc with
               | (Ok _, d) => AppendDictionary (dd_set_name D name data) d
               | (Fail f, d) => (Fail f, d)
               end)
            others (Ok tt, d)
    end.

(** [MasterComponent::Request] for [GetDictionaryArgs]. *)
Definition Request_Dictionary (args : GetDictionaryArgs)
  : DM DictionaryData :=
  fun d =>
    match d !! str_or_empty (gda_dictionary_name args) with
    | None => (Throw InvalidOperation, d)
    | Some dict =>
        (Ok (dd_set_name D (str_or_empty (gda_dictionary_name args))
               (StoreIntoDictionaryData D dict)), d)
    end.

(** [data] is the pair of messages that [Dictionary::Filter] has made from
    the arguments and the dictionaries. *)
Definition FilterDictionary (data : DictionaryData * DictionaryData)
  : DM unit :=
  fun d =>
    let '(_, d) := CreateDictionary data.1 d in
    if decide (dd_cooc_first_index_size D data.2 > 0)
    then AppendDictionary data.2 d
    else (Ok tt, d).

(** [data] is the pair of messages that [Dictionary::Gather] has made from
    the arguments and the batches in memory. *)
Definition GatherDictionary (data : DictionaryData * DictionaryData)
  : DM unit :=
  fun d =>
    let '(_, d) := CreateDictionary data.1 d in
    if decide (dd_cooc_first_index_size D data.2 > 0)
    then AppendDictionary data.2 d
    else (Ok tt, d).

End Dictionaries.

(** ** External requests *)

(** A loop whose body may have undefined behaviour. *)
Fixpoint for_each_defined {I A : Type} (l : list I) (body : I -> A -> option A)
  (acc : A) : option A :=
  match l with
  | [] => Some acc
  | i :: l' => acc' ← body i acc; for_each_defined l' body acc'
  end.

(** [size_t] has 64 bits. *)
Definition to_size_t (z : Z) : Z := z mod 2 ^ 64.

(** [lm->resize(sizeof(float) * rows * cols)], with the string seen through
    [lm_float] as an array of floats: the first floats are kept and the
    new ones are zero.  The product is computed in [size_t].  As everywhere
    in this embedding, memory is not bounded. *)
Definition resize_floats (rows cols : Z) (lm : list float) : list float :=
  let bytes := to_size_t (to_size_t (4 * to_size_t rows) * to_size_t cols) in
  let n := Z.to_nat (bytes `div` 4) in
  take n lm ++ replicate (n - length lm) (float_zero K).

(** [int index = row * cols + col; lm_float[index] = weights(row).value(col)]:
    undefined when the [int] overflows, when the repeated fields are read
    out of range, and when the cell is outside the buffer. *)
Definition write_float (weights : list (list float)) (cols : Z)
  (row col : nat) (lm_float : list float) : option (list float) :=
  let index := Z.of_nat row * cols + Z.of_nat col in
  if decide (index > INT_MAX) then None
  else
    values ← weights !! row;
    v ← values !! col;
    if decide (Z.to_nat index < length lm_float)%nat
    then Some (<[Z.to_nat index := v]> lm_float)
    else None.

Definition clear_token_weights (t : TopicModel) : TopicModel :=
  mkTopicModel (tm_name t) (tm_topic_name t) (tm_token t) (tm_class_id t) [].

Global Instance MatrixLayout_eq_dec : EqDecision MatrixLayout.
Proof. solve_decision. Defined.

Section External.

(** The field [topics_count] of [::artm::TopicModel], which the record
    above does not hold, and the fields of [::artm::ThetaMatrix]: the
    number of item ids, [topics_count], the weights of the items, and
    [clear_item_weights]. *)
Variable tm_topics_count : TopicModel -> Z.
Variable item_id_size : ThetaMatrix -> Z.
Variable topics_count : ThetaMatrix -> Z.
Variable item_weights : ThetaMatrix -> list (list float).
Variable clear_item_weights : ThetaMatrix -> ThetaMatrix.

(** A [ThetaMatrix] message as it is constructed, and the value of
    [matrix_layout()] when the field is not set. *)
Variable ThetaMatrix_new : ThetaMatrix.
Variable default_matrix_layout : MatrixLayout.

(** [lm] is the contents of the string [*lm] before the call, seen as
    floats. *)
Definition HandleExternalTopicModelRequest (topic_model : TopicModel)
  (lm : list float) : option (TopicModel * list float) :=
  let token_size := size (tm_token topic_model) in
  let topics_count := tm_topics_count topic_model in
  let lm_float := resize_floats token_size topics_count lm in
  lm_float ←
    for_each_defined (seq 0 (Z.to_nat token_size))
      (fun token_index lm_float =>
         for_each_defined (seq 0 (Z.to_nat topics_count))
           (fun topic_index lm_float =>
              write_float (tm_token_weights topic_model) topics_count
                          token_index topic_index lm_float)
           lm_float)
      lm_float;
  Some (clear_token_weights topic_model, lm_float).

Definition HandleExternalThetaMatrixRequest (theta_matrix : ThetaMatrix)
  (lm : list float) : option (ThetaMatrix * list float) :=
  let lm_float :=
    resize_floats (item_id_size theta_matrix) (topics_count theta_matrix) lm in
  lm_float ←
    for_each_defined (seq 0 (Z.to_nat (topics_count theta_matrix)))
      (fun topic_index lm_float =>
         for_each_defined (seq 0 (Z.to_nat (item_id_size theta_matrix)))
           (fun item_index lm_float =>
              write_float (item_weights theta_matrix)
                          (topics_count theta_matrix) item_index topic_index
                          lm_float)
           lm_float)
      lm_float;
  Some (clear_item_weights theta_matrix, lm_float).

(** [MasterComponent::Request] for [GetTopicModelArgs], and its external
    variant. *)
Definition Request_TopicModel (args : GetTopicModelArgs) : M TopicModel :=
  let* c := gets config in
  let args :=
    match c, gtm_model_name args with
    | Some c, None =>
        mkGetTopicModelArgs (Some (pwt_name c)) (gtm_request_type args)
          (gtm_matrix_layout args) (gtm_token args) (gtm_class_id args)
    | _, _ => args
    end in
  let* phi_matrix := GetPhiMatrixSafe (str_or_empty (gtm_model_name args)) in
  ret (RetrieveExternalTopicModel K phi_matrix args).

Definition Request_TopicModel_external (args : GetTopicModelArgs)
  (external : list float) : M (TopicModel * list float) :=
  if negb (bool_decide (default default_matrix_layout (gtm_matrix_layout args)
                        = MatrixLayout_Dense))
  then throw InvalidOperation
  else
    let* result := Request_TopicModel args in
    defined (HandleExternalTopicModelRequest result external).

(** [MasterComponent::Request] for [GetThetaMatrixArgs], and its external
    variant. *)
Definition Request_ThetaMatrix (args : GetThetaMatrixArgs) : M ThetaMatrix :=
  gets (fun w => RequestThetaMatrix K args (cache_manager w)).

Definition Request_ThetaMatrix_external (args : GetThetaMatrixArgs)
  (external : list float) : M (ThetaMatrix * list float) :=
  if negb (bool_decide (default default_matrix_layout (gth_matrix_layout args)
                        = MatrixLayout_Dense))
  then throw InvalidOperation
  else
    let* result := Request_ThetaMatrix args in
    defined (HandleExternalThetaMatrixRequest result external).

(** The external variant of [Request] for [ProcessBatchesArgs]: the Theta
    matrix of the result is the one of [Request], or a new message when
    [Request] has not requested it. *)
Definition Request_ProcessBatches_external (fuel : nat)
  (args : ProcessBatchesArgs) (external : list float)
  : M (ThetaMatrix * list ScoreData * list float) :=
  let is_dense_theta :=
    bool_decide (theta_matrix_type args = ThetaMatrixType_Dense) in
  let is_dense_ptdw :=
    bool_decide (theta_matrix_type args = ThetaMatrixType_DensePtdw) in
  if negb is_dense_theta && negb is_dense_ptdw then throw InvalidOperation
  else
    let* '(theta, scores) := Request_ProcessBatches fuel args in
    let theta_matrix := default ThetaMatrix_new theta in
    let* '(theta_matrix, lm) :=
      defined (HandleExternalThetaMatrixRequest theta_matrix external) in
    ret (theta_matrix, scores, lm).

End External.

(** * Properties *)

(** ** Running computations *)

Lemma bind_ok {A B : Type} (m : M A) (k : A -> M B) s a s' :
  m s = (Ok a, s') -> bind m k s = k a s'.
Proof. unfold bind. by intros ->. Qed.

Lemma bind_fail {A B : Type} (m : M A) (k : A -> M B) s f s' :
  m s = (Fail f, s') -> bind m k s = (Fail f, s').
Proof. unfold bind. by intros ->. Qed.

Lemma bind_inv {A B : Type} (m : M A) (k : A -> M B) s r s' :
  bind m k s = (r, s') ->
  (exists a s1, m s = (Ok a, s1) /\ k a s1 = (r, s'))
  \/ (exists f, m s = (Fail f, s') /\ r = Fail f).
Proof.
  unfold bind. destruct (m s) as [[a|f] s1]; intros H.
  - left. by exists a, s1.
  - right. exists f. by inversion H.
Qed.

Lemma bind_gets {A B : Type} (f : World -> A) (k : A -> M B) s :
  bind (gets f) k s = k (f (world s)) s.
Proof. reflexivity. Qed.

Lemma bind_modify {B : Type} (f : World -> World) (k : unit -> M B) s :
  bind (modify f) k s = k tt (mkState (f (world s)) (history s)).
Proof. reflexivity. Qed.

(** ** Merge (C5) *)

(** The listed sources that exist in the registry, with their weights, as
    the specification describes the inputs of the merge. *)
Definition present_sources (reg : gmap string PhiMatrix)
  (l : list (string * float)) : list (PhiMatrix * float) :=
  omap (fun p => (fun m => (m, p.2)) <$> reg !! p.1) l.

(** Adding one present source to the target under construction. *)
Definition merge_source (a : MergeModelArgs) (acc : option PhiMatrix)
  (p : PhiMatrix * float) : option PhiMatrix :=
  let t :=
    match acc with
    | Some t => t
    | None =>
        DensePhiMatrix (str_or_empty (mma_nwt_target_name a))
          (if negb (Nat.eqb (length (mma_topic_name a)) 0)
           then mma_topic_name a else topic_name p.1)
    end in
  Some (if decide (token_size p.1 > 0)
        then ApplyTopicModelOperation K
               (RetrieveExternalTopicModel K p.1
                  (mkGetTopicModelArgs None None None [] [])) p.2 t
        else t).

Definition merged (reg : gmap string PhiMatrix) (a : MergeModelArgs)
  : option PhiMatrix :=
  fold_left (merge_source a)
    (present_sources reg (zip (mma_nwt_source_name a) (mma_source_weight a)))
    None.

Lemma merge_source_fold_Some a l t :
  is_Some (fold_left (merge_source a) l (Some t)).
Proof.
  revert t. induction l as [|p l IH]; intros t; simpl; [by eexists|].
  apply IH.
Qed.

Lemma merge_source_fold_None a l :
  fold_left (merge_source a) l None = None <-> l = [].
Proof.
  destruct l as [|p l]; simpl; [done|]. split; [|done].
  intros H. destruct (merge_source_fold_Some a l
    (match merge_source a None p with Some t => t | None => p.1 end)) as [t Ht].
  unfold merge_source in *. simpl in *. congruence.
Qed.

Lemma present_sources_nil reg l :
  present_sources reg l = [] <-> Forall (fun p => reg !! p.1 = None) l.
Proof.
  unfold present_sources. induction l as [|p l IH]; simpl.
  - split; [constructor|done].
  - destruct (reg !! p.1) eqn:E; simpl.
    + split; [done|]. intros H. inversion H; congruence.
    + rewrite IH. split; [by constructor|]. by inversion 1.
Qed.

Lemma merged_None reg a :
  length (mma_nwt_source_name a) = length (mma_source_weight a) ->
  merged reg a = None <->
  Forall (fun n => reg !! n = None) (mma_nwt_source_name a).
Proof.
  intros Hlen. unfold merged.
  rewrite merge_source_fold_None, present_sources_nil.
  rewrite <- (fst_zip (mma_nwt_source_name a) (mma_source_weight a)) at 2
    by lia.
  by rewrite Forall_fmap.
Qed.

Lemma MergeModel_loop a s n i acc :
  length (mma_nwt_source_name a) = length (mma_source_weight a) ->
  (i + n = length (mma_nwt_source_name a))%nat ->
  for_each (seq i n) (MergeModel_body a) acc s
  = (Ok (fold_left (merge_source a)
           (present_sources (models_ (world s))
              (drop i (zip (mma_nwt_source_name a) (mma_source_weight a))))
           acc), s).
Proof.
  intros Hlen. revert i acc. induction n as [|n IH]; intros i acc Hi; simpl.
  - rewrite drop_ge; [done|]. rewrite length_zip_with. lia.
  - destruct (lookup_lt_is_Some_2 (mma_nwt_source_name a) i) as [name Hn];
      [lia|].
    destruct (lookup_lt_is_Some_2 (mma_source_weight a) i) as [w Hw]; [lia|].
    assert (zip (mma_nwt_source_name a) (mma_source_weight a) !! i
            = Some (name, w)) as Hz.
    { rewrite lookup_zip_with, Hn. simpl. by rewrite Hw. }
    rewrite (drop_S _ _ _ Hz). simpl.
    unfold MergeModel_body at 1, bind at 1, bind at 1.
    rewrite Hn, Hw. unfold defined, ret, bind, GetPhiMatrix, gets. simpl.
    destruct (models_ (world s) !! name) as [n_wt|] eqn:E; simpl.
    + assert (merge_source a acc (n_wt, w)
              = Some (if decide (token_size n_wt > 0)
                      then ApplyTopicModelOperation K
                             (RetrieveExternalTopicModel K n_wt
                                (mkGetTopicModelArgs None None None [] [])) w
                             (match acc with
                              | Some t => t
                              | None =>
                                  DensePhiMatrix
                                    (str_or_empty (mma_nwt_target_name a))
                                    (if negb (Nat.eqb
                                                (length (mma_topic_name a)) 0)
                                     then mma_topic_name a
                                     else topic_name n_wt)
                              end)
                      else match acc with
                           | Some t => t
                           | None =>
                               DensePhiMatrix
                                 (str_or_empty (mma_nwt_target_name a))
                                 (if negb (Nat.eqb
                                             (length (mma_topic_name a)) 0)
                                  then mma_topic_name a
                                  else topic_name n_wt)
                           end)) as -> by reflexivity.
      destruct (decide (token_size n_wt > 0)); simpl; by rewrite IH by lia.
    + by rewrite IH by lia.
Qed.

(** C5 -- [MergeModel] throws InvalidOperation exactly when the lists of
    source names and of weights differ in length or no listed source is in
    the registry (an empty list of sources included); it then leaves the
    state as it was.  Otherwise the sources that are missing are skipped:
    the target is the merge of the sources that exist, in the order of the
    list, and it is registered under the target name. *)
Theorem MergeModel_InvalidOperation_iff (a : MergeModelArgs) (s : State) :
  let reg := models_ (world s) in
  let invalid :=
    length (mma_nwt_source_name a) ≠ length (mma_source_weight a)
    \/ Forall (fun n => reg !! n = None) (mma_nwt_source_name a) in
  (invalid -> MergeModel a s = (Throw InvalidOperation, s))
  /\ (~ invalid ->
      exists t,
        merged reg a = Some t
        /\ MergeModel a s
           = (Ok tt,
              mkState
                (with_models (insert (str_or_empty (mma_nwt_target_name a)) t)
                             (world s))
                (history s
                 ++ [EvSetPhiMatrix (str_or_empty (mma_nwt_target_name a)) t]))).
Proof.
  intros reg invalid. subst reg invalid. unfold MergeModel.
  destruct (decide (length (mma_nwt_source_name a) = 0%nat)) as [H0|H0].
  { split; [done|]. intros Hn. exfalso. apply Hn. right.
    destruct (mma_nwt_source_name a); [constructor|done]. }
  destruct (decide (length (mma_nwt_source_name a)
                    ≠ length (mma_source_weight a))) as [Hne|Heq].
  { split; [done|]. intros Hn. exfalso. apply Hn. by left. }
  assert (length (mma_nwt_source_name a) = length (mma_source_weight a))
    as Hlen by (destruct (decide (length (mma_nwt_source_name a)
       = length (mma_source_weight a))); [done|contradiction]).
  unfold bind. rewrite (MergeModel_loop a s _ 0 None Hlen) by lia.
  rewrite drop_0.
  pose proof (merged_None (models_ (world s)) a Hlen) as HN.
  unfold merged in HN |- *.
  destruct (fold_left _ _ _) as [t|] eqn:E.
  - split.
    + intros [Hd|Hall]; [contradiction|]. apply HN in Hall. discriminate.
    + intros _. exists t. split; [done|]. reflexivity.
  - split; [done|]. intros Hn. exfalso. apply Hn. right. by apply HN.
Qed.

(** ** The online iterator (C4) *)

Lemma to_int_small z : INT_MIN <= z <= INT_MAX -> to_int z = z.
Proof.
  unfold to_int, INT_MIN, INT_MAX. intros H.
  rewrite Z.mod_small by lia. lia.
Qed.

Lemma to_unsigned_small z : 0 <= z < 2 ^ 32 -> to_unsigned z = z.
Proof. unfold to_unsigned. intros H. by rewrite Z.mod_small by lia. Qed.

Lemma Get_lookup {A : Type} (l : list A) (i : Z) :
  0 <= i -> Get l i = l !! Z.to_nat i.
Proof. unfold Get. intros H. by destruct (decide (0 ≤ i)). Qed.

Lemma set_batches_set_batches f w f' w' a :
  set_batches f w (set_batches f' w' a) = set_batches f w a.
Proof. reflexivity. Qed.

(** The batches with indices in [first, last), in order. *)
Definition slice {A : Type} (first last : Z) (l : list A) : list A :=
  take (Z.to_nat (last - first)) (drop (Z.to_nat first) l).

Lemma add_batches_take it n : forall i a,
  0 <= i ->
  i + Z.of_nat n <= size (batch_filename_ it) ->
  i + Z.of_nat n <= size (batch_weight_ it) ->
  i + Z.of_nat n <= INT_MAX ->
  add_batches it i n a
  = Some (set_batches
            (pba_batch_filename a
             ++ take n (drop (Z.to_nat i) (batch_filename_ it)))
            (pba_batch_weight a
             ++ take n (drop (Z.to_nat i) (batch_weight_ it))) a).
Proof.
  unfold size, INT_MAX.
  induction n as [|n IH]; intros i a Hi Hf Hw Hmax; simpl.
  - rewrite !take_0, !app_nil_r. by destruct a.
  - rewrite to_int_small by (unfold INT_MIN, INT_MAX; lia).
    rewrite !Get_lookup by lia.
    destruct (lookup_lt_is_Some_2 (batch_filename_ it) (Z.to_nat i)) as [f Ef];
      [lia|].
    destruct (lookup_lt_is_Some_2 (batch_weight_ it) (Z.to_nat i)) as [w Ew];
      [lia|].
    rewrite Ef, Ew. simpl.
    rewrite to_unsigned_small by lia.
    rewrite IH by lia.
    rewrite (drop_S _ _ _ Ef), (drop_S _ _ _ Ew).
    replace (Z.to_nat (i + 1)) with (S (Z.to_nat i)) by lia.
    simpl. rewrite <- !app_assoc. reflexivity.
Qed.

(** The iterators that the source can hold and the specification allows:
    sizes are C++ [int]s, every entry of [update_after] is an index into
    (or the length of) the batch list, which has a weight for each batch,
    and the cursor is at most the length of [update_after]. *)
Definition valid_iterator (it : OnlineBatchesIterator) : Prop :=
  size (batch_filename_ it) <= INT_MAX
  /\ size (update_after_ it) <= INT_MAX
  /\ Forall (fun u => 0 <= u <= size (batch_filename_ it)
                      /\ u <= size (batch_weight_ it)) (update_after_ it)
  /\ 0 <= current_ it <= size (update_after_ it).

(** The bounds of the group at the cursor: [update_after[cursor - 1]]
    (0 for cursor 0) and [update_after[cursor]]. *)
Definition group_first (it : OnlineBatchesIterator) : Z :=
  if decide (current_ it = 0) then 0
  else default 0 (update_after_ it !! Z.to_nat (current_ it - 1)).
Definition group_last (it : OnlineBatchesIterator) : Z :=
  default 0 (update_after_ it !! Z.to_nat (current_ it)).

Lemma valid_iterator_entry it i u :
  valid_iterator it -> update_after_ it !! i = Some u ->
  0 <= u <= size (batch_filename_ it) /\ u <= size (batch_weight_ it).
Proof.
  intros (_ & _ & Hall & _) Hu.
  by apply (proj1 (Forall_lookup _ _) Hall i u).
Qed.

Lemma Online_move_out_of_range it args :
  valid_iterator it -> size (update_after_ it) <= current_ it ->
  move it args = Some (it, set_batches [] [] args).
Proof.
  intros (Hf & Hsz & _ & Hc) Hout. unfold INT_MAX in *.
  unfold move, Online_move.
  rewrite to_int_small by (unfold INT_MIN, INT_MAX; lia).
  destruct (decide _); [done|lia].
Qed.

Lemma Online_move_in_range it args :
  valid_iterator it -> current_ it < size (update_after_ it) ->
  move it args
  = Some (set_current (current_ it + 1) it,
          set_batches
            (slice (group_first it) (group_last it) (batch_filename_ it))
            (slice (group_first it) (group_last it) (batch_weight_ it)) args).
Proof.
  intros Hv Hin. pose proof Hv as (Hf & Hsz & _ & Hc). unfold INT_MAX in *.
  assert (0 <= size (batch_filename_ it)) by (unfold size; lia).
  unfold move, Online_move.
  rewrite (to_int_small (current_ it)) by (unfold INT_MIN, INT_MAX; lia).
  destruct (decide (current_ it >= size (update_after_ it))); [lia|].
  destruct (lookup_lt_is_Some_2 (update_after_ it) (Z.to_nat (current_ it)))
    as [last Hlast]; [unfold size in *; lia|].
  pose proof (valid_iterator_entry _ _ _ Hv Hlast) as [Hl1 Hl2].
  assert (0 <= group_first it <= size (batch_filename_ it)
          /\ (if decide (current_ it = 0) then Some 0
              else to_unsigned <$>
                     Get (update_after_ it)
                         (to_int (to_unsigned (current_ it - 1))))
             = Some (group_first it)) as [Hf1 ->].
  { unfold group_first. destruct (decide (current_ it = 0)) as [E0|E0].
    - split; [lia|done].
    - rewrite to_unsigned_small by lia.
      rewrite to_int_small by (unfold INT_MIN, INT_MAX; lia).
      rewrite Get_lookup by lia.
      destruct (lookup_lt_is_Some_2 (update_after_ it)
                  (Z.to_nat (current_ it - 1))) as [first Hfirst];
        [unfold size in *; lia|].
      pose proof (valid_iterator_entry _ _ _ Hv Hfirst) as [Hf1 Hf2].
      rewrite Hfirst. simpl. rewrite to_unsigned_small by lia.
      split; [lia|done]. }
  assert (group_last it = last) as Hgl by (unfold group_last; by rewrite Hlast).
  rewrite Get_lookup by lia. rewrite Hlast. simpl.
  rewrite (to_unsigned_small last) by lia.
  rewrite (to_unsigned_small (current_ it + 1)) by lia.
  destruct (decide (group_first it <= last)) as [Hle|Hgt].
  - rewrite add_batches_take; simpl; try lia; [by rewrite Hgl|unfold INT_MAX; lia].
  - replace (Z.to_nat (last - group_first it)) with 0%nat by lia.
    simpl. unfold slice. rewrite Hgl.
    replace (Z.to_nat (last - group_first it)) with 0%nat by lia.
    by rewrite !take_0.
Qed.

(** C4 -- [more()] is true exactly when the cursor is below the length of
    [update_after]; [move] first clears the batch lists of the arguments;
    with the cursor out of range it does nothing else; with the cursor in
    range it copies the file names and the weights with indices in
    [first, last), in order, where [last] is [update_after[cursor]] and
    [first] is [update_after[cursor - 1]] (0 for cursor 0), and adds one to
    the cursor. *)
Theorem OnlineBatchesIterator_more_move (it : OnlineBatchesIterator)
  (args : ProcessBatchesArgs) :
  valid_iterator it ->
  (more it = true <-> current_ it < size (update_after_ it))
  /\ (size (update_after_ it) <= current_ it ->
      move it args = Some (it, set_batches [] [] args))
  /\ (current_ it < size (update_after_ it) ->
      move it args
      = Some (set_current (current_ it + 1) it,
              set_batches
                (slice (group_first it) (group_last it) (batch_filename_ it))
                (slice (group_first it) (group_last it) (batch_weight_ it))
                args)).
Proof.
  intros Hv. split; [|split].
  - destruct Hv as (Hf & Hsz & _ & Hc). unfold INT_MAX in *.
    assert (0 <= size (update_after_ it)) by (unfold size; lia).
    unfold more. rewrite to_int_small by (unfold INT_MIN, INT_MAX; lia).
    rewrite to_unsigned_small by lia. apply bool_decide_eq_true.
  - by apply Online_move_out_of_range.
  - by apply Online_move_in_range.
Qed.


(** ** Export in chunks (C7) *)

(** What holds of the request under construction and of the chunks written
    when the loop of [ExportModel] is about to read the token [i]. *)
Definition export_inv (n_wt : PhiMatrix) (tpc : Z) (i : nat)
  (acc : GetTopicModelArgs * list GetTopicModelArgs) : Prop :=
  flat_map gtm_token acc.2 ++ gtm_token acc.1
  = keyword <$> take i (token n_wt)
  /\ flat_map gtm_class_id acc.2 ++ gtm_class_id acc.1
     = class_id <$> take i (token n_wt)
  /\ Forall (fun c => 1 <= size (gtm_token c) <= Z.max 1 tpc) acc.2
  /\ size (gtm_token acc.1) < Z.max 1 tpc
  /\ (i = length (token n_wt) ->
      gtm_token acc.1 = [] /\ gtm_class_id acc.1 = []).

Lemma ExportModel_body_inv n_wt tpc i acc :
  (i < length (token n_wt))%nat ->
  export_inv n_wt tpc i acc ->
  exists acc', ExportModel_body n_wt tpc i acc = Some acc'
               /\ export_inv n_wt tpc (S i) acc'.
Proof.
  intros Hi (Ht & Hc & Hall & Hp & _). destruct acc as [pending chunks].
  simpl in *. unfold ExportModel_body.
  destruct (lookup_lt_is_Some_2 (token n_wt) i Hi) as [t Et].
  rewrite Et. simpl.
  assert (size (gtm_token pending ++ [keyword t])
          = size (gtm_token pending) + 1) as Hsz.
  { unfold size. rewrite length_app. simpl. lia. }
  assert (0 <= size (gtm_token pending)) by (unfold size; lia).
  destruct (bool_decide (Z.of_nat i + 1 = token_size n_wt)
            || bool_decide (size (gtm_token pending ++ [keyword t]) >= tpc))
    eqn:Hflush.
  - eexists. split; [reflexivity|]. unfold export_inv. simpl.
    rewrite (take_S_r _ _ _ Et), !fmap_app. simpl.
    rewrite !flat_map_app. simpl. rewrite !app_nil_r.
    rewrite !app_assoc, Ht, Hc. repeat split; try done.
    + apply Forall_app. split; [done|]. constructor; [|constructor].
      simpl. rewrite Hsz. lia.
    + unfold size. simpl. lia.
  - apply orb_false_iff in Hflush as [Hlast Hfull].
    apply bool_decide_eq_false in Hlast, Hfull.
    eexists. split; [reflexivity|]. unfold export_inv. simpl.
    rewrite (take_S_r _ _ _ Et), !fmap_app. simpl.
    rewrite !app_assoc, Ht, Hc. repeat split; try done.
    + rewrite Hsz in *. lia.
    + unfold token_size in Hlast. lia.
    + unfold token_size in Hlast. lia.
Qed.

Lemma ExportModel_loop_inv n_wt tpc k : forall i acc,
  (i + k = length (token n_wt))%nat ->
  export_inv n_wt tpc i acc ->
  exists acc', ExportModel_loop n_wt tpc (seq i k) acc = Some acc'
               /\ export_inv n_wt tpc (length (token n_wt)) acc'.
Proof.
  induction k as [|k IH]; intros i acc Hik Hinv; simpl.
  - exists acc. split; [done|]. by replace (length (token n_wt)) with i by lia.
  - destruct (ExportModel_body_inv n_wt tpc i acc) as (acc' & -> & Hinv');
      [lia|done|].
    simpl. apply IH; [lia|done].
Qed.

(** C7, as the code has it -- for a matrix with at least one topic,
    [ExportModel] writes chunks whose lists of tokens (and of class ids),
    put end to end, are the tokens of the matrix in order, so that every
    token is in exactly one chunk; every chunk has at least one token and at
    most [max 1 (min token_size (100 MiB / topic_size))] tokens. *)
Theorem ExportModel_chunks_partition (model_name : string) (n_wt : PhiMatrix) :
  topic_size n_wt ≠ 0 ->
  exists chunks tpc,
    ExportModel_chunks model_name n_wt = Some chunks
    /\ tpc = Z.min (token_size n_wt)
                   ((100 * 1024 * 1024) `quot` topic_size n_wt)
    /\ flat_map gtm_token chunks = keyword <$> token n_wt
    /\ flat_map gtm_class_id chunks = class_id <$> token n_wt
    /\ Forall (fun c => 1 <= size (gtm_token c) <= Z.max 1 tpc) chunks.
Proof.
  intros Htopics. unfold ExportModel_chunks, tokens_per_chunk.
  destruct (decide (topic_size n_wt = 0)); [done|]. simpl.
  set (tpc := Z.min _ _).
  destruct (ExportModel_loop_inv n_wt tpc (Z.to_nat (token_size n_wt)) 0
              (mkGetTopicModelArgs (Some model_name) (Some RequestType_Nwt)
                 (Some MatrixLayout_Sparse) [] [], []))
    as ([pending chunks] & -> & Ht & Hc & Hall & _ & Hend).
  { unfold token_size. lia. }
  { unfold export_inv, size. simpl.
    repeat split; try done; try constructor. lia. }
  simpl in *. destruct Hend as [Hp Hpc]; [done|].
  rewrite Hp, app_nil_r in Ht. rewrite Hpc, app_nil_r in Hc.
  rewrite firstn_all in Ht, Hc.
  exists chunks, tpc. by repeat split.
Qed.

(** The file that [ExportModel] writes: the version byte 0, then the
    chunks in order, each as its decimal length and its bytes. *)
Lemma ExportModel_writes args s n_wt chunks :
  let name :=
    match config (world s), ema_model_name args with
    | Some c, None => pwt_name c
    | _, o => str_or_empty o
    end in
  files (world s) !! ema_file_name args = None ->
  can_create K (world s) (ema_file_name args) = true ->
  models_ (world s) !! name = Some n_wt ->
  token_size n_wt ≠ 0 ->
  ExportModel_chunks name n_wt = Some chunks ->
  ExportModel args s
  = (Ok tt,
     mkState
       (with_files
          (insert (ema_file_name args)
                  (x00 :: flat_map (chunk_bytes n_wt) chunks))
          (with_files (insert (ema_file_name args) []) (world s)))
       (history s)).
Proof.
  intros name Hfile Hcreate Hmodel Htokens Hchunks.
  unfold ExportModel. rewrite bind_gets. fold name. cbv zeta.
  rewrite bind_gets, Hfile.
  rewrite bool_decide_eq_false_2 by (by intros [? ?]). cbv iota.
  rewrite bind_gets, Hcreate. cbn [negb]. cbv iota.
  rewrite bind_modify.
  unfold GetPhiMatrixSafe, GetPhiMatrix, bind, gets, ret.
  cbn [world with_files models_]. rewrite Hmodel.
  destruct (decide (token_size n_wt = 0)); [done|].
  unfold defined, modify, ret.
  rewrite Hchunks. reflexivity.
Qed.

(** ** Import of a stream (C6) *)

(** The name under which [ImportModel] registers the matrix. *)
Definition import_model_name (w : World) (args : ImportModelArgs) : string :=
  match config w, ima_model_name args with
  | Some c, None => pwt_name c
  | _, o => str_or_empty o
  end.

(** The stream and the target after [k] chunks were read and applied, each
    without an exception and without reaching the end of the stream. *)
Fixpoint ImportModel_after (k : nat) (model_name : string) (fin : ifstream)
  (target : option PhiMatrix) : option (ifstream * option PhiMatrix) :=
  match k with
  | O => Some (fin, target)
  | S k' =>
      if eofbit fin then None
      else
        match ImportModel_body model_name fin target with
        | Continue fin' target' =>
            ImportModel_after k' model_name fin' (Some target')
        | _ => None
        end
  end.

Lemma ImportModel_loop_after k : forall model_name fin target fin' target' fuel,
  ImportModel_after k model_name fin target = Some (fin', target') ->
  ImportModel_loop (k + fuel) model_name fin target
  = ImportModel_loop fuel model_name fin' target'.
Proof.
  induction k as [|k IH]; intros model_name fin target fin' target' fuel H;
    simpl in *.
  - by inversion H.
  - destruct (eofbit fin); [done|].
    destruct (ImportModel_body model_name fin target); try done.
    by apply IH.
Qed.

(** [ImportModel] from the result of its loop. *)
Lemma ImportModel_eq fuel args s :
  ImportModel fuel args s
  = match files (world s) !! ima_file_name args with
    | None => (Throw DiskReadException, s)
    | Some bytes =>
        let '(version, fin) :=
          extract_char (indeterminate_char K) (mkIfstream bytes false false) in
        if negb (bool_decide (version = x00)) then (Throw DiskReadException, s)
        else
          match ImportModel_loop fuel (import_model_name (world s) args) fin
                                 None with
          | Ok None => (Throw CorruptedMessageException, s)
          | Ok (Some target) =>
              (Ok tt,
               mkState
                 (with_models
                    (insert (import_model_name (world s) args) target)
                    (world s))
                 (history s
                  ++ [EvSetPhiMatrix (import_model_name (world s) args)
                                     target]))
          | Fail f => (Fail f, s)
          end
    end.
Proof.
  unfold ImportModel, import_model_name, bind, gets. simpl.
  destruct (files (world s) !! ima_file_name args) as [bytes|]; [|done].
  destruct (extract_char _ _) as [version fin].
  destruct (negb (bool_decide (version = x00))); [done|].
  destruct (ImportModel_loop _ _ _ _) as [[t|]|f]; done.
Qed.

(** X19 -- whenever [ImportModel] fails it leaves the state, hence the
    registry, as it was; it registers the target only when the loop over
    the chunks has ended without an exception.  It throws CorruptedMessage
    when, after any number of chunks read and applied, the next length is
    read before the end of the stream and is not positive, or the next
    chunk does not parse, and when the stream ends before the first
    chunk. *)
Theorem ImportModel_corrupted (fuel : nat) (args : ImportModelArgs)
  (s : State) :
  let name := import_model_name (world s) args in
  (forall f s', ImportModel fuel args s = (Fail f, s') -> s' = s)
  /\ (forall s', ImportModel fuel args s = (Ok tt, s') ->
      exists bytes fin target,
        files (world s) !! ima_file_name args = Some bytes
        /\ extract_char (indeterminate_char K) (mkIfstream bytes false false)
           = (x00, fin)
        /\ ImportModel_loop fuel name fin None = Ok (Some target)
        /\ s' = mkState (with_models (insert name target) (world s))
                        (history s ++ [EvSetPhiMatrix name target]))
  /\ (forall bytes fin k fin' target' len fin'',
        files (world s) !! ima_file_name args = Some bytes ->
        extract_char (indeterminate_char K) (mkIfstream bytes false false)
        = (x00, fin) ->
        ImportModel_after k name fin None = Some (fin', target') ->
        (k < fuel)%nat ->
        eofbit fin' = false ->
        extract_int (indeterminate_int K) fin' = (len, fin'') ->
        (eofbit fin'' = false /\ len <= 0)
        \/ (eofbit fin'' = false
            /\ ParseFromArray K (read len fin'').1 = None)
        \/ (eofbit fin'' = true /\ k = 0%nat) ->
        ImportModel fuel args s = (Throw CorruptedMessageException, s)).
Proof.
  intros name. subst name. rewrite ImportModel_eq. split; [|split].
  - intros f s'.
    destruct (files (world s) !! ima_file_name args) as [bytes|];
      [|by inversion 1].
    destruct (extract_char _ _) as [version fin].
    destruct (negb (bool_decide (version = x00))); [by inversion 1|].
    destruct (ImportModel_loop _ _ _ _) as [[t|]|f']; by inversion 1.
  - intros s'.
    destruct (files (world s) !! ima_file_name args) as [bytes|];
      [|by inversion 1].
    destruct (extract_char _ _) as [version fin] eqn:Ec.
    destruct (bool_decide (version = x00)) eqn:Ev; simpl; [|by inversion 1].
    apply bool_decide_eq_true in Ev. subst version.
    destruct (ImportModel_loop _ _ _ _) as [[t|]|f'] eqn:El;
      inversion 1; subst.
    by exists bytes, fin, t.
  - intros bytes fin k fin' target' len fin'' -> -> Hafter Hk Heof Hint Hbad.
    simpl.
    replace fuel with (k + S (fuel - S k))%nat by lia.
    rewrite (ImportModel_loop_after _ _ _ _ _ _ _ Hafter). simpl.
    rewrite Heof. unfold ImportModel_body. rewrite Hint.
    destruct Hbad as [[He Hlen]|[[He Hparse]|[He ->]]]; rewrite He.
    + destruct (decide (len <= 0)); [done|lia].
    + destruct (decide (len <= 0)); [done|].
      destruct (read len fin'') as [buffer fin3]. simpl in Hparse.
      by rewrite Hparse.
    + simpl in Hafter. by inversion Hafter.
Qed.

(** ** What a computation adds to the log *)

(** [emits P m]: a run of [m] only adds events to the log, and all of them
    satisfy [P]. *)
Definition emits {A : Type} (P : Event -> Prop) (m : M A) : Prop :=
  forall s, exists l, history (m s).2 = history s ++ l /\ Forall P l.

Lemma emits_ret {A : Type} P (a : A) : emits P (ret a).
Proof. intros s. exists []. by rewrite app_nil_r. Qed.

Lemma emits_fail {A : Type} P (f : Failure) :
  emits P (fun s => (@Fail A f, s)).
Proof. intros s. exists []. by rewrite app_nil_r. Qed.

Lemma emits_pure {A : Type} P (r : State -> Res A) :
  emits P (fun s => (r s, s)).
Proof. intros s. exists []. by rewrite app_nil_r. Qed.

Lemma emits_gets {A : Type} P (f : World -> A) : emits P (gets f).
Proof. intros s. exists []. by rewrite app_nil_r. Qed.

Lemma emits_modify P (f : World -> World) : emits P (modify f).
Proof. intros s. exists []. by rewrite app_nil_r. Qed.

Lemma emits_defined {A : Type} P (o : option A) : emits P (defined o).
Proof. destruct o; [apply emits_ret|apply emits_fail]. Qed.

Lemma emits_log (P : Event -> Prop) e : P e -> emits P (log e).
Proof. intros H s. exists [e]. split; [done|]. by constructor. Qed.

Lemma emits_bind {A B : Type} P (m : M A) (k : A -> M B) :
  emits P m -> (forall a, emits P (k a)) -> emits P (bind m k).
Proof.
  intros Hm Hk s. destruct (Hm s) as (l1 & E1 & H1). unfold bind.
  destruct (m s) as [[a|f] s1]; simpl in *.
  - destruct (Hk a s1) as (l2 & E2 & H2). exists (l1 ++ l2).
    rewrite E2, E1, app_assoc. split; [done|]. by apply Forall_app.
  - by exists l1.
Qed.

Lemma emits_for_each {I A : Type} P (l : list I) (body : I -> A -> M A) :
  (forall i acc, emits P (body i acc)) ->
  forall acc, emits P (for_each l body acc).
Proof.
  intros Hb. induction l as [|i l IH]; intros acc; simpl.
  - apply emits_ret.
  - apply emits_bind; [apply Hb|apply IH].
Qed.

Lemma emits_mono {A : Type} (P Q : Event -> Prop) (m : M A) :
  (forall e, P e -> Q e) -> emits P m -> emits Q m.
Proof.
  intros HPQ Hm s. destruct (Hm s) as (l & E & H). exists l.
  split; [done|]. eapply Forall_impl; eauto.
Qed.

Lemma emits_run {A : Type} P (m : M A) s r s' :
  emits P m -> m s = (r, s') ->
  exists l, history s' = history s ++ l /\ Forall P l.
Proof. intros Hm E. specialize (Hm s). by rewrite E in Hm. Qed.

Ltac emits_step :=
  lazymatch goal with
  | |- emits _ (bind _ _) => apply emits_bind; [|intros ?]
  | |- emits _ (ret _) => apply emits_ret
  | |- emits _ (throw _) => apply emits_fail
  | |- emits _ undefined => apply emits_fail
  | |- emits _ out_of_fuel => apply emits_fail
  | |- emits _ (gets _) => apply emits_gets
  | |- emits _ (modify _) => apply emits_modify
  | |- emits _ (defined _) => apply emits_defined
  | |- emits _ (log _) => apply emits_log; simpl; try done
  | |- emits _ (for_each _ _ _) => apply emits_for_each; intros ? ?
  | |- emits _ (if ?c then _ else _) => destruct c
  | |- emits _ (match ?x with _ => _ end) => destruct x
  end.

(** The events that are no step of the executor: registry writes by
    [SetPhiMatrix] and pushes on the queue. *)
Definition is_step (e : Event) : bool :=
  match e with
  | EvSetPhiMatrix _ _ | EvPush _ => false
  | _ => true
  end.

Definition is_set (e : Event) : Prop :=
  match e with EvSetPhiMatrix _ _ => True | _ => False end.
Definition is_push (e : Event) : Prop :=
  match e with EvPush _ => True | _ => False end.
Definition no_step (e : Event) : Prop := is_step e = false.

Lemma steps_nil l : Forall no_step l -> filter is_step l = [].
Proof.
  induction 1 as [|e l He _ IH]; [done|]. simpl.
  unfold no_step in He. unfold filter. simpl. 
  destruct (decide (is_step e)) as [Hs|Hs]; [|exact IH].
  rewrite He in Hs. done.
Qed.

Lemma emits_GetPhiMatrix P name : emits P (GetPhiMatrix name).
Proof. unfold GetPhiMatrix. emits_step. Qed.

Lemma emits_GetPhiMatrixSafe P name : emits P (GetPhiMatrixSafe name).
Proof.
  unfold GetPhiMatrixSafe. emits_step; [apply emits_GetPhiMatrix|].
  repeat emits_step.
Qed.

Lemma emits_SetPhiMatrix name m : emits is_set (SetPhiMatrix name m).
Proof. unfold SetPhiMatrix. repeat emits_step. Qed.

Lemma emits_wait_until_processed P fuel h :
  emits P (wait_until_processed fuel h).
Proof.
  induction fuel as [|fuel IH]; simpl; unfold IsEverythingProcessed, sleep;
    repeat emits_step; exact IH.
Qed.

Lemma emits_MergeModel a : emits is_set (MergeModel a).
Proof.
  unfold MergeModel. repeat emits_step.
  - unfold MergeModel_body. repeat emits_step. apply emits_GetPhiMatrix.
  - apply emits_SetPhiMatrix.
Qed.

Lemma emits_RegularizeModel a : emits is_set (RegularizeModel a).
Proof.
  unfold RegularizeModel. repeat emits_step;
    first [apply emits_GetPhiMatrixSafe|apply emits_SetPhiMatrix].
Qed.

Lemma emits_NormalizeModel a : emits is_set (NormalizeModel a).
Proof.
  unfold NormalizeModel. repeat emits_step;
    first [apply emits_GetPhiMatrixSafe|apply emits_SetPhiMatrix].
Qed.

Lemma emits_ProcessBatches_prepare args async :
  emits is_set (ProcessBatches_prepare args async).
Proof.
  unfold ProcessBatches_prepare. repeat emits_step;
    first [apply emits_GetPhiMatrixSafe|apply emits_SetPhiMatrix].
Qed.

Lemma emits_ProcessBatches_enqueue args bm sm t p :
  emits is_push (ProcessBatches_enqueue args bm sm t p).
Proof.
  unfold ProcessBatches_enqueue, createProcessorInput, push, BatchManager_Add.
  repeat emits_step.
Qed.

Lemma emits_RequestProcessBatchesImpl fuel args bm async sm th :
  emits no_step (RequestProcessBatchesImpl fuel args bm async sm th).
Proof.
  unfold RequestProcessBatchesImpl. emits_step.
  { eapply emits_mono; [|apply emits_ProcessBatches_prepare]. by intros []. }
  emits_step. { unfold CacheManager_local. repeat emits_step. }
  emits_step. { unfold ProcessBatches_caches. repeat emits_step. }
  emits_step. emits_step.
  { eapply emits_mono; [|apply emits_ProcessBatches_enqueue]. by intros []. }
  emits_step; [emits_step|].
  emits_step; [apply emits_wait_until_processed|].
  unfold ProcessBatches_theta. repeat emits_step.
Qed.

(** ** ProcessBatches: the checks and the target matrix (C8, C9, C10) *)

(** The matrix that [ProcessBatches] installs under the target name. *)
Definition fresh_nwt (name : string) (p_wt : PhiMatrix) : PhiMatrix :=
  Reshape p_wt (DensePhiMatrix name (topic_name p_wt)).

Definition installed (name : string) (m : PhiMatrix) (s : State) : State :=
  mkState (with_models (insert name m) (world s))
          (history s ++ [EvSetPhiMatrix name m]).

Lemma fresh_nwt_zero name p_wt :
  model_name (fresh_nwt name p_wt) = name
  /\ topic_name (fresh_nwt name p_wt) = topic_name p_wt
  /\ token (fresh_nwt name p_wt) = token p_wt
  /\ length (values (fresh_nwt name p_wt)) = length (token p_wt)
  /\ Forall (fun row => row = repeat (float_zero K) (length (topic_name p_wt)))
            (values (fresh_nwt name p_wt)).
Proof.
  unfold fresh_nwt, Reshape. simpl. repeat split; try done.
  - by rewrite length_map.
  - apply Forall_forall. intros row Hin.
    apply list_elem_of_In, in_map_iff in Hin. by destruct Hin as (? & <- & _).
Qed.

Lemma ProcessBatches_prepare_eq args async s p_wt :
  processor_size (world s) > 0 ->
  models_ (world s) !! str_or_empty (pba_pwt_source_name args) = Some p_wt ->
  ProcessBatches_prepare args async s
  = let args' := set_topic_name (topic_name p_wt) args in
    let check s1 :=
      (if async
          && negb (bool_decide (theta_matrix_type args = ThetaMatrixType_None))
       then Throw InvalidOperation else Ok args', s1) in
    match pba_nwt_target_name args with
    | Some n =>
        if decide (n = str_or_empty (pba_pwt_source_name args))
        then (Throw InvalidOperation, s)
        else check (installed n (fresh_nwt n p_wt) s)
    | None => check s
    end.
Proof.
  intros Hp Hsrc. unfold ProcessBatches_prepare, bind, gets. simpl.
  destruct (decide (processor_size (world s) <= 0)) as [?|_]; [lia|].
  unfold GetPhiMatrixSafe, GetPhiMatrix, bind, gets. simpl. rewrite Hsrc.
  simpl. destruct (pba_nwt_target_name args) as [n|]; simpl.
  - destruct (decide (n = str_or_empty (pba_pwt_source_name args))); [done|].
    simpl. unfold theta_matrix_type. simpl.
    by destruct (async && _).
  - unfold theta_matrix_type. simpl. by destruct (async && _).
Qed.

(** C8 -- with [nwt_target] set to the name of the source matrix (a matrix
    of the registry), ProcessBatches throws InvalidOperation and changes
    nothing.  With [nwt_target] set to another name (and processors and the
    source matrix present) the part of the call before the enqueue loops
    installs under the target name a new matrix reshaped from the source,
    with nothing pushed on the queue yet; in the log of the whole call this
    write comes first and every push comes after it. *)
Theorem ProcessBatches_nwt_target (fuel : nat) (args : ProcessBatchesArgs)
  (bm : nat) (async : bool) (sm : option nat) (th : bool) (s : State)
  (n : string) (p_wt : PhiMatrix) :
  pba_nwt_target_name args = Some n ->
  models_ (world s) !! str_or_empty (pba_pwt_source_name args) = Some p_wt ->
  (n = str_or_empty (pba_pwt_source_name args) ->
   RequestProcessBatchesImpl fuel args bm async sm th s
   = (Throw InvalidOperation, s))
  /\ (n ≠ str_or_empty (pba_pwt_source_name args) ->
      processor_size (world s) > 0 ->
      let s1 := (ProcessBatches_prepare args async s).2 in
      let out := RequestProcessBatchesImpl fuel args bm async sm th s in
      models_ (world s1) !! n = Some (fresh_nwt n p_wt)
      /\ processor_queue (world s1) = processor_queue (world s)
      /\ history s1 = history s ++ [EvSetPhiMatrix n (fresh_nwt n p_wt)]
      /\ exists l,
           history out.2
           = history s ++ EvSetPhiMatrix n (fresh_nwt n p_wt) :: l
           /\ Forall (fun e => is_push e) l).
Proof.
  intros Hn Hsrc. split.
  - intros ->. unfold RequestProcessBatchesImpl.
    apply bind_fail. unfold ProcessBatches_prepare, bind, gets. simpl.
    destruct (decide (processor_size (world s) <= 0)); [done|].
    unfold GetPhiMatrixSafe, GetPhiMatrix, bind, gets. simpl. rewrite Hsrc.
    simpl. rewrite Hn. by destruct (decide _).
  - intros Hne Hp. simpl.
    rewrite (ProcessBatches_prepare_eq _ _ _ _ Hp Hsrc), Hn. simpl.
    destruct (decide (n = str_or_empty (pba_pwt_source_name args))); [done|].
    assert ((if async && negb (bool_decide (theta_matrix_type args
                                           = ThetaMatrixType_None))
             then Throw InvalidOperation
             else Ok (set_topic_name (topic_name p_wt) args),
             installed n (fresh_nwt n p_wt) s).2
            = installed n (fresh_nwt n p_wt) s) as -> by done.
    simpl. rewrite lookup_insert_eq. repeat split; try done.
    unfold RequestProcessBatchesImpl, bind at 1.
    rewrite (ProcessBatches_prepare_eq _ _ _ _ Hp Hsrc), Hn. simpl.
    destruct (decide (n = str_or_empty (pba_pwt_source_name args))); [done|].
    destruct (async && _); simpl.
    { exists []. by split. }
    match goal with |- context [bind ?m ?k (installed ?a ?b ?c)] =>
      assert (emits is_push (bind m k)) as Hem end.
    { emits_step. { unfold CacheManager_local. repeat emits_step. }
      emits_step. { unfold ProcessBatches_caches. repeat emits_step. }
      emits_step. emits_step. { apply emits_ProcessBatches_enqueue. }
      emits_step; [emits_step|].
      emits_step; [apply emits_wait_until_processed|].
      unfold ProcessBatches_theta. repeat emits_step. }
    destruct (Hem (installed n (fresh_nwt n p_wt) s)) as (l & -> & Hl).
    exists l. simpl. by rewrite <- app_assoc.
Qed.

(** ** ProcessBatches: the enqueue loops *)

(** The state [s] differs from [s0] by the tasks [tasks], all of the batch
    manager [bm]: they were pushed on the queue in this order and their ids
    were added to the manager, which held [ids0]. *)
Definition enqueued (bm : nat) (ids0 : gset uuid) (s0 : State)
  (tasks : list ProcessorInput) (s : State) : Prop :=
  processor_queue (world s) = processor_queue (world s0) ++ tasks
  /\ history s = history s0 ++ (EvPush <$> tasks)
  /\ batch_managers (world s) !! bm
     = Some (list_to_set (pi_task_id <$> tasks) ∪ ids0)
  /\ models_ (world s) = models_ (world s0)
  /\ Forall (fun pi => pi_batch_manager pi = bm) tasks.

Lemma enqueued_refl bm ids0 s0 :
  batch_managers (world s0) !! bm = Some ids0 -> enqueued bm ids0 s0 [] s0.
Proof.
  intros H. unfold enqueued. simpl. rewrite !app_nil_r, H.
  repeat split; try done. f_equal. set_solver.
Qed.

Lemma create_push_enqueued args bm sm t p name ids0 s0 tasks s
  (upd : ProcessorInput -> ProcessorInput) :
  (forall pi, pi_batch_manager (upd pi) = pi_batch_manager pi
              /\ pi_task_id (upd pi) = pi_task_id pi) ->
  enqueued bm ids0 s0 tasks s ->
  exists pi s',
    bind (createProcessorInput args bm sm t p name) (fun pi => push (upd pi)) s
    = (Ok tt, s')
    /\ enqueued bm ids0 s0 (tasks ++ [pi]) s'.
Proof.
  intros Hupd (Hq & Hh & Hb & Hm & Hall).
  unfold createProcessorInput, BatchManager_Add, push, bind, gets, modify, log,
    defined, ret. simpl. rewrite Hb. simpl.
  eexists _, _. split; [reflexivity|]. unfold enqueued. simpl.
  rewrite Hq, Hh, Hm, !fmap_app, <- !app_assoc. simpl.
  destruct (Hupd (mkProcessorInput (random_generator K (uuid_count (world s)))
    bm sm t p name args
    (if default false (pba_reuse_theta args) then Some InstanceCache else None)
    (pba_nwt_target_name args) None None None)) as [Hu1 Hu2].
  simpl in *. repeat split; try done.
  - rewrite list_lookup_insert_eq by (by eapply lookup_lt_Some).
    f_equal. rewrite Hu2. rewrite list_to_set_app_L. simpl. set_solver.
  - apply Forall_app. split; [done|]. by repeat constructor.
Qed.

Lemma enqueue_loop args bm sm t p name ids0 s0
  (body : nat -> unit -> M unit)
  (upd : nat -> ProcessorInput -> ProcessorInput) n : forall i tasks s,
  (forall j s1, (i <= j < i + n)%nat ->
     body j tt s1
     = bind (createProcessorInput args bm sm t p name)
            (fun pi => push (upd j pi)) s1) ->
  (forall j pi, pi_batch_manager (upd j pi) = pi_batch_manager pi
                /\ pi_task_id (upd j pi) = pi_task_id pi) ->
  enqueued bm ids0 s0 tasks s ->
  exists new s',
    for_each (seq i n) body tt s = (Ok tt, s')
    /\ length new = n
    /\ enqueued bm ids0 s0 (tasks ++ new) s'.
Proof.
  induction n as [|n IH]; intros i tasks s Hbody Hupd Hinv; simpl.
  - exists [], s. by rewrite app_nil_r.
  - destruct (create_push_enqueued args bm sm t p name ids0 s0 tasks s
                (upd i) (Hupd i) Hinv) as (pi & s1 & Hrun & Hinv1).
    unfold bind at 1. rewrite Hbody by lia. rewrite Hrun.
    destruct (IH (S i) (tasks ++ [pi]) s1) as (new & s' & Hloop & Hlen & Hinv');
      [intros; apply Hbody; lia|done|done|].
    exists (pi :: new), s'. rewrite Hloop. simpl.
    split; [done|]. split; [by rewrite Hlen|].
    by rewrite <- app_assoc in Hinv'.
Qed.

Lemma ProcessBatches_enqueue_ok args bm sm t p ids0 s :
  batch_managers (world s) !! bm = Some ids0 ->
  (length (pba_batch_filename args) <= length (pba_batch_weight args))%nat ->
  (length (pba_batch args) <= length (pba_batch_weight args))%nat ->
  exists tasks s',
    ProcessBatches_enqueue args bm sm t p s = (Ok tt, s')
    /\ length tasks
       = (length (pba_batch_filename args) + length (pba_batch args))%nat
    /\ enqueued bm ids0 s tasks s'.
Proof.
  intros Hbm Hf Hb. unfold ProcessBatches_enqueue.
  destruct (enqueue_loop args bm sm t p
              (str_or_empty (pba_pwt_source_name args)) ids0 s
              (fun batch_index (_ : unit) =>
                 let* pi := createProcessorInput args bm sm t p
                              (str_or_empty (pba_pwt_source_name args)) in
                 let* f := defined (pba_batch_filename args !! batch_index) in
                 let* w := defined (pba_batch_weight args !! batch_index) in
                 push (set_batch_filename f w pi))
              (fun j pi =>
                 match pba_batch_filename args !! j, pba_batch_weight args !! j
                 with
                 | Some f, Some w => set_batch_filename f w pi
                 | _, _ => pi
                 end)
              (length (pba_batch_filename args)) 0%nat [] s)
    as (new1 & s1 & Hrun1 & Hlen1 & Hinv1).
  { intros j s1 Hj.
    destruct (lookup_lt_is_Some_2 (pba_batch_filename args) j) as [f Ef];
      [lia|].
    destruct (lookup_lt_is_Some_2 (pba_batch_weight args) j) as [w Ew]; [lia|].
    rewrite Ef, Ew. unfold bind.
    by destruct (createProcessorInput _ _ _ _ _ _ s1) as [[pi|?] ?]. }
  { intros j pi.
    by destruct (pba_batch_filename args !! j), (pba_batch_weight args !! j). }
  { by apply enqueued_refl. }
  destruct (enqueue_loop args bm sm t p
              (str_or_empty (pba_pwt_source_name args)) ids0 s
              (fun batch_index (_ : unit) =>
                 let* pi := createProcessorInput args bm sm t p
                              (str_or_empty (pba_pwt_source_name args)) in
                 let* b := defined (pba_batch args !! batch_index) in
                 let* w := defined (pba_batch_weight args !! batch_index) in
                 push (set_batch b w pi))
              (fun j pi =>
                 match pba_batch args !! j, pba_batch_weight args !! j with
                 | Some b, Some w => set_batch b w pi
                 | _, _ => pi
                 end)
              (length (pba_batch args)) 0%nat ([] ++ new1) s1)
    as (new2 & s2 & Hrun2 & Hlen2 & Hinv2).
  { intros j s' Hj.
    destruct (lookup_lt_is_Some_2 (pba_batch args) j) as [b Eb]; [lia|].
    destruct (lookup_lt_is_Some_2 (pba_batch_weight args) j) as [w Ew]; [lia|].
    rewrite Eb, Ew. unfold bind.
    by destruct (createProcessorInput _ _ _ _ _ _ s') as [[pi|?] ?]. }
  { intros j pi.
    by destruct (pba_batch args !! j), (pba_batch_weight args !! j). }
  { done. }
  exists (new1 ++ new2), s2. unfold bind at 1. rewrite Hrun1, Hrun2.
  split; [done|]. split; [rewrite length_app; lia|done].
Qed.

(** ** Waiting for the workers (C2) *)

(** The shared memory after the workers ran during [k] idle intervals. *)
Definition after_intervals (k : nat) (w : World) : World :=
  Nat.iter k (worker K) w.

Lemma after_intervals_S k w :
  after_intervals k (worker K w) = after_intervals (S k) w.
Proof. unfold after_intervals. by rewrite Nat.iter_succ_r. Qed.

(** The task ids of the manager [h] are all processed in [w]. *)
Definition everything_processed (h : nat) (w : World) : Prop :=
  batch_managers w !! h = Some ∅.

(** Some task id of the manager [h] is outstanding in [w]. *)
Definition outstanding (h : nat) (w : World) : Prop :=
  exists ids, batch_managers w !! h = Some ids /\ ids ≠ ∅.

Lemma wait_until_processed_ok fuel h : forall s s',
  wait_until_processed fuel h s = (Ok tt, s') ->
  exists k, (k <= fuel)%nat
    /\ s' = mkState (after_intervals k (world s)) (history s)
    /\ everything_processed h (world s')
    /\ forall j, (j < k)%nat -> outstanding h (after_intervals j (world s)).
Proof.
  induction fuel as [|fuel IH]; intros s s' Hrun; simpl in Hrun;
    unfold IsEverythingProcessed, bind, gets, defined in Hrun; simpl in Hrun;
    destruct (batch_managers (world s) !! h) as [ids|] eqn:Eh;
    simpl in Hrun; try discriminate;
    destruct (bool_decide (ids = ∅)) eqn:Ed; simpl in Hrun;
    try discriminate.
  - apply bool_decide_eq_true in Ed. subst ids. injection Hrun as <-.
    exists 0%nat. repeat split; [lia|by destruct s|done|lia].
  - apply bool_decide_eq_true in Ed. subst ids. injection Hrun as <-.
    exists 0%nat. repeat split; [lia|by destruct s|done|lia].
  - apply bool_decide_eq_false in Ed.
    destruct (IH _ _ Hrun) as (k & Hk & -> & Hdone & Hout). simpl in *.
    exists (S k). rewrite after_intervals_S in *.
    repeat split; [lia|done|].
    intros [|j] Hj.
    + by exists ids.
    + rewrite <- after_intervals_S. apply Hout. lia.
Qed.

Lemma wait_until_processed_drained fuel h : forall k s,
  (k <= fuel)%nat ->
  everything_processed h (after_intervals k (world s)) ->
  (forall j, (j < k)%nat -> outstanding h (after_intervals j (world s))) ->
  wait_until_processed fuel h s
  = (Ok tt, mkState (after_intervals k (world s)) (history s)).
Proof.
  induction fuel as [|fuel IH]; intros k s Hk Hdone Hout.
  - assert (k = 0%nat) as -> by lia. simpl in *.
    unfold IsEverythingProcessed, bind, gets, defined. simpl.
    unfold everything_processed in Hdone. simpl in Hdone. rewrite Hdone.
    simpl. rewrite bool_decide_eq_true_2 by done. by destruct s.
  - destruct k as [|k].
    + simpl in *. unfold IsEverythingProcessed, bind, gets, defined. simpl.
      unfold everything_processed in Hdone. simpl in Hdone. rewrite Hdone.
      simpl. rewrite bool_decide_eq_true_2 by done. by destruct s.
    + destruct (Hout 0%nat) as (ids & Eh & Hne); [lia|]. simpl in Eh.
      simpl. unfold IsEverythingProcessed, bind at 1, bind at 1, gets, defined.
      simpl. rewrite Eh. simpl. rewrite bool_decide_eq_false_2 by done.
      unfold sleep, bind, modify. simpl.
      rewrite (IH k); simpl; rewrite ?after_intervals_S; try done; try lia.
      intros j Hj. rewrite after_intervals_S. apply Hout. lia.
Qed.

(** The part of [RequestProcessBatchesImpl] that comes before waiting: the
    checks, the target matrix, the local cache and the enqueue loops.  It
    returns the arguments and the local cache manager. *)
Definition ProcessBatches_submit (args : ProcessBatchesArgs)
  (batch_manager : nat) (async : bool) (score_manager : option nat)
  : M (ProcessBatchesArgs * nat) :=
  let* args := ProcessBatches_prepare args async in
  let* cache_manager := CacheManager_local in
  let* '(theta_ptr, ptdw_ptr) := ProcessBatches_caches args cache_manager in
  let* _ :=
    ProcessBatches_enqueue args batch_manager score_manager theta_ptr
                           ptdw_ptr in
  ret (args, cache_manager).

Lemma RequestProcessBatchesImpl_submit fuel args bm async sm th s :
  RequestProcessBatchesImpl fuel args bm async sm th s
  = bind (ProcessBatches_submit args bm async sm)
      (fun '(args, cache_manager) =>
         if async then ret (args, None)
         else
           let* _ := wait_until_processed fuel bm in
           let* theta := ProcessBatches_theta args cache_manager th in
           ret (args, theta)) s.
Proof.
  unfold RequestProcessBatchesImpl, ProcessBatches_submit, bind.
  destruct (ProcessBatches_prepare args async s) as [[args'|f] s1]; [|done].
  destruct (CacheManager_local s1) as [[cm|f] s2]; [|done].
  destruct (ProcessBatches_caches args' cm s2) as [[[t p]|f] s3]; [|done].
  destruct (ProcessBatches_enqueue args' bm sm t p s3) as [[[]|f] s4]; done.
Qed.

Lemma ProcessBatches_theta_state args cm th s :
  (ProcessBatches_theta args cm th s).2 = s.
Proof.
  unfold ProcessBatches_theta. destruct (th && _); [|done].
  unfold bind, gets, defined. simpl.
  by destruct (cache_managers (world s) !! cm).
Qed.

(** The request that assembles Theta for the arguments [args]: the layout
    follows the type of Theta matrix. *)
Definition theta_request (args : ProcessBatchesArgs) : GetThetaMatrixArgs :=
  match theta_matrix_type args with
  | ThetaMatrixType_Dense | ThetaMatrixType_DensePtdw =>
      mkGetThetaMatrixArgs (Some MatrixLayout_Dense)
  | ThetaMatrixType_Sparse | ThetaMatrixType_SparsePtdw =>
      mkGetThetaMatrixArgs (Some MatrixLayout_Sparse)
  | ThetaMatrixType_None | ThetaMatrixType_Cache => mkGetThetaMatrixArgs None
  end.

(** C2 -- a synchronous call of ProcessBatches that returns has waited:
    after the enqueue loops it polled the batch manager once per idle
    interval, found a task id outstanding at every poll but the last, and
    went on to assemble Theta only when the manager had no task id left,
    which still holds in the state it returns in.  The Theta matrix it
    returns, when one is asked for, is the one that the local cache manager
    gives in this last state, after the workers have run; otherwise it
    returns none. *)
Theorem ProcessBatches_sync_waits (fuel : nat) (args : ProcessBatchesArgs)
  (bm : nat) (sm : option nat) (th : bool) (s : State) :
  let out := RequestProcessBatchesImpl fuel args bm false sm th s in
  is_ok out.1 = true ->
  everything_processed bm (world out.2)
  /\ exists r s1 k,
       ProcessBatches_submit args bm false sm s = (Ok r, s1)
       /\ (k <= fuel)%nat
       /\ out.2 = mkState (after_intervals k (world s1)) (history s1)
       /\ (forall j, (j < k)%nat ->
             outstanding bm (after_intervals j (world s1)))
       /\ exists theta,
            out.1 = Ok (r.1, theta)
            /\ if th && bool_decide (is_Some (pba_theta_matrix_type r.1))
               then exists c,
                      cache_managers (after_intervals k (world s1)) !! r.2
                      = Some c
                      /\ theta
                         = Some (RequestThetaMatrix K (theta_request r.1) c)
               else theta = None.
Proof.
  intros out. unfold out. clear out.
  rewrite RequestProcessBatchesImpl_submit. unfold bind.
  destruct (ProcessBatches_submit args bm false sm s) as [[[args' cm]|f] s1];
    [|done].
  destruct (wait_until_processed fuel bm s1) as [[[]|f] s2] eqn:Hwait; [|done].
  destruct (wait_until_processed_ok _ _ _ _ Hwait) as (k & Hk & -> & Hd & Ho).
  unfold ProcessBatches_theta. cbn [fst snd].
  destruct (th && bool_decide (is_Some (pba_theta_matrix_type args')))
    eqn:Hth.
  - unfold bind, gets, defined, ret. cbn [world].
    destruct (cache_managers (after_intervals k (world s1)) !! cm)
      as [c|] eqn:Ec; [|done].
    intros _. split; [done|]. exists (args', cm), s1, k.
    repeat (split; [done|]). cbn [fst snd]. rewrite Hth.
    eexists. split; [reflexivity|]. exists c. split; [done|].
    unfold theta_request. by destruct (theta_matrix_type args').
  - intros _. split; [done|]. exists (args', cm), s1, k.
    repeat (split; [done|]). cbn [fst snd]. rewrite Hth. by eexists.
Qed.

(** X13 -- with enough polls, a synchronous call returns as soon as the
    workers have processed the tasks of its batch manager: when the
    manager is empty after [k] idle intervals and not before, the call
    returns in the state that the workers have made in these [k]
    intervals, without another poll. *)
Lemma ProcessBatches_sync_returns fuel args bm sm th s r s1 k :
  ProcessBatches_submit args bm false sm s = (Ok r, s1) ->
  (k <= fuel)%nat ->
  everything_processed bm (after_intervals k (world s1)) ->
  (forall j, (j < k)%nat -> outstanding bm (after_intervals j (world s1))) ->
  (th && bool_decide (is_Some (pba_theta_matrix_type r.1)) = true ->
   is_Some (cache_managers (after_intervals k (world s1)) !! r.2)) ->
  exists theta,
    RequestProcessBatchesImpl fuel args bm false sm th s
    = (Ok (r.1, theta),
       mkState (after_intervals k (world s1)) (history s1)).
Proof.
  intros Hsub Hk Hdone Hout Hcache.
  rewrite RequestProcessBatchesImpl_submit. unfold bind at 1.
  rewrite Hsub. destruct r as [args' cm]. unfold bind at 1.
  rewrite (wait_until_processed_drained fuel bm k s1 Hk Hdone Hout).
  unfold ProcessBatches_theta. simpl in *.
  destruct (th && _).
  - destruct Hcache as [c Ec]; [done|]. unfold bind, gets, defined. simpl.
    rewrite Ec. simpl. by eexists.
  - by eexists.
Qed.

(** C10 -- an asynchronous call with a Theta matrix type other than None
    and a target name other than the source throws InvalidOperation after
    the target matrix was installed: the exception leaves a registry in
    which the entry under the target name is the new matrix, reshaped from
    the source and with zero cells, whatever was there before. *)
Theorem ProcessBatches_async_theta_not_atomic (fuel : nat)
  (args : ProcessBatchesArgs) (bm : nat) (sm : option nat) (th : bool)
  (s : State) (n : string) (p_wt : PhiMatrix) :
  pba_nwt_target_name args = Some n ->
  n ≠ str_or_empty (pba_pwt_source_name args) ->
  models_ (world s) !! str_or_empty (pba_pwt_source_name args) = Some p_wt ->
  processor_size (world s) > 0 ->
  theta_matrix_type args ≠ ThetaMatrixType_None ->
  let out := RequestProcessBatchesImpl fuel args bm true sm th s in
  out = (Throw InvalidOperation, installed n (fresh_nwt n p_wt) s)
  /\ models_ (world out.2) = <[n := fresh_nwt n p_wt]> (models_ (world s))
  /\ models_ (world out.2) !! n = Some (fresh_nwt n p_wt)
  /\ token (fresh_nwt n p_wt) = token p_wt
  /\ Forall (fun row => row = repeat (float_zero K) (length (topic_name p_wt)))
            (values (fresh_nwt n p_wt)).
Proof.
  intros Hn Hne Hsrc Hp Htheta out.
  assert (out = (Throw InvalidOperation, installed n (fresh_nwt n p_wt) s))
    as Hout.
  { unfold out, RequestProcessBatchesImpl. apply bind_fail.
    rewrite (ProcessBatches_prepare_eq _ _ _ _ Hp Hsrc), Hn. simpl.
    destruct (decide (n = str_or_empty (pba_pwt_source_name args))); [done|].
    by rewrite bool_decide_eq_false_2. }
  rewrite Hout. simpl. rewrite lookup_insert_eq.
  destruct (fresh_nwt_zero n p_wt) as (_ & _ & Ht & _ & Hz).
  by repeat split.
Qed.

(** C9 -- an asynchronous call with a Theta matrix type other than None
    throws InvalidOperation.  An asynchronous call with the type None
    returns when the enqueue loops are done, whatever the bound on waiting:
    all the tasks of the call are then on the queue, behind those that were
    there, and their ids are outstanding in the batch manager. *)
Theorem ProcessBatches_async (args : ProcessBatchesArgs) (bm : nat)
  (sm : option nat) (th : bool) (s : State) (p_wt : PhiMatrix)
  (ids0 : gset uuid) :
  models_ (world s) !! str_or_empty (pba_pwt_source_name args) = Some p_wt ->
  (theta_matrix_type args ≠ ThetaMatrixType_None ->
   forall fuel,
     (RequestProcessBatchesImpl fuel args bm true sm th s).1
     = Throw InvalidOperation)
  /\ (theta_matrix_type args = ThetaMatrixType_None ->
      processor_size (world s) > 0 ->
      pba_nwt_target_name args ≠ Some (str_or_empty (pba_pwt_source_name args)) ->
      batch_managers (world s) !! bm = Some ids0 ->
      (length (pba_batch_filename args) <= length (pba_batch_weight args))%nat ->
      (length (pba_batch args) <= length (pba_batch_weight args))%nat ->
      exists tasks s',
        (forall fuel,
           RequestProcessBatchesImpl fuel args bm true sm th s
           = (Ok (set_topic_name (topic_name p_wt) args, None), s'))
        /\ length tasks
           = (length (pba_batch_filename args) + length (pba_batch args))%nat
        /\ processor_queue (world s') = processor_queue (world s) ++ tasks
        /\ Forall (fun pi => pi_batch_manager pi = bm) tasks
        /\ batch_managers (world s') !! bm
           = Some (list_to_set (pi_task_id <$> tasks) ∪ ids0)).
Proof.
  intros Hsrc. split.
  - intros Htheta fuel. unfold RequestProcessBatchesImpl, bind at 1.
    destruct (decide (processor_size (world s) <= 0)) as [Hp|Hp].
    { unfold ProcessBatches_prepare, bind, gets. simpl.
      by destruct (decide (processor_size (world s) <= 0)). }
    assert (processor_size (world s) > 0) as Hp' by lia.
    rewrite (ProcessBatches_prepare_eq _ _ _ _ Hp' Hsrc). simpl.
    rewrite bool_decide_eq_false_2 by done. simpl.
    destruct (pba_nwt_target_name args) as [n|]; [|done].
    by destruct (decide _).
  - intros Htheta Hp Hne Hbm Hf Hb.
    set (args' := set_topic_name (topic_name p_wt) args).
    set (s1 := match pba_nwt_target_name args with
               | Some n => installed n (fresh_nwt n p_wt) s
               | None => s
               end).
    assert (ProcessBatches_prepare args true s = (Ok args', s1)) as Hprep.
    { rewrite (ProcessBatches_prepare_eq _ _ _ _ Hp Hsrc). simpl.
      rewrite bool_decide_eq_true_2 by done. simpl. unfold s1.
      destruct (pba_nwt_target_name args) as [n|]; [|done].
      destruct (decide _); [congruence|done]. }
    set (s2 := mkState
                 (with_cache_managers (fun l => l ++ [CacheManager_new K])
                                      (world s1)) (history s1)).
    assert (batch_managers (world s2) !! bm = Some ids0) as Hbm2.
    { unfold s2, s1. simpl. by destruct (pba_nwt_target_name args). }
    destruct (ProcessBatches_enqueue_ok args' bm sm None None ids0 s2 Hbm2 Hf Hb)
      as (tasks & s' & Henq & Hlen & Hq & _ & Hids & _ & Hall).
    exists tasks, s'. split; [|split; [done|split; [|done]]].
    + intros fuel. unfold RequestProcessBatchesImpl, bind at 1.
      rewrite Hprep. unfold bind at 1, CacheManager_local, bind, gets, modify,
        ret. simpl. fold s2.
      unfold ProcessBatches_caches.
      assert (theta_matrix_type args' = ThetaMatrixType_None) as -> by done.
      unfold ret. by rewrite Henq.
    + rewrite Hq. unfold s2, s1. simpl.
      by destruct (pba_nwt_target_name args).
Qed.

(** ** The steps of a schedule, read off the log *)

(** [does view m E Q]: seen through [view], a run of [m] that returns adds
    exactly the events [E] to the log and returns a value that satisfies
    [Q]; a run that fails adds a prefix of [E]. *)
Definition does {A V : Type} (view : Event -> option V) (m : M A)
  (E : list V) (Q : A -> Prop) : Prop :=
  forall s, exists l,
    history (m s).2 = history s ++ l
    /\ match (m s).1 with
       | Ok a => omap view l = E /\ Q a
       | Fail _ => omap view l `prefix_of` E
       end.

Section Does.
Context {V : Type} (view : Event -> option V).

Lemma does_ret {A : Type} (a : A) (Q : A -> Prop) :
  Q a -> does view (ret a) [] Q.
Proof. intros H s. exists []. simpl. by rewrite app_nil_r. Qed.

Lemma does_fail {A : Type} (f : Failure) E (Q : A -> Prop) :
  does view (fun s => (Fail f, s)) E Q.
Proof.
  intros s. exists []. simpl. rewrite app_nil_r. split; [done|].
  apply prefix_nil.
Qed.

Lemma does_defined {A : Type} (o : option A) :
  does view (defined o) [] (fun a => o = Some a).
Proof. destruct o; [by apply does_ret|apply does_fail]. Qed.

Lemma does_log_Some e v :
  view e = Some v -> does view (log e) [v] (fun _ => True).
Proof.
  intros H s. exists [e]. split; [done|]. simpl.
  change (omap view [e]) with (match view e with
                               | Some y => y :: omap view []
                               | None => omap view []
                               end).
  by rewrite H.
Qed.

Lemma does_log_None e :
  view e = None -> does view (log e) [] (fun _ => True).
Proof.
  intros H s. exists [e]. split; [done|]. simpl.
  change (omap view [e]) with (match view e with
                               | Some y => y :: omap view []
                               | None => omap view []
                               end).
  by rewrite H.
Qed.

Lemma does_emits {A : Type} (P : Event -> Prop) (m : M A) :
  emits P m -> (forall e, P e -> view e = None) ->
  does view m [] (fun _ => True).
Proof.
  intros Hm HP s. destruct (Hm s) as (l & E & Hl). exists l.
  split; [done|].
  assert (omap view l = []) as ->.
  { clear E. induction Hl as [|e l He _ IH]; [done|].
    change (omap view (e :: l)) with (match view e with
                                      | Some y => y :: omap view l
                                      | None => omap view l
                                      end).
    by rewrite (HP e He). }
  destruct (m s).1; [done|apply prefix_nil].
Qed.

Lemma does_weaken {A : Type} (m : M A) E (Q Q' : A -> Prop) :
  does view m E Q -> (forall a, Q a -> Q' a) -> does view m E Q'.
Proof.
  intros Hm HQ s. destruct (Hm s) as (l & E1 & H). exists l.
  split; [done|]. destruct (m s).1; [|done]. destruct H. auto.
Qed.

Lemma does_bind {A B : Type} (m : M A) (k : A -> M B) E1 E2
  (Q1 : A -> Prop) (Q2 : B -> Prop) :
  does view m E1 Q1 ->
  (forall a, Q1 a -> does view (k a) E2 Q2) ->
  does view (bind m k) (E1 ++ E2) Q2.
Proof.
  intros Hm Hk s. destruct (Hm s) as (l1 & H1 & R1). unfold bind.
  destruct (m s) as [[a|f] s1]; simpl in *.
  - destruct R1 as [R1 HQ]. destruct (Hk a HQ s1) as (l2 & H2 & R2).
    exists (l1 ++ l2). rewrite H2, H1, app_assoc. split; [done|].
    rewrite omap_app, R1. destruct (k a s1).1.
    + destruct R2 as [-> ?]. done.
    + by apply prefix_app.
  - exists l1. split; [done|]. by apply prefix_app_r.
Qed.

Lemma does_bind_nil {A B : Type} (m : M A) (k : A -> M B) E
  (Q1 : A -> Prop) (Q2 : B -> Prop) :
  does view m [] Q1 ->
  (forall a, Q1 a -> does view (k a) E Q2) ->
  does view (bind m k) E Q2.
Proof. intros Hm Hk. by apply (does_bind m k [] E Q1 Q2). Qed.

Lemma does_bind_cons {A B : Type} (m : M A) (k : A -> M B) v E
  (Q1 : A -> Prop) (Q2 : B -> Prop) :
  does view m [v] Q1 ->
  (forall a, Q1 a -> does view (k a) E Q2) ->
  does view (bind m k) (v :: E) Q2.
Proof. intros Hm Hk. by apply (does_bind m k [v] E Q1 Q2). Qed.

Lemma does_run {A : Type} (m : M A) E (Q : A -> Prop) s :
  does view m E Q ->
  exists l, history (m s).2 = history s ++ l
    /\ omap view l `prefix_of` E
    /\ (is_ok (m s).1 = true -> omap view l = E).
Proof.
  intros Hm. destruct (Hm s) as (l & H & R). exists l. split; [done|].
  destruct (m s).1; simpl.
  - destruct R as [-> _]. done.
  - split; [done|discriminate].
Qed.

End Does.

(** ** The offline schedule (C3) *)

(** The log restricted to the steps of the executor. *)
Definition step_view (e : Event) : option Event :=
  if is_step e then Some e else None.

Lemma no_step_view e : no_step e -> step_view e = None.
Proof. unfold no_step, step_view. by intros ->. Qed.

Lemma is_set_view e : is_set e -> step_view e = None.
Proof. by destruct e. Qed.

(** The steps of one pass of the offline schedule with the score manager
    [sm]: the construction of the score manager, ProcessBatches from [pwt]
    into [nwt] over all the batches of the iterator, Regularize, Normalize,
    and the snapshot of the scores. *)
Definition pass_steps (c : MasterModelConfig) (iter : OfflineBatchesIterator)
  (sm : nat) : list Event :=
  [ EvNewScoreManager sm;
    EvProcessBatches (pwt_name c) (nwt_name c) (off_batch_filename_ iter)
                     (off_batch_weight_ iter) sm;
    EvRegularize (pwt_name c) (nwt_name c) "rwt";
    EvNormalize (pwt_name c) (nwt_name c) "rwt";
    EvStoreScores sm ].

(** What the executor keeps from one step to the next. *)
Definition same_config (ex ex' : ArtmExecutor) : Prop :=
  master_model_config_ ex' = master_model_config_ ex
  /\ rma_regularizer_settings (regularize_model_args_ ex')
     = rma_regularizer_settings (regularize_model_args_ ex)
  /\ async_ ex' = async_ ex.

Lemma does_BatchManager_new {V : Type} (view : Event -> option V) :
  does view BatchManager_new [] (fun _ => True).
Proof.
  apply (does_emits view (fun _ => False)); [|done].
  unfold BatchManager_new. repeat emits_step.
Qed.

Lemma does_ProcessBatches_offline fuel ex pwt nwt iter sm :
  does step_view (ProcessBatches fuel ex pwt nwt iter sm)
    [EvProcessBatches pwt nwt (off_batch_filename_ iter)
                      (off_batch_weight_ iter) sm]
    (fun r => same_config ex r.1 /\ r.2 = iter).
Proof.
  unfold ProcessBatches.
  eapply does_bind_nil; [apply does_defined|]. intros [iter' args] Hm.
  unfold move, Offline_move in Hm. injection Hm as <- <-.
  eapply does_bind_nil; [apply does_BatchManager_new|]. intros bm _.
  eapply does_bind_cons; [by apply does_log_Some|]. intros _ _.
  rewrite <- (app_nil_r []).
  eapply does_bind.
  { eapply does_emits; [apply emits_RequestProcessBatchesImpl|].
    apply no_step_view. }
  intros [args' theta] _. by apply does_ret.
Qed.

Lemma does_Regularize ex pwt nwt rwt :
  does step_view (Regularize ex pwt nwt rwt) [EvRegularize pwt nwt rwt]
       (same_config ex).
Proof.
  unfold Regularize.
  eapply does_bind_cons; [by apply does_log_Some|]. intros _ _.
  destruct (decide _).
  - eapply does_bind_nil.
    { eapply does_emits; [apply emits_RegularizeModel|apply is_set_view]. }
    intros _ _. by apply does_ret.
  - by apply does_ret.
Qed.

Lemma does_Normalize ex pwt nwt rwt :
  does step_view (Normalize ex pwt nwt rwt) [EvNormalize pwt nwt rwt]
       (fun _ => True).
Proof.
  unfold Normalize.
  eapply does_bind_cons; [by apply does_log_Some|]. intros _ _.
  eapply does_emits; [apply emits_NormalizeModel|apply is_set_view].
Qed.

Lemma does_StoreScores sm :
  does step_view (StoreScores sm) [EvStoreScores sm] (fun _ => True).
Proof.
  unfold StoreScores.
  eapply does_bind_cons; [by apply does_log_Some|]. intros _ _.
  apply (does_emits step_view (fun _ => False)); [|done].
  repeat emits_step.
Qed.

Lemma does_Dispose name :
  does step_view (Dispose name) [EvDisposeModel name] (fun _ => True).
Proof.
  unfold Dispose, DisposeModel.
  eapply does_bind_cons; [by apply does_log_Some|]. intros _ _.
  apply (does_emits step_view (fun _ => False)); [|done]. emits_step.
Qed.

Lemma does_ClearScoreCache :
  does step_view ClearScoreCache [EvClearScoreCache] (fun _ => True).
Proof.
  unfold ClearScoreCache.
  eapply does_bind_cons; [by apply does_log_Some|]. intros _ _.
  apply (does_emits step_view (fun _ => False)); [|done]. emits_step.
Qed.

(** One pass, once its score manager is constructed. *)
Lemma does_pass_rest fuel ex iter sm :
  does step_view
    (let* '(ex, iter) :=
       ProcessBatches fuel ex (pwt_name_ ex) (nwt_name_ ex) iter sm in
     let* ex := Regularize ex (pwt_name_ ex) (nwt_name_ ex) rwt_name in
     let* _ := Normalize ex (pwt_name_ ex) (nwt_name_ ex) rwt_name in
     let* _ := StoreScores sm in
     ret (ex, iter))
    (tail (pass_steps (master_model_config_ ex) iter sm))
    (fun r => same_config ex r.1 /\ r.2 = iter).
Proof.
  simpl. eapply does_bind_cons; [apply does_ProcessBatches_offline|].
  intros [ex1 iter1] [(Hc1 & Hr1 & Ha1) Hi]. simpl in *. subst iter1.
  unfold pwt_name_, nwt_name_. rewrite Hc1.
  eapply does_bind_cons; [apply does_Regularize|].
  intros ex2 (Hc2 & Hr2 & Ha2). rewrite Hc2, Hc1.
  eapply does_bind_cons; [apply does_Normalize|]. intros _ _.
  eapply does_bind_cons; [apply does_StoreScores|]. intros _ _.
  apply does_ret. simpl. unfold same_config. split; [|done].
  repeat split; congruence.
Qed.

Lemma ScoreManager_local_eq s :
  ScoreManager_local s
  = (Ok (length (score_managers (world s))),
     mkState (with_score_managers (fun l => l ++ [ScoreManager_new K])
                                  (world s))
             (history s
              ++ [EvNewScoreManager (length (score_managers (world s)))])).
Proof. reflexivity. Qed.

Lemma omap_step_view_cons e l :
  is_step e = true -> omap step_view (e :: l) = e :: omap step_view l.
Proof.
  intros H.
  change (omap step_view (e :: l))
    with (match step_view e with
          | Some y => y :: omap step_view l
          | None => omap step_view l
          end).
  unfold step_view. by rewrite H.
Qed.

Lemma ExecuteOfflineAlgorithm_pass_steps fuel ex iter s :
  let out := ExecuteOfflineAlgorithm_pass fuel (ex, iter) s in
  exists l sm,
    history out.2 = history s ++ l
    /\ match out.1 with
       | Ok r =>
           omap step_view l = pass_steps (master_model_config_ ex) iter sm
           /\ same_config ex r.1 /\ r.2 = iter
       | Fail _ =>
           omap step_view l
             `prefix_of` pass_steps (master_model_config_ ex) iter sm
       end.
Proof.
  intros out.
  set (sm := length (score_managers (world s))).
  set (s1 := mkState
               (with_score_managers (fun l => l ++ [ScoreManager_new K])
                                    (world s))
               (history s ++ [EvNewScoreManager sm])).
  destruct (does_pass_rest fuel ex iter sm s1) as (l & Hh & Hr).
  match type of Hh with context [(?m s1).2] =>
    assert (out = m s1) as -> by reflexivity
  end.
  exists (EvNewScoreManager sm :: l), sm. rewrite Hh.
  split; [unfold s1; simpl; by rewrite <- app_assoc|].
  match goal with |- context [(?m s1).1] => destruct (m s1).1 as [r|f] end.
  - destruct Hr as (Hl & Hr). split; [|done].
    rewrite omap_step_view_cons by done. by rewrite Hl.
  - rewrite omap_step_view_cons by done. by apply prefix_cons.
Qed.

Lemma for_each_cons {I A : Type} (i : I) (l : list I) (body : I -> A -> M A)
  (acc : A) s :
  for_each (i :: l) body acc s
  = match body i acc s with
    | (Ok a, s') => for_each l body a s'
    | (Fail f, s') => (Fail f, s')
    end.
Proof. reflexivity. Qed.

Lemma ExecuteOfflineAlgorithm_loop_steps fuel (ids : list nat) :
  forall ex iter s,
  let out :=
    for_each ids (fun _ st => ExecuteOfflineAlgorithm_pass fuel st) (ex, iter)
             s in
  exists l sms,
    history out.2 = history s ++ l
    /\ match out.1 with
       | Ok r =>
           omap step_view l
           = flat_map (pass_steps (master_model_config_ ex) iter) sms
           /\ length sms = length ids
           /\ same_config ex r.1 /\ r.2 = iter
       | Fail _ =>
           omap step_view l
             `prefix_of`
             flat_map (pass_steps (master_model_config_ ex) iter) sms
       end.
Proof.
  induction ids as [|i ids IH]; intros ex iter s.
  - exists [], []. simpl. rewrite app_nil_r. by repeat split.
  - destruct (ExecuteOfflineAlgorithm_pass_steps fuel ex iter s)
      as (l1 & sm & Hh1 & Hr1).
    cbv zeta. rewrite for_each_cons.
    destruct (ExecuteOfflineAlgorithm_pass fuel (ex, iter) s)
      as [[[ex1 iter1]|f] s1]; cbn [fst snd] in *.
    + destruct Hr1 as (Hl1 & Hc1 & ->).
      destruct (IH ex1 iter s1) as (l2 & sms & Hh2 & Hr2).
      exists (l1 ++ l2), (sm :: sms). rewrite Hh2, Hh1, app_assoc.
      split; [done|]. rewrite omap_app, Hl1.
      destruct Hc1 as (Hc1 & Hs1 & Ha1). rewrite Hc1 in Hr2.
      destruct (for_each ids _ (ex1, iter) s1).1 as [r|f].
      * destruct Hr2 as (-> & Hlen & (Hc2 & Hs2 & Ha2) & Hi).
        repeat split; try done; try congruence. simpl. by rewrite Hlen.
      * by apply (prefix_app (pass_steps (master_model_config_ ex) iter sm)).
    + exists l1, [sm]. split; [done|]. cbn [flat_map]. by rewrite app_nil_r.
Qed.

(** The steps of the offline schedule for the score managers [sms], one for
    each pass. *)
Definition offline_steps (c : MasterModelConfig)
  (iter : OfflineBatchesIterator) (sms : list nat) : list Event :=
  EvClearScoreCache :: flat_map (pass_steps c iter) sms
  ++ [EvDisposeModel "rwt"].

(** When no regularizer is configured, the step Regularize only logs its
    call and Normalize is run without [rwt]. *)
Lemma Regularize_without_regularizers ex pwt nwt rwt s :
  rma_regularizer_settings (regularize_model_args_ ex) = [] ->
  Regularize ex pwt nwt rwt s
  = (Ok ex, mkState (world s) (history s ++ [EvRegularize pwt nwt rwt]))
  /\ Normalize ex pwt nwt rwt s
     = NormalizeModel (mkNormalizeModelArgs (Some pwt) (Some nwt) None)
         (mkState (world s) (history s ++ [EvNormalize pwt nwt rwt])).
Proof. intros H. unfold Regularize, Normalize. by rewrite H. Qed.

(** ** The asynchronous online schedule (C1) *)

(** What the iterator emits at its cursor does not depend on the arguments
    it is given. *)
Definition blank_args : ProcessBatchesArgs :=
  mkProcessBatchesArgs None None None [] [] [] [] None [] [] [] [] None None.

Lemma add_batches_any_args it n : forall i a,
  add_batches it i n a
  = (fun b => set_batches (pba_batch_filename a ++ pba_batch_filename b)
                          (pba_batch_weight a ++ pba_batch_weight b) a)
    <$> add_batches it i n blank_args.
Proof.
  induction n as [|n IH]; intros i a; simpl.
  - rewrite !app_nil_r. by destruct a.
  - destruct (Get (batch_filename_ it) (to_int i)) as [f|]; [|done].
    destruct (Get (batch_weight_ it) (to_int i)) as [w|]; [|done]. simpl.
    rewrite (IH _ (add_batch f w a)), (IH _ (add_batch f w blank_args)).
    destruct (add_batches it (to_unsigned (i + 1)) n blank_args) as [b|];
      [|done].
    simpl. unfold add_batch.
    by rewrite set_batches_set_batches, <- !app_assoc.
Qed.

(** The batch file names and weights that [move] emits at the cursor. *)
Definition group (it : OnlineBatchesIterator) : list string * list float :=
  match move it blank_args with
  | Some (_, a) => (pba_batch_filename a, pba_batch_weight a)
  | None => ([], [])
  end.

(** The cursor after [move]. *)
Definition next_cursor (it : OnlineBatchesIterator) : Z :=
  if decide (to_int (current_ it) >= size (update_after_ it))
  then current_ it else to_unsigned (current_ it + 1).

Lemma Online_move_any_args it a it' a' :
  move it a = Some (it', a') ->
  it' = set_current (next_cursor it) it
  /\ a' = set_batches (group it).1 (group it).2 a.
Proof.
  unfold group, next_cursor, move, Online_move.
  destruct (decide (to_int (current_ it) >= size (update_after_ it))).
  { intros [= <- <-]. split; [by destruct it|done]. }
  destruct (if decide (current_ it = 0) then Some 0 else _) as [first|];
    [|done].
  simpl.
  destruct (Get (update_after_ it) (to_int (current_ it))) as [last|]; [|done].
  simpl.
  rewrite (add_batches_any_args _ _ _ (set_batches [] [] a)).
  change (set_batches [] [] blank_args) with blank_args.
  destruct (add_batches it first _ blank_args) as [b|]; [|done].
  simpl. by intros [= <- <-].
Qed.

(** The log restricted to the launches of asynchronous operations, the
    waits and the merges.  A merge is shown with the weights it was given. *)
Inductive Sched : Type :=
  | Launch (operation_id : Z) (nwt_hat : string) (batch_filename : list string)
      (batch_weight : list float)
  | Awaited (operation_id : Z)
  | Merged (nwt : string) (decay_weight : option float) (nwt_hat : string)
      (apply_weight : option float).

Definition sched_view (e : Event) : option Sched :=
  match e with
  | EvAsyncProcessBatches op _ nwt f w => Some (Launch op nwt f w)
  | EvAwait op => Some (Awaited op)
  | EvMerge nwt d nwt_hat a => Some (Merged nwt (Some d) nwt_hat (Some a))
  | _ => None
  end.

Definition no_sched (e : Event) : Prop := sched_view e = None.

Lemma is_set_no_sched e : is_set e -> sched_view e = None.
Proof. by destruct e. Qed.

Lemma no_step_no_sched e : no_step e -> sched_view e = None.
Proof. by destruct e. Qed.

Lemma does_AsyncProcessBatches ex pwt nwt (iter : OnlineBatchesIterator) :
  does sched_view (AsyncProcessBatches ex pwt nwt iter)
    [Launch (to_int (size (async_ ex))) nwt (group iter).1 (group iter).2]
    (fun r => r.1.1 = to_int (size (async_ ex))
              /\ master_model_config_ r.1.2 = master_model_config_ ex
              /\ length (async_ r.1.2) = S (length (async_ ex))
              /\ r.2 = set_current (next_cursor iter) iter).
Proof.
  unfold AsyncProcessBatches.
  eapply does_bind_nil; [apply does_defined|]. intros [iter' args] Hm.
  apply Online_move_any_args in Hm as [-> ->].
  eapply does_bind_nil; [apply does_BatchManager_new|]. intros bm _.
  eapply does_bind_cons; [by apply does_log_Some|]. intros _ _.
  rewrite <- (app_nil_r []).
  eapply does_bind.
  { eapply does_emits; [apply emits_RequestProcessBatchesImpl|].
    apply no_step_no_sched. }
  intros [args' theta] _. apply does_ret. simpl.
  repeat split; try done. rewrite length_app. simpl. lia.
Qed.

Lemma does_Await fuel ex op :
  does sched_view (Await fuel ex op) [Awaited op] (fun _ => True).
Proof.
  unfold Await.
  eapply does_bind_cons; [by apply does_log_Some|]. intros _ _.
  apply (does_emits sched_view (fun _ => False)); [|done].
  emits_step; [emits_step|]. apply emits_wait_until_processed.
Qed.

Lemma does_Merge nwt d nwt_hat a :
  does sched_view (Merge nwt d nwt_hat a)
       [Merged nwt (Some d) nwt_hat (Some a)] (fun _ => True).
Proof.
  unfold Merge.
  eapply does_bind_cons; [by apply does_log_Some|]. intros _ _.
  eapply does_emits; [apply emits_MergeModel|apply is_set_no_sched].
Qed.

Lemma does_Dispose_sched name :
  does sched_view (Dispose name) [] (fun _ => True).
Proof.
  apply (does_emits sched_view no_sched); [|done].
  unfold Dispose, DisposeModel. repeat emits_step.
Qed.

Lemma does_Regularize_sched ex pwt nwt rwt :
  does sched_view (Regularize ex pwt nwt rwt) []
       (fun ex' => master_model_config_ ex' = master_model_config_ ex
                   /\ async_ ex' = async_ ex).
Proof.
  unfold Regularize.
  eapply does_bind_nil; [by apply does_log_None|]. intros _ _.
  destruct (decide _).
  - eapply does_bind_nil.
    { eapply does_emits; [apply emits_RegularizeModel|apply is_set_no_sched]. }
    intros _ _. by apply does_ret.
  - by apply does_ret.
Qed.

Lemma does_Normalize_sched ex pwt nwt rwt :
  does sched_view (Normalize ex pwt nwt rwt) [] (fun _ => True).
Proof.
  unfold Normalize.
  eapply does_bind_nil; [by apply does_log_None|]. intros _ _.
  eapply does_emits; [apply emits_NormalizeModel|apply is_set_no_sched].
Qed.

Section AsyncSchedule.

(** The iterator that [FitOnline] builds (cursor 0), the configuration, and
    the number of update groups, which fits in a C++ [int]. *)
Variable it0 : OnlineBatchesIterator.
Variable c : MasterModelConfig.
Hypothesis it0_cursor : current_ it0 = 0.
Hypothesis it0_size : size (update_after_ it0) <= INT_MAX.

Let groups : nat := length (update_after_ it0).

(** The name of the matrix that the operation [k] fills. *)
Definition nwt_hat_name (k : nat) : string :=
  "nwt_hat" +:+ pretty (Z.of_nat k).

(** The update group [k] of the iterator: what [move] emits with the cursor
    at [k]. *)
Definition group_at (k : nat) : list string * list float :=
  group (set_current (Z.of_nat k) it0).

(** The launches, waits and merges of the iteration of the loop that
    handles the operation [k]: the launch of the operation [k + 1] when
    there is a group [k + 1], the wait for the operation [k], and the merge
    of its matrix with the weights of index [k]. *)
Definition iteration_sched (k : nat) : list Sched :=
  (if decide (S k < groups)%nat
   then [Launch (Z.of_nat (S k)) (nwt_hat_name (S k)) (group_at (S k)).1
                (group_at (S k)).2]
   else [])
  ++ [Awaited (Z.of_nat k);
      Merged (nwt_name c) (decay_weight it0 (Z.of_nat k)) (nwt_hat_name k)
             (apply_weight it0 (Z.of_nat k))].

Definition async_sched : list Sched :=
  Launch 0 (nwt_hat_name 0) (group_at 0).1 (group_at 0).2
  :: flat_map iteration_sched (seq 0 (Nat.max groups 1)).

(** What holds of the local variables at the head of the iteration that
    handles the operation [k]. *)
Definition async_inv (k : nat) (l : AsyncLoop) : Prop :=
  al_op_id l = Z.of_nat k
  /\ al_nwt_hat_index l = mkStringIndex "nwt_hat" (Z.of_nat k)
  /\ al_iter l = set_current (Z.of_nat (Nat.min (S k) groups)) it0
  /\ master_model_config_ (al_ex l) = c
  /\ length (async_ (al_ex l)) = S k.

Lemma more_set_current k :
  (k <= groups)%nat ->
  more (set_current (Z.of_nat k) it0) = bool_decide (k < groups)%nat.
Proof using it0_size.
  intros Hk. unfold more, groups, size, INT_MAX in *.
  cbn [current_ update_after_ set_current].
  rewrite to_int_small by (unfold INT_MIN, INT_MAX; lia).
  rewrite to_unsigned_small by lia.
  apply bool_decide_ext. lia.
Qed.

Lemma next_cursor_set_current k :
  (k <= groups)%nat ->
  next_cursor (set_current (Z.of_nat k) it0)
  = Z.of_nat (Nat.min (S k) groups).
Proof using it0_size.
  intros Hk. unfold next_cursor, groups, size, INT_MAX in *.
  cbn [current_ update_after_ set_current].
  rewrite to_int_small by (unfold INT_MIN, INT_MAX; lia).
  destruct (decide _); [lia|].
  rewrite to_unsigned_small by lia. lia.
Qed.

Lemma does_async_body fuel k l :
  async_inv k l -> (k < Nat.max groups 1)%nat ->
  does sched_view (ExecuteAsyncOnlineAlgorithm_body fuel l) (iteration_sched k)
    (fun r => r.1 = negb (bool_decide (S k < groups)%nat)
              /\ (r.1 = false -> async_inv (S k) r.2)).
Proof using it0_size.
  intros (Hop & Hidx & Hit & Hcfg & Hasync) HK.
  assert (Z.of_nat k + 1 <= INT_MAX) as Hmax.
  { unfold groups, size, INT_MAX in *. lia. }
  unfold ExecuteAsyncOnlineAlgorithm_body, iteration_sched.
  rewrite Hit, Hop, Hidx.
  rewrite more_set_current by lia.
  assert (bool_decide (Nat.min (S k) groups < groups)%nat
          = bool_decide (S k < groups)%nat) as ->
    by (apply bool_decide_ext; lia).
  assert (incr (mkStringIndex "nwt_hat" (Z.of_nat k))
          = mkStringIndex "nwt_hat" (Z.of_nat (S k))) as ->.
  { unfold incr, offset. simpl.
    rewrite to_int_small by (unfold INT_MIN, INT_MAX in *; lia).
    f_equal. lia. }
  assert (offset (mkStringIndex "nwt_hat" (Z.of_nat (S k))) (-1)
          = mkStringIndex "nwt_hat" (Z.of_nat k)) as ->.
  { unfold offset. simpl.
    rewrite to_int_small by (unfold INT_MIN, INT_MAX in *; lia).
    f_equal. lia. }
  eapply does_bind_nil; [apply does_defined|]. intros a Ha.
  eapply does_bind_nil; [apply does_defined|]. intros d Hd.
  change (apply_weight (set_current _ it0) (Z.of_nat k))
    with (apply_weight it0 (Z.of_nat k)) in Ha.
  change (decay_weight (set_current _ it0) (Z.of_nat k))
    with (decay_weight it0 (Z.of_nat k)) in Hd.
  rewrite Ha, Hd.
  destruct (decide (S k < groups)%nat) as [Hmore|Hlast].
  - rewrite (bool_decide_eq_true_2 _ Hmore). simpl negb. cbv iota.
    assert (to_int (size (async_ (al_ex l))) = Z.of_nat (S k)) as Hsz.
    { unfold size. rewrite Hasync.
      apply to_int_small. unfold INT_MIN, INT_MAX in *. lia. }
    replace (Nat.min (S k) groups) with (S k) in * by lia.
    replace (Launch (Z.of_nat (S k)) (nwt_hat_name (S k)) (group_at (S k)).1
                    (group_at (S k)).2)
      with (Launch (to_int (size (async_ (al_ex l))))
              (to_string (mkStringIndex "nwt_hat" (Z.of_nat (S k))))
              (group (set_current (Z.of_nat (S k)) it0)).1
              (group (set_current (Z.of_nat (S k)) it0)).2)
      by (by rewrite Hsz).
    eapply does_bind; [apply does_AsyncProcessBatches|].
    intros [[op ex1] iter1] (Hop1 & Hcfg1 & Hlen1 & Hiter1). simpl in *.
    rewrite Hsz in *.
    eapply does_bind_cons; [apply does_Await|]. intros _ _.
    unfold nwt_name_. rewrite Hcfg1, Hcfg.
    eapply does_bind_cons; [apply does_Merge|]. intros _ _.
    eapply does_bind_nil; [apply does_Dispose_sched|]. intros _ _.
    eapply does_bind_nil; [apply does_Regularize_sched|].
    intros ex2 [Hcfg2 Hasync2].
    eapply does_bind_nil; [apply does_Normalize_sched|]. intros _ _.
    eapply does_bind_nil; [apply does_Dispose_sched|]. intros _ _.
    eapply does_bind_nil; [apply (does_ret sched_view tt (fun _ => True) I)|].
    intros _ _.
    apply does_ret. simpl. split; [done|]. intros _.
    unfold async_inv. simpl. repeat split; try congruence.
    rewrite Hiter1, next_cursor_set_current by lia. reflexivity.
  - rewrite (bool_decide_eq_false_2 _ Hlast). simpl negb. cbv iota.
    eapply does_bind_nil.
    { apply (does_ret sched_view _ (fun r => r.1.2 = al_ex l)). reflexivity. }
    intros [[op ex1] iter1] Hex1. simpl in Hex1. subst ex1. cbv beta iota.
    eapply does_bind_cons; [apply does_Await|]. intros _ _.
    unfold nwt_name_. rewrite Hcfg.
    eapply does_bind_cons; [apply does_Merge|]. intros _ _.
    eapply does_bind_nil; [apply does_Dispose_sched|]. intros _ _.
    eapply does_bind_nil; [apply does_Regularize_sched|].
    intros ex2 [Hcfg2 Hasync2].
    eapply does_bind_nil; [apply does_Normalize_sched|]. intros _ _.
    eapply does_bind_nil; [apply does_Dispose_sched|]. intros _ _.
    eapply does_bind_nil; [apply does_Dispose_sched|]. intros _ _.
    apply does_ret. simpl. split; [done|]. discriminate.
Qed.

Lemma does_async_loop fuel n : forall k l,
  async_inv k l -> (k < Nat.max groups 1)%nat ->
  does sched_view (ExecuteAsyncOnlineAlgorithm_loop n fuel l)
    (flat_map iteration_sched (seq k (Nat.max groups 1 - k)))
    (fun _ => True).
Proof using it0_size.
  induction n as [|n IH]; intros k l Hinv Hk; simpl.
  - apply does_fail.
  - replace (Nat.max groups 1 - k)%nat
      with (S (Nat.max groups 1 - S k)) by lia.
    cbn [seq flat_map].
    eapply does_bind; [by apply does_async_body|].
    intros [is_last l'] [Hlast Hinv']. simpl in *.
    destruct is_last.
    + assert (Nat.max groups 1 - S k = 0)%nat as ->.
      { destruct (decide (S k < groups)%nat) as [H|H]; [|lia].
        by rewrite (bool_decide_eq_true_2 _ H) in Hlast. }
      by apply does_ret.
    + apply IH; [by apply Hinv'|].
      destruct (decide (S k < groups)%nat) as [H|H]; [lia|].
      by rewrite (bool_decide_eq_false_2 _ H) in Hlast.
Qed.

Lemma does_ExecuteAsyncOnlineAlgorithm fuel ex :
  master_model_config_ ex = c -> async_ ex = [] ->
  does sched_view (ExecuteAsyncOnlineAlgorithm fuel ex it0) async_sched
       (fun _ => True).
Proof using it0_size it0_cursor.
  intros Hcfg Hasync. unfold ExecuteAsyncOnlineAlgorithm, async_sched.
  eapply does_bind_nil.
  { apply (does_emits sched_view no_sched); [|done].
    unfold ClearScoreCache. repeat emits_step. }
  intros _ _.
  assert (it0 = set_current (Z.of_nat 0) it0) as Hit0.
  { destruct it0. simpl in *. by subst. }
  replace (Launch 0 (nwt_hat_name 0) (group_at 0).1 (group_at 0).2)
    with (Launch (to_int (size (async_ ex)))
            (to_string (mkStringIndex "nwt_hat" 0)) (group it0).1
            (group it0).2).
  2:{ rewrite Hasync. unfold group_at. by rewrite <- Hit0. }
  eapply does_bind_cons; [apply does_AsyncProcessBatches|].
  intros [[op ex1] iter1] (Hop1 & Hcfg1 & Hlen1 & Hiter1). simpl in *.
  rewrite <- (app_nil_r (flat_map _ _)).
  eapply does_bind.
  { rewrite <- (Nat.sub_0_r (Nat.max groups 1)).
    apply does_async_loop; [|lia].
    unfold async_inv. simpl. rewrite Hop1, Hasync, Hcfg1, Hlen1, Hasync.
    repeat split; try done.
    rewrite Hiter1. rewrite Hit0 at 1.
    rewrite next_cursor_set_current by lia. by destruct it0. }
  intros l _. by apply does_ret.
Qed.

End AsyncSchedule.

(** C1 -- the launches, waits and merges of [FitOnline] with [async] set,
    as the log has them, for an iterator whose [update_after] has a length
    that fits in an [int]: the operation 0 is launched on the group 0; then
    the iteration that handles the operation [k] launches the operation
    [k + 1] on the group [k + 1] when there is one, waits for the operation
    [k], and merges the matrix [nwt_hat k] of the operation [k] with the
    weights [decay_weight(k)] and [apply_weight(k)], read at the index [k]
    of the iterator.  A run that returns has all these steps; a run that
    fails stops somewhere in this sequence. *)
Theorem FitOnline_async_weights (fuel : nat)
  (args : FitOnlineMasterModelArgs) (s : State) (c : MasterModelConfig) :
  let it0 :=
    mkOnlineBatchesIterator (fo_batch_filename args) (fo_batch_weight args)
      (fo_update_after args) (fo_apply_weight args) (fo_decay_weight args) 0 in
  let out := FitOnline fuel args s in
  config (world s) = Some c ->
  fo_async args = true ->
  size (fo_update_after args) <= INT_MAX ->
  exists l,
    history out.2 = history s ++ l
    /\ omap sched_view l `prefix_of` async_sched it0 c
    /\ (is_ok out.1 = true -> omap sched_view l = async_sched it0 c).
Proof.
  intros it0 out Hc Hasync Hsize.
  destruct (does_run sched_view _ _ _ s
              (does_ExecuteAsyncOnlineAlgorithm it0 c eq_refl Hsize fuel
                 (ArtmExecutor_new c) eq_refl eq_refl))
    as (l & Hh & Hpre & Hok).
  assert (out = (let* _ := ExecuteAsyncOnlineAlgorithm fuel
                             (ArtmExecutor_new c) it0 in ret tt) s) as ->.
  { unfold out, FitOnline, bind at 1, gets. rewrite Hc, Hasync. reflexivity. }
  exists l. unfold bind.
  destruct (ExecuteAsyncOnlineAlgorithm fuel (ArtmExecutor_new c) it0 s)
    as [[r|f] s']; simpl in *; auto.
Qed.

(** * Further properties of the orchestrator *)

(** ** The update groups of the online iterator *)

(** The entries of [update_after] do not decrease. *)
Fixpoint nondecreasing (l : list Z) : bool :=
  match l with
  | a :: (b :: _) as l' => (a <=? b) && nondecreasing l'
  | _ => true
  end.

Lemma nondecreasing_lookup l : nondecreasing l = true ->
  forall i u v, l !! i = Some u -> l !! S i = Some v -> u <= v.
Proof.
  induction l as [|a l IH]; intros H i u v Hu Hv; [done|].
  destruct l as [|b l]; [done|].
  cbn [nondecreasing] in H. apply andb_true_iff in H as [Hab Hl].
  destruct i as [|i]; simpl in Hu, Hv.
  - injection Hu as <-. injection Hv as <-. lia.
  - by apply (IH Hl i).
Qed.

(** The index of the first batch of the group [k]: 0 for the group 0 and
    [update_after[k - 1]] after that. *)
Definition group_bound (it : OnlineBatchesIterator) (k : nat) : Z :=
  match k with
  | O => 0
  | S j => default 0 (update_after_ it !! j)
  end.

Lemma valid_iterator_set_current it k :
  valid_iterator it -> (k <= length (update_after_ it))%nat ->
  valid_iterator (set_current (Z.of_nat k) it).
Proof.
  intros (Hf & Hsz & Hall & _) Hk. unfold valid_iterator, size in *.
  cbn [set_current batch_filename_ batch_weight_ update_after_ current_].
  repeat split; try done; lia.
Qed.

Lemma group_set_current it k :
  valid_iterator it -> (k < length (update_after_ it))%nat ->
  group (set_current (Z.of_nat k) it)
  = (slice (group_bound it k) (group_bound it (S k)) (batch_filename_ it),
     slice (group_bound it k) (group_bound it (S k)) (batch_weight_ it)).
Proof.
  intros Hv Hk. unfold group.
  rewrite Online_move_in_range;
    [|apply valid_iterator_set_current; [done|lia]
     |unfold size; cbn [set_current current_ update_after_]; lia].
  cbn [pba_batch_filename pba_batch_weight set_batches fst snd].
  assert (group_first (set_current (Z.of_nat k) it) = group_bound it k) as ->.
  { unfold group_first. cbn [set_current current_ update_after_].
    destruct k as [|k]; [done|].
    destruct (decide (Z.of_nat (S k) = 0)); [lia|].
    cbn [group_bound]. by replace (Z.to_nat (Z.of_nat (S k) - 1)) with k by lia. }
  assert (group_last (set_current (Z.of_nat k) it) = group_bound it (S k))
    as ->.
  { unfold group_last. cbn [set_current current_ update_after_ group_bound].
    by rewrite Nat2Z.id. }
  reflexivity.
Qed.

Lemma group_bound_le it k :
  valid_iterator it -> nondecreasing (update_after_ it) = true ->
  (k < length (update_after_ it))%nat ->
  0 <= group_bound it k <= group_bound it (S k).
Proof.
  intros Hv Hs Hk.
  destruct (lookup_lt_is_Some_2 (update_after_ it) k Hk) as [v Ev].
  pose proof (valid_iterator_entry _ _ _ Hv Ev) as [Hv1 _].
  cbn [group_bound]. rewrite Ev. simpl. destruct k as [|k]; [simpl; lia|].
  destruct (lookup_lt_is_Some_2 (update_after_ it) k) as [u Eu]; [lia|].
  pose proof (valid_iterator_entry _ _ _ Hv Eu) as [Hu1 _].
  cbn [group_bound]. rewrite Eu. simpl.
  pose proof (nondecreasing_lookup _ Hs k u v Eu Ev). lia.
Qed.

Lemma groups_take {A : Type} it (l : list A) n :
  valid_iterator it -> nondecreasing (update_after_ it) = true ->
  (n <= length (update_after_ it))%nat ->
  flat_map (fun k => slice (group_bound it k) (group_bound it (S k)) l)
           (seq 0 n)
  = take (Z.to_nat (group_bound it n)) l.
Proof.
  intros Hv Hs. induction n as [|n IH]; intros Hn; [done|].
  rewrite seq_S, flat_map_app, IH by lia. cbn [flat_map Nat.add].
  rewrite app_nil_r. unfold slice.
  pose proof (group_bound_le it n Hv Hs) as Hle.
  rewrite take_take_drop. f_equal. lia.
Qed.

Lemma flat_map_ext_Forall {A B : Type} (f g : A -> list B) l :
  Forall (fun a => f a = g a) l -> flat_map f l = flat_map g l.
Proof. induction 1 as [|a l Ha _ IH]; [done|]. simpl. by rewrite Ha, IH. Qed.

(** X1 -- for an iterator whose [update_after] does not decrease, the
    groups that [move] emits at the cursors 0, 1, ... put end to end are
    the batches below the last entry of [update_after], each once and in
    the order of the list; the batches from that entry on are in no
    group.  The same holds of the weights. *)
Theorem OnlineBatchesIterator_groups_partition (it : OnlineBatchesIterator) :
  valid_iterator it ->
  nondecreasing (update_after_ it) = true ->
  let n := length (update_after_ it) in
  flat_map (fun k => (group (set_current (Z.of_nat k) it)).1) (seq 0 n)
  = take (Z.to_nat (group_bound it n)) (batch_filename_ it)
  /\ flat_map (fun k => (group (set_current (Z.of_nat k) it)).2) (seq 0 n)
     = take (Z.to_nat (group_bound it n)) (batch_weight_ it).
Proof.
  intros Hv Hs n.
  rewrite <- (groups_take it (batch_filename_ it) n Hv Hs) by done.
  rewrite <- (groups_take it (batch_weight_ it) n Hv Hs) by done.
  split; apply flat_map_ext_Forall, Forall_forall; intros k Hk;
    apply list_elem_of_In, in_seq in Hk;
    rewrite group_set_current by (done || unfold n in Hk; lia); done.
Qed.

(** ** Schedules that depend on values chosen during the run *)

(** [does_some view m spec Q]: as [does], for a sequence of steps [spec x]
    that depends on values [x] fixed during the run (the score managers
    that the run constructs). *)
Definition does_some {A V X : Type} (view : Event -> option V) (m : M A)
  (spec : X -> list V) (Q : X -> A -> Prop) : Prop :=
  forall s, exists l x,
    history (m s).2 = history s ++ l
    /\ match (m s).1 with
       | Ok a => omap view l = spec x /\ Q x a
       | Fail _ => omap view l `prefix_of` spec x
       end.

Section DoesSome.
Context {V X : Type} (view : Event -> option V) (x0 : X).

Lemma does_some_fail {A : Type} (f : Failure) (spec : X -> list V)
  (Q : X -> A -> Prop) :
  does_some view (fun s => (Fail f, s)) spec Q.
Proof using x0.
  intros s. exists [], x0. simpl. rewrite app_nil_r. split; [done|].
  apply prefix_nil.
Qed.

Lemma does_some_ret {A : Type} (a : A) (x : X) (spec : X -> list V)
  (Q : X -> A -> Prop) :
  spec x = [] -> Q x a -> does_some view (ret a) spec Q.
Proof.
  intros Hs HQ s. exists [], x. simpl. rewrite app_nil_r, Hs. by repeat split.
Qed.

Lemma does_some_ext {A : Type} (m : M A) (spec spec' : X -> list V)
  (Q Q' : X -> A -> Prop) :
  (forall x, spec x = spec' x) -> (forall x a, Q x a -> Q' x a) ->
  does_some view m spec Q -> does_some view m spec' Q'.
Proof.
  intros Hs HQ Hm s. destruct (Hm s) as (l & x & Hh & Hr). exists l, x.
  split; [done|]. rewrite <- Hs. destruct (m s).1; [|done].
  destruct Hr. auto.
Qed.

Lemma does_then {A B : Type} (m : M A) (k : A -> M B) E (Q1 : A -> Prop)
  (spec : X -> list V) (Q2 : X -> B -> Prop) :
  does view m E Q1 ->
  (forall a, Q1 a -> does_some view (k a) spec Q2) ->
  does_some view (bind m k) (fun x => E ++ spec x) Q2.
Proof using x0.
  intros Hm Hk s. destruct (Hm s) as (l1 & H1 & R1). unfold bind.
  destruct (m s) as [[a|f] s1]; cbn [fst snd] in *.
  - destruct R1 as [R1 HQ]. destruct (Hk a HQ s1) as (l2 & x & H2 & R2).
    exists (l1 ++ l2), x. rewrite H2, H1, app_assoc. split; [done|].
    rewrite omap_app, R1. destruct (k a s1).1.
    + destruct R2 as [-> ?]. done.
    + by apply prefix_app.
  - exists l1, x0. split; [done|]. by apply prefix_app_r.
Qed.

End DoesSome.

(** ** The synchronous online schedule *)

Lemma does_ProcessBatches_online fuel ex pwt nwt (iter : OnlineBatchesIterator)
  sm :
  does step_view (ProcessBatches fuel ex pwt nwt iter sm)
    [EvProcessBatches pwt nwt (group iter).1 (group iter).2 sm]
    (fun r => same_config ex r.1
              /\ r.2 = set_current (next_cursor iter) iter).
Proof.
  unfold ProcessBatches.
  eapply does_bind_nil; [apply does_defined|]. intros [iter' args] Hm.
  apply Online_move_any_args in Hm as [-> ->].
  eapply does_bind_nil; [apply does_BatchManager_new|]. intros bm _.
  eapply does_bind_cons; [by apply does_log_Some|]. intros _ _.
  rewrite <- (app_nil_r []).
  eapply does_bind.
  { eapply does_emits; [apply emits_RequestProcessBatchesImpl|].
    apply no_step_view. }
  intros [args' theta] _. by apply does_ret.
Qed.

Lemma does_Merge_step nwt d nwt_hat a :
  does step_view (Merge nwt d nwt_hat a) [EvMerge nwt d nwt_hat a]
       (fun _ => True).
Proof.
  unfold Merge.
  eapply does_bind_cons; [by apply does_log_Some|]. intros _ _.
  eapply does_emits; [apply emits_MergeModel|apply is_set_view].
Qed.

Lemma does_some_ScoreManager_local {A : Type} (k : nat -> M A)
  (spec : nat -> list nat -> list Event) (Q : nat -> list nat -> A -> Prop) :
  (forall sm, does_some step_view (k sm) (spec sm) (Q sm)) ->
  does_some step_view (bind ScoreManager_local k)
    (fun x => match x with
              | sm :: x' => EvNewScoreManager sm :: spec sm x'
              | [] => []
              end)
    (fun x a => match x with sm :: x' => Q sm x' a | [] => False end).
Proof.
  intros Hk s. unfold bind. rewrite ScoreManager_local_eq.
  set (sm := length (score_managers (world s))).
  set (s1 := mkState _ _).
  destruct (Hk sm s1) as (l & x & Hh & Hr).
  exists (EvNewScoreManager sm :: l), (sm :: x). rewrite Hh.
  split; [unfold s1; simpl; by rewrite <- app_assoc|].
  rewrite omap_step_view_cons by done.
  destruct (k sm s1).1.
  - destruct Hr as [-> HQ]. done.
  - by apply prefix_cons.
Qed.

Section OnlineSchedule.

(** The iterator that [FitOnline] builds (cursor 0), the configuration, and
    the number of update groups, which fits in a C++ [int]. *)
Variable it0 : OnlineBatchesIterator.
Variable c : MasterModelConfig.
Hypothesis it0_cursor : current_ it0 = 0.
Hypothesis it0_size : size (update_after_ it0) <= INT_MAX.

Let groups : nat := length (update_after_ it0).

(** The steps of the iteration over the group [k] with the score manager
    [sm]: the weights are read at the index [k], the group is processed
    into [nwt_hat k], which is merged into [nwt] and disposed; then [pwt] is
    regularized and normalized and the scores are stored.  An iteration that
    finds no weight at the index [k] has no step. *)
Definition online_iteration_steps (k sm : nat) : list Event :=
  match apply_weight it0 (Z.of_nat k), decay_weight it0 (Z.of_nat k) with
  | Some a, Some d =>
      [ EvNewScoreManager sm;
        EvProcessBatches (pwt_name c) (nwt_hat_name k) (group_at it0 k).1
                         (group_at it0 k).2 sm;
        EvMerge (nwt_name c) d (nwt_hat_name k) a;
        EvDisposeModel (nwt_hat_name k);
        EvRegularize (pwt_name c) (nwt_name c) "rwt";
        EvNormalize (pwt_name c) (nwt_name c) "rwt";
        EvStoreScores sm ]
  | _, _ => []
  end.

(** The steps of the iterations from the group [k] on, one for each score
    manager of [sms]. *)
Fixpoint online_from (k : nat) (sms : list nat) : list Event :=
  match sms with
  | [] => []
  | sm :: sms' => online_iteration_steps k sm ++ online_from (S k) sms'
  end.

Definition online_steps (sms : list nat) : list Event :=
  EvClearScoreCache :: online_from 0 sms.

Lemma does_online_loop fuel n : forall k ex iter,
  (k <= groups)%nat ->
  iter = set_current (Z.of_nat k) it0 ->
  master_model_config_ ex = c ->
  does_some step_view
    (ExecuteOnlineAlgorithm_loop n fuel ex iter
       (mkStringIndex "nwt_hat" (Z.of_nat k)))
    (online_from k)
    (fun sms _ => length sms = (groups - k)%nat).
Proof using it0_size.
  induction n as [|n IH]; intros k ex iter Hk -> Hcfg;
    cbn [ExecuteOnlineAlgorithm_loop];
    rewrite (more_set_current it0 it0_size k Hk);
    (destruct (decide (k < groups)%nat) as [Hlt|Hge];
     [rewrite (bool_decide_eq_true_2 _ Hlt)
     |rewrite (bool_decide_eq_false_2 _ Hge)]);
    try (apply (does_some_ret step_view _ []); [done|simpl; lia]);
    try apply (does_some_fail step_view []).
  assert (Z.of_nat k + 1 <= INT_MAX) as Hmax.
  { unfold groups, size, INT_MAX in *. lia. }
  assert (apply_weight_current (set_current (Z.of_nat k) it0)
          = apply_weight it0 (Z.of_nat k)) as Ea.
  { unfold apply_weight_current, apply_weight.
    cbn [set_current current_ apply_weight_].
    rewrite to_int_small by (unfold INT_MIN, INT_MAX in *; lia). done. }
  assert (decay_weight_current (set_current (Z.of_nat k) it0)
          = decay_weight it0 (Z.of_nat k)) as Ed.
  { unfold decay_weight_current, decay_weight.
    cbn [set_current current_ decay_weight_].
    rewrite to_int_small by (unfold INT_MIN, INT_MAX in *; lia). done. }
  rewrite Ea, Ed.
  destruct (apply_weight it0 (Z.of_nat k)) as [a|] eqn:Ha;
    [|apply (does_some_fail step_view [])].
  destruct (decay_weight it0 (Z.of_nat k)) as [d|] eqn:Hd;
    [|apply (does_some_fail step_view [])].
  change (bind (defined (Some a)) ?k) with (k a). cbv beta.
  change (bind (defined (Some d)) ?k) with (k d). cbv beta.
  assert (incr (mkStringIndex "nwt_hat" (Z.of_nat k))
          = mkStringIndex "nwt_hat" (Z.of_nat (S k))) as ->.
  { unfold incr, offset. simpl.
    rewrite to_int_small by (unfold INT_MIN, INT_MAX in *; lia).
    f_equal. lia. }
  change (to_string (mkStringIndex "nwt_hat" (Z.of_nat k)))
    with (nwt_hat_name k).
  unfold pwt_name_, nwt_name_. rewrite Hcfg.
  eapply does_some_ext;
    [| |apply (does_some_ScoreManager_local _
                (fun sm x' =>
                   [EvProcessBatches (pwt_name c) (nwt_hat_name k)
                      (group_at it0 k).1 (group_at it0 k).2 sm]
                   ++ [EvMerge (nwt_name c) d (nwt_hat_name k) a]
                   ++ [EvDisposeModel (nwt_hat_name k)]
                   ++ [EvRegularize (pwt_name c) (nwt_name c) "rwt"]
                   ++ [EvNormalize (pwt_name c) (nwt_name c) "rwt"]
                   ++ [EvStoreScores sm] ++ online_from (S k) x')
                (fun _ x' _ => length x' = (groups - S k)%nat))].
  { intros [|sm x']; [done|]. cbn [online_from].
    unfold online_iteration_steps. by rewrite Ha, Hd. }
  { intros [|sm x'] r; [done|]. simpl. lia. }
  intros sm.
  eapply (does_then step_view []); [apply does_ProcessBatches_online|].
  intros [ex1 iter1] [(Hc1 & _ & _) Hi]. cbn [fst snd] in *. subst iter1.
  rewrite Hc1, Hcfg.
  eapply (does_then step_view []); [apply does_Merge_step|]. intros _ _.
  eapply (does_then step_view []); [apply does_Dispose|]. intros _ _.
  eapply (does_then step_view []); [apply does_Regularize|].
  intros ex2 (Hc2 & _ & _). rewrite Hc2, Hc1, Hcfg.
  eapply (does_then step_view []); [apply does_Normalize|]. intros _ _.
  eapply (does_then step_view []); [apply does_StoreScores|]. intros _ _.
  rewrite (next_cursor_set_current it0 it0_size k Hk).
  rewrite Nat.min_l by (unfold groups in *; lia).
  apply IH; [lia|done|congruence].
Qed.

Lemma does_ExecuteOnlineAlgorithm fuel ex :
  master_model_config_ ex = c ->
  does_some step_view (ExecuteOnlineAlgorithm fuel ex it0) online_steps
    (fun sms _ => length sms = groups).
Proof using it0_size it0_cursor.
  intros Hcfg. unfold ExecuteOnlineAlgorithm, online_steps.
  apply (does_then step_view [] _ _ [EvClearScoreCache] (fun _ => True)
           (online_from 0));
    [apply does_ClearScoreCache|]. intros _ _.
  intros s.
  destruct (does_online_loop fuel fuel 0 ex it0) with (s := s)
    as (l & sms & Hh & Hr); [lia|by destruct it0; simpl in *; subst|done|].
  exists l, sms. unfold bind.
  change (mkStringIndex "nwt_hat" (Z.of_nat 0))
    with (mkStringIndex "nwt_hat" 0) in *.
  destruct (ExecuteOnlineAlgorithm_loop fuel fuel ex it0 _ s)
    as [[[ex1 iter1]|f] s1]; cbn [fst snd] in *; [|done].
  split; [done|]. destruct Hr as [-> Hlen]. split; [done|]. lia.
Qed.


End OnlineSchedule.

(** X2 -- the steps of [FitOnline] without [async], as the log has them,
    for an iterator whose [update_after] has a length that fits in an
    [int]: the score cache is cleared; then, for each update group [k] in
    order, the weights of index [k] are read, a score manager is
    constructed, the group [k] is processed from [pwt] into [nwt_hat k],
    which is merged into [nwt] with these weights and disposed, [pwt] is
    regularized and normalized, and the scores of this score manager are
    stored.  A run that returns has one such iteration for each group; a
    run that fails stops somewhere in this sequence. *)
Theorem FitOnline_sync_steps (fuel : nat) (args : FitOnlineMasterModelArgs)
  (s : State) (c : MasterModelConfig) :
  let it0 :=
    mkOnlineBatchesIterator (fo_batch_filename args) (fo_batch_weight args)
      (fo_update_after args) (fo_apply_weight args) (fo_decay_weight args) 0 in
  let out := FitOnline fuel args s in
  config (world s) = Some c ->
  fo_async args = false ->
  size (fo_update_after args) <= INT_MAX ->
  exists l sms,
    history out.2 = history s ++ l
    /\ omap step_view l `prefix_of` online_steps it0 c sms
    /\ (is_ok out.1 = true ->
        length sms = length (fo_update_after args)
        /\ omap step_view l = online_steps it0 c sms).
Proof.
  intros it0 out Hc Hasync Hsize.
  destruct (does_ExecuteOnlineAlgorithm it0 c eq_refl Hsize fuel
              (ArtmExecutor_new c) eq_refl s) as (l & sms & Hh & Hr).
  assert (out = (let* _ := ExecuteOnlineAlgorithm fuel (ArtmExecutor_new c)
                             it0 in ret tt) s) as ->.
  { unfold out, FitOnline, bind at 1, gets. rewrite Hc, Hasync. reflexivity. }
  exists l, sms. unfold bind.
  destruct (ExecuteOnlineAlgorithm fuel (ArtmExecutor_new c) it0 s)
    as [[r|f] s']; cbn [fst snd is_ok] in *.
  - destruct Hr as [-> Hlen]. by repeat split.
  - by repeat split.
Qed.

(** ** The asynchronous online schedule, all steps *)

Lemma does_AsyncProcessBatches_step ex pwt nwt
  (iter : OnlineBatchesIterator) :
  does step_view (AsyncProcessBatches ex pwt nwt iter)
    [EvAsyncProcessBatches (to_int (size (async_ ex))) pwt nwt (group iter).1
                           (group iter).2]
    (fun r => r.1.1 = to_int (size (async_ ex))
              /\ master_model_config_ r.1.2 = master_model_config_ ex
              /\ length (async_ r.1.2) = S (length (async_ ex))
              /\ r.2 = set_current (next_cursor iter) iter).
Proof.
  unfold AsyncProcessBatches.
  eapply does_bind_nil; [apply does_defined|]. intros [iter' args] Hm.
  apply Online_move_any_args in Hm as [-> ->].
  eapply does_bind_nil; [apply does_BatchManager_new|]. intros bm _.
  eapply does_bind_cons; [by apply does_log_Some|]. intros _ _.
  rewrite <- (app_nil_r []).
  eapply does_bind.
  { eapply does_emits; [apply emits_RequestProcessBatchesImpl|].
    apply no_step_view. }
  intros [args' theta] _. apply does_ret. simpl.
  repeat split; try done. rewrite length_app. simpl. lia.
Qed.

Lemma does_Await_step fuel ex op :
  does step_view (Await fuel ex op) [EvAwait op] (fun _ => True).
Proof.
  unfold Await.
  eapply does_bind_cons; [by apply does_log_Some|]. intros _ _.
  apply (does_emits step_view (fun _ => False)); [|done].
  emits_step; [emits_step|]. apply emits_wait_until_processed.
Qed.

Lemma StringIndex_incr p k :
  Z.of_nat k + 1 <= INT_MAX ->
  incr (mkStringIndex p (Z.of_nat k)) = mkStringIndex p (Z.of_nat (S k)).
Proof.
  intros H. unfold incr, offset. simpl.
  rewrite to_int_small by (unfold INT_MIN, INT_MAX in H |- *; lia).
  f_equal. lia.
Qed.

Lemma StringIndex_pred p k :
  Z.of_nat k + 1 <= INT_MAX ->
  offset (mkStringIndex p (Z.of_nat (S k))) (-1)
  = mkStringIndex p (Z.of_nat k).
Proof.
  intros H. unfold offset. simpl.
  rewrite to_int_small by (unfold INT_MIN, INT_MAX in H |- *; lia).
  f_equal. lia.
Qed.

Section AsyncSteps.

Variable it0 : OnlineBatchesIterator.
Variable c : MasterModelConfig.
Hypothesis it0_cursor : current_ it0 = 0.
Hypothesis it0_size : size (update_after_ it0) <= INT_MAX.

Let groups : nat := length (update_after_ it0).

(** The names of the temporary matrices of [pwt_index]. *)
Definition pwt_temp_name (k : nat) : string := "pwt" +:+ pretty (Z.of_nat k).

(** [pwt_active] at the head of the iteration that handles the operation
    [k]: the configured [pwt] at first, then the matrix that the iteration
    before has normalized. *)
Definition pwt_active_at (k : nat) : string :=
  match k with
  | O => pwt_name c
  | S _ => pwt_temp_name (S k)
  end.

(** The steps of the iteration of [while (true)] that handles the operation
    [k]; it is the last one when there is no group [k + 1].  An iteration
    that finds no weight at the index [k] has no step. *)
Definition async_iteration_steps (k : nat) : list Event :=
  match apply_weight it0 (Z.of_nat k), decay_weight it0 (Z.of_nat k) with
  | Some a, Some d =>
      (if decide (S k < groups)%nat
       then [EvAsyncProcessBatches (Z.of_nat (S k)) (pwt_active_at k)
               (nwt_hat_name (S k)) (group_at it0 (S k)).1
               (group_at it0 (S k)).2]
       else [])
      ++ [ EvAwait (Z.of_nat k);
           EvMerge (nwt_name c) d (nwt_hat_name k) a;
           EvDisposeModel (nwt_hat_name k);
           EvRegularize (pwt_active_at k) (nwt_name c) "rwt";
           EvNormalize
             (if decide (S k < groups)%nat then pwt_temp_name (S (S k))
              else pwt_name c)
             (nwt_name c) "rwt";
           EvDisposeModel (pwt_temp_name k) ]
      ++ (if decide (S k < groups)%nat then []
          else [EvDisposeModel (pwt_temp_name (S k))])
  | _, _ => []
  end.

Definition async_steps : list Event :=
  EvClearScoreCache
  :: EvAsyncProcessBatches 0 (pwt_name c) (nwt_hat_name 0) (group_at it0 0).1
       (group_at it0 0).2
  :: flat_map async_iteration_steps (seq 0 (Nat.max groups 1)).

(** What holds of the local variables at the head of the iteration that
    handles the operation [k]. *)
Definition async_steps_inv (k : nat) (l : AsyncLoop) : Prop :=
  al_op_id l = Z.of_nat k
  /\ al_nwt_hat_index l = mkStringIndex "nwt_hat" (Z.of_nat k)
  /\ al_pwt_index l = mkStringIndex "pwt" (Z.of_nat k)
  /\ al_pwt_active l = pwt_active_at k
  /\ al_iter l = set_current (Z.of_nat (Nat.min (S k) groups)) it0
  /\ master_model_config_ (al_ex l) = c
  /\ length (async_ (al_ex l)) = S k.

Lemma does_async_body_steps fuel k l :
  async_steps_inv k l -> (k < Nat.max groups 1)%nat ->
  does step_view (ExecuteAsyncOnlineAlgorithm_body fuel l)
    (async_iteration_steps k)
    (fun r => r.1 = negb (bool_decide (S k < groups)%nat)
              /\ (r.1 = false -> async_steps_inv (S k) r.2)).
Proof using it0_size.
  intros (Hop & Hidx & Hpidx & Hpact & Hit & Hcfg & Hasync) HK.
  assert (Z.of_nat k + 1 <= INT_MAX) as Hmax.
  { unfold groups, size, INT_MAX in *. lia. }
  unfold ExecuteAsyncOnlineAlgorithm_body, async_iteration_steps.
  rewrite Hit, Hop, Hidx, Hpidx, Hpact.
  rewrite more_set_current by (done || lia). fold groups.
  assert (bool_decide (Nat.min (S k) groups < groups)%nat
          = bool_decide (S k < groups)%nat) as ->
    by (apply bool_decide_ext; lia).
  rewrite !StringIndex_incr, !StringIndex_pred by done.
  change (to_string (mkStringIndex "nwt_hat" (Z.of_nat k)))
    with (nwt_hat_name k).
  change (to_string (mkStringIndex "nwt_hat" (Z.of_nat (S k))))
    with (nwt_hat_name (S k)).
  change (to_string (mkStringIndex "pwt" (Z.of_nat k)))
    with (pwt_temp_name k).
  change (to_string (mkStringIndex "pwt" (Z.of_nat (S k))))
    with (pwt_temp_name (S k)).
  eapply does_bind_nil; [apply does_defined|]. intros a Ha.
  eapply does_bind_nil; [apply does_defined|]. intros d Hd.
  change (apply_weight (set_current _ it0) (Z.of_nat k))
    with (apply_weight it0 (Z.of_nat k)) in Ha.
  change (decay_weight (set_current _ it0) (Z.of_nat k))
    with (decay_weight it0 (Z.of_nat k)) in Hd.
  rewrite Ha, Hd.
  destruct (decide (S k < groups)%nat) as [Hmore|Hlast].
  - rewrite (bool_decide_eq_true_2 _ Hmore). simpl negb. cbv iota.
    assert (to_int (size (async_ (al_ex l))) = Z.of_nat (S k)) as Hsz.
    { unfold size. rewrite Hasync.
      apply to_int_small. unfold INT_MIN, INT_MAX in *. lia. }
    replace (Nat.min (S k) groups) with (S k) in * by lia.
    assert (offset (mkStringIndex "pwt" (Z.of_nat (S k))) 1
            = mkStringIndex "pwt" (Z.of_nat (S (S k)))) as ->.
    { apply (StringIndex_incr "pwt" (S k)).
      unfold groups, size, INT_MAX in *. lia. }
    change (to_string (mkStringIndex "pwt" (Z.of_nat (S (S k)))))
      with (pwt_temp_name (S (S k))).
    replace (EvAsyncProcessBatches (Z.of_nat (S k)) (pwt_active_at k)
               (nwt_hat_name (S k)) (group_at it0 (S k)).1
               (group_at it0 (S k)).2)
      with (EvAsyncProcessBatches (to_int (size (async_ (al_ex l))))
              (pwt_active_at k) (nwt_hat_name (S k))
              (group (set_current (Z.of_nat (S k)) it0)).1
              (group (set_current (Z.of_nat (S k)) it0)).2)
      by (by rewrite Hsz).
    eapply does_bind; [apply does_AsyncProcessBatches_step|].
    intros [[op ex1] iter1] (Hop1 & Hcfg1 & Hlen1 & Hiter1).
    cbn [fst snd] in *. rewrite Hsz in *.
    eapply does_bind_cons; [apply does_Await_step|]. intros _ _.
    unfold nwt_name_. rewrite Hcfg1, Hcfg.
    eapply does_bind_cons; [apply does_Merge_step|]. intros _ _.
    eapply does_bind_cons; [apply does_Dispose|]. intros _ _.
    eapply does_bind_cons; [apply does_Regularize|].
    intros ex2 (Hcfg2 & _ & Hasync2). rewrite Hcfg2, Hcfg1, Hcfg.
    eapply does_bind_cons; [apply does_Normalize|]. intros _ _.
    eapply does_bind_cons; [apply does_Dispose|]. intros _ _.
    eapply does_bind_nil; [apply (does_ret step_view tt (fun _ => True) I)|].
    intros _ _.
    apply does_ret. cbn [fst snd]. split; [done|]. intros _.
    unfold async_steps_inv.
    cbn [al_op_id al_nwt_hat_index al_pwt_index al_pwt_active al_iter al_ex].
    repeat split; try congruence.
    rewrite Hiter1, next_cursor_set_current by (done || lia). reflexivity.
  - rewrite (bool_decide_eq_false_2 _ Hlast). simpl negb. cbv iota.
    eapply does_bind_nil.
    { apply (does_ret step_view _ (fun r => r.1.2 = al_ex l)). reflexivity. }
    intros [[op ex1] iter1] Hex1. cbn [fst snd] in Hex1. subst ex1.
    cbv beta iota.
    eapply does_bind_cons; [apply does_Await_step|]. intros _ _.
    unfold nwt_name_, pwt_name_. rewrite Hcfg.
    eapply does_bind_cons; [apply does_Merge_step|]. intros _ _.
    eapply does_bind_cons; [apply does_Dispose|]. intros _ _.
    eapply does_bind_cons; [apply does_Regularize|].
    intros ex2 (Hcfg2 & _ & Hasync2). rewrite Hcfg2, Hcfg.
    eapply does_bind_cons; [apply does_Normalize|]. intros _ _.
    eapply does_bind_cons; [apply does_Dispose|]. intros _ _.
    eapply does_bind_cons; [apply does_Dispose|]. intros _ _.
    apply does_ret. cbn [fst snd]. split; [done|]. discriminate.
Qed.

Lemma does_async_loop_steps fuel n : forall k l,
  async_steps_inv k l -> (k < Nat.max groups 1)%nat ->
  does step_view (ExecuteAsyncOnlineAlgorithm_loop n fuel l)
    (flat_map async_iteration_steps (seq k (Nat.max groups 1 - k)))
    (fun _ => True).
Proof using it0_size.
  induction n as [|n IH]; intros k l Hinv Hk; simpl.
  - apply does_fail.
  - replace (Nat.max groups 1 - k)%nat
      with (S (Nat.max groups 1 - S k)) by lia.
    cbn [seq flat_map].
    eapply does_bind; [by apply does_async_body_steps|].
    intros [is_last l'] [Hlast Hinv']. cbn [fst snd] in *.
    destruct is_last.
    + assert (Nat.max groups 1 - S k = 0)%nat as ->.
      { destruct (decide (S k < groups)%nat) as [H|H]; [|lia].
        by rewrite (bool_decide_eq_true_2 _ H) in Hlast. }
      by apply does_ret.
    + apply IH; [by apply Hinv'|].
      destruct (decide (S k < groups)%nat) as [H|H]; [lia|].
      by rewrite (bool_decide_eq_false_2 _ H) in Hlast.
Qed.

Lemma does_ExecuteAsyncOnlineAlgorithm_steps fuel ex :
  master_model_config_ ex = c -> async_ ex = [] ->
  does step_view (ExecuteAsyncOnlineAlgorithm fuel ex it0) async_steps
       (fun _ => True).
Proof using it0_size it0_cursor.
  intros Hcfg Hasync. unfold ExecuteAsyncOnlineAlgorithm, async_steps.
  eapply does_bind_cons; [apply does_ClearScoreCache|]. intros _ _.
  assert (it0 = set_current (Z.of_nat 0) it0) as Hit0.
  { destruct it0. simpl in *. by subst. }
  replace (EvAsyncProcessBatches 0 (pwt_name c) (nwt_hat_name 0)
             (group_at it0 0).1 (group_at it0 0).2)
    with (EvAsyncProcessBatches (to_int (size (async_ ex))) (pwt_name_ ex)
            (to_string (mkStringIndex "nwt_hat" 0)) (group it0).1
            (group it0).2).
  2:{ rewrite Hasync. unfold group_at, pwt_name_. by rewrite <- Hit0, Hcfg. }
  eapply does_bind_cons; [apply does_AsyncProcessBatches_step|].
  intros [[op ex1] iter1] (Hop1 & Hcfg1 & Hlen1 & Hiter1). cbn [fst snd] in *.
  rewrite <- (app_nil_r (flat_map _ _)).
  eapply does_bind.
  { rewrite <- (Nat.sub_0_r (Nat.max groups 1)).
    apply does_async_loop_steps; [|lia].
    unfold async_steps_inv.
    cbn [al_op_id al_nwt_hat_index al_pwt_index al_pwt_active al_iter al_ex].
    rewrite Hop1, Hasync, Hcfg1, Hlen1, Hasync.
    repeat split; try done.
    - unfold pwt_name_. by rewrite Hcfg.
    - rewrite Hiter1. rewrite Hit0 at 1.
      rewrite next_cursor_set_current by (done || lia). by destruct it0. }
  intros l _. by apply does_ret.
Qed.

End AsyncSteps.

(** X3 -- all the steps of [FitOnline] with [async] set, as the log has
    them, for an iterator whose [update_after] has a length that fits in an
    [int].  The score cache is cleared and the operation 0 is launched on
    [pwt].  The iteration that handles the operation [k] reads the weights
    of index [k]; launches the operation [k + 1], when there is a group
    [k + 1], on the matrix [pwt] for [k = 0] and on [pwt(k+1)] after that;
    waits for the operation [k]; merges [nwt_hat k] into [nwt] and disposes
    it; regularizes, and normalizes into [pwt(k+2)], or into [pwt] in the
    last iteration; and disposes [pwt k], and [pwt(k+1)] too in the last
    iteration. *)
Theorem FitOnline_async_steps (fuel : nat) (args : FitOnlineMasterModelArgs)
  (s : State) (c : MasterModelConfig) :
  let it0 :=
    mkOnlineBatchesIterator (fo_batch_filename args) (fo_batch_weight args)
      (fo_update_after args) (fo_apply_weight args) (fo_decay_weight args) 0 in
  let out := FitOnline fuel args s in
  config (world s) = Some c ->
  fo_async args = true ->
  size (fo_update_after args) <= INT_MAX ->
  exists l,
    history out.2 = history s ++ l
    /\ omap step_view l `prefix_of` async_steps it0 c
    /\ (is_ok out.1 = true -> omap step_view l = async_steps it0 c).
Proof.
  intros it0 out Hc Hasync Hsize.
  destruct (does_run step_view _ _ _ s
              (does_ExecuteAsyncOnlineAlgorithm_steps it0 c eq_refl Hsize fuel
                 (ArtmExecutor_new c) eq_refl eq_refl))
    as (l & Hh & Hpre & Hok).
  assert (out = (let* _ := ExecuteAsyncOnlineAlgorithm fuel
                             (ArtmExecutor_new c) it0 in ret tt) s) as ->.
  { unfold out, FitOnline, bind at 1, gets. rewrite Hc, Hasync. reflexivity. }
  exists l. unfold bind.
  destruct (ExecuteAsyncOnlineAlgorithm fuel (ArtmExecutor_new c) it0 s)
    as [[r|f] s']; cbn [fst snd is_ok] in *; auto.
Qed.

(** ** The export format read back *)

(** A chunk as [ExportModel] writes it: the decimal length, then the
    bytes, with nothing in between. *)
Definition frame (str : list byte) : list byte :=
  String.list_byte_of_string (pretty (size str)) ++ str.

(** The byte strings that [ImportModel] reads back from their frame: not
    empty, of a length that fits in an [int], and not starting with a
    decimal digit, which would be read as one more digit of the length. *)
Definition framable (str : list byte) : bool :=
  (size str <=? INT_MAX)
  && match str with
     | b :: _ => negb (is_digit b)
     | [] => false
     end.

(** The target of [ImportModel] after the chunks [tms], parsed from the
    stream, were applied to [target] in order. *)
Definition import_chunks (name : string) (tms : list TopicModel)
  (target : option PhiMatrix) : option PhiMatrix :=
  fold_left
    (fun target tm =>
       Some (ApplyTopicModelOperation K (tm_set_name name tm) (float_one K)
               (match target with
                | Some t => t
                | None => DensePhiMatrix name (tm_topic_name tm)
                end)))
    tms target.

Lemma pretty_N_char_digit d :
  (d < 10)%N ->
  is_digit (Ascii.byte_of_ascii (pretty_N_char d)) = true
  /\ Z.of_N (Byte.to_N (Ascii.byte_of_ascii (pretty_N_char d))) - 48
     = Z.of_N d.
Proof.
  intros H.
  assert (d = 0 \/ d = 1 \/ d = 2 \/ d = 3 \/ d = 4 \/ d = 5 \/ d = 6
          \/ d = 7 \/ d = 8 \/ d = 9)%N as Hd by lia.
  repeat (destruct Hd as [->|Hd]; [by vm_compute|]). subst. by vm_compute.
Qed.

Lemma digits_stop acc l :
  match l with b :: _ => is_digit b = false | [] => True end ->
  digits acc l = (acc, l).
Proof. destruct l as [|b l]; [done|]. simpl. by intros ->. Qed.

Lemma digits_pretty_N_go x :
  exists p : Z, forall s acc l,
    digits acc (String.list_byte_of_string (pretty_N_go x s) ++ l)
    = digits (acc * p + Z.of_N x) (String.list_byte_of_string s ++ l).
Proof.
  induction (N.lt_wf_0 x) as [x _ IH].
  destruct (decide (x = 0)%N) as [->|Hx].
  { exists 1. intros s acc l. rewrite pretty_N_go_0. f_equal. lia. }
  destruct (IH (x `div` 10)%N) as [p Hp]; [apply N.div_lt; lia|].
  exists (10 * p). intros s acc l.
  rewrite pretty_N_go_step by lia. rewrite Hp.
  destruct (pretty_N_char_digit (x `mod` 10)%N) as [Hd Hv];
    [apply N.mod_lt; lia|].
  unfold String.list_byte_of_string. cbn [String.list_ascii_of_string map app].
  cbn [digits]. rewrite Hd, Hv. f_equal.
  pose proof (N.div_mod x 10 ltac:(lia)) as E.
  apply (f_equal Z.of_N) in E. rewrite N2Z.inj_add, N2Z.inj_mul in E.
  change (Z.of_N 10) with 10 in E. lia.
Qed.

Lemma pretty_N_go_head x : forall s,
  (0 < x)%N
  \/ (exists ch s', s = String ch s'
                   /\ is_digit (Ascii.byte_of_ascii ch) = true) ->
  exists ch s', pretty_N_go x s = String ch s'
                /\ is_digit (Ascii.byte_of_ascii ch) = true.
Proof.
  induction (N.lt_wf_0 x) as [x _ IH]. intros s H.
  destruct (decide (x = 0)%N) as [->|Hx].
  { rewrite pretty_N_go_0. destruct H as [H|H]; [lia|done]. }
  rewrite pretty_N_go_step by lia.
  apply IH; [apply N.div_lt; lia|]. right. eexists _, _. split; [done|].
  apply pretty_N_char_digit, N.mod_lt. lia.
Qed.

(** The decimal digits of a number that is not negative, read back. *)
Lemma digits_pretty (n : Z) l :
  0 <= n ->
  match l with b :: _ => is_digit b = false | [] => True end ->
  digits 0 (String.list_byte_of_string (pretty n) ++ l) = (n, l)
  /\ exists b ds, String.list_byte_of_string (pretty n) = b :: ds
                  /\ is_digit b = true.
Proof.
  intros Hn Hl. destruct n as [|x|x]; [| |lia].
  - split; [|by eexists _, _]. simpl. by apply digits_stop.
  - assert (pretty (Z.pos x) = pretty_N_go (N.pos x) EmptyString) as ->
      by done.
    split.
    + destruct (digits_pretty_N_go (N.pos x)) as [p Hp]. rewrite Hp.
      simpl. by apply digits_stop.
    + destruct (pretty_N_go_head (N.pos x) EmptyString) as (ch & s' & -> & Hd);
        [left; lia|].
      by eexists _, _.
Qed.

Lemma is_digit_not_space b : is_digit b = true -> is_space b = false.
Proof.
  unfold is_digit, is_space. cbv zeta. intros H.
  apply andb_true_iff in H as [H1 H2].
  apply N.leb_le in H1, H2.
  apply orb_false_iff. split.
  - apply andb_false_iff. right. apply N.leb_gt. lia.
  - apply N.eqb_neq. lia.
Qed.

Lemma is_digit_not_sign b :
  is_digit b = true -> b ≠ "-"%byte /\ b ≠ "+"%byte.
Proof. intros H. split; intros ->; by vm_compute in H. Qed.

(** [fin >> length] on a frame followed by [more]. *)
Lemma extract_int_frame v str more :
  framable str = true ->
  extract_int v (mkIfstream (frame str ++ more) false false)
  = (size str, mkIfstream (str ++ more) false false).
Proof.
  intros Hf. apply andb_true_iff in Hf as [Hmax Hhead].
  apply Z.leb_le in Hmax.
  destruct str as [|b0 str0] eqn:Estr; [done|]. rewrite <- Estr in *.
  assert (match str ++ more with
          | b :: _ => is_digit b = false
          | [] => True
          end) as Hstop.
  { rewrite Estr. simpl. by apply negb_true_iff. }
  assert (0 <= size str) as Hsz by (unfold size; lia).
  destruct (digits_pretty (size str) (str ++ more) Hsz Hstop)
    as (Hdig & b & ds & Eb & Hb).
  unfold extract_int, frame, good. cbn [rest eofbit failbit negb andb].
  rewrite <- app_assoc. rewrite Eb in *. cbn [app skipws].
  rewrite (is_digit_not_space b Hb).
  destruct (is_digit_not_sign b Hb) as [Hm Hp].
  rewrite (bool_decide_eq_false_2 _ Hm), (bool_decide_eq_false_2 _ Hp).
  change (b :: ds ++ str ++ more) with ((b :: ds) ++ str ++ more).
  rewrite Hdig.
  rewrite (bool_decide_eq_false_2 (str ++ more = []))
    by (rewrite Estr; simpl; done).
  rewrite (bool_decide_eq_false_2 (length _ = length _))
    by (rewrite !length_app; simpl; lia).
  destruct (decide (size str > INT_MAX)); [lia|].
  destruct (decide (size str < INT_MIN)); [unfold INT_MIN in *; lia|].
  reflexivity.
Qed.

(** [fin.read(&buffer[0], length)] on the bytes of the chunk. *)
Lemma read_frame str more :
  read (size str) (mkIfstream (str ++ more) false false)
  = (str, mkIfstream more false false).
Proof.
  unfold read, good, size. cbn [rest eofbit failbit negb andb].
  rewrite Nat2Z.id, take_app_length, drop_app_length.
  destruct (decide (length str < length str)%nat); [lia|done].
Qed.

Lemma ImportModel_loop_framed name : forall strs tms target fuel,
  Forall2 (fun str tm => framable str = true
                         /\ ParseFromArray K str = Some tm) strs tms ->
  (length strs < fuel)%nat ->
  ImportModel_loop fuel name (mkIfstream (flat_map frame strs) false false)
                   target
  = Ok (import_chunks name tms target).
Proof.
  intros strs tms target fuel H. revert target fuel.
  induction H as [|str tm strs tms [Hf Hp] _ IH]; intros target fuel Hfuel.
  - destruct fuel as [|fuel]; [simpl in Hfuel; lia|]. reflexivity.
  - destruct fuel as [|fuel]; [simpl in Hfuel; lia|].
    cbn [ImportModel_loop flat_map eofbit]. unfold ImportModel_body.
    rewrite (extract_int_frame _ _ _ Hf). cbn [eofbit].
    assert (0 < size str) as Hpos.
    { apply andb_true_iff in Hf as [_ Hh]. unfold size.
      destruct str; [done|simpl; lia]. }
    destruct (decide (size str <= 0)); [lia|].
    rewrite read_frame, Hp. rewrite IH by (simpl in Hfuel; lia).
    reflexivity.
Qed.

(** [ImportModel] on a file that holds the version byte 0 and the frames
    of byte strings that parse. *)
Lemma ImportModel_framed fuel args s strs tms :
  files (world s) !! ima_file_name args = Some (x00 :: flat_map frame strs) ->
  Forall2 (fun str tm => framable str = true
                         /\ ParseFromArray K str = Some tm) strs tms ->
  (length strs < fuel)%nat ->
  ImportModel fuel args s
  = match import_chunks (import_model_name (world s) args) tms None with
    | Some target =>
        (Ok tt, installed (import_model_name (world s) args) target s)
    | None => (Throw CorruptedMessageException, s)
    end.
Proof.
  intros Hfile Hall Hfuel. rewrite ImportModel_eq, Hfile.
  assert (extract_char (indeterminate_char K)
            (mkIfstream (x00 :: flat_map frame strs) false false)
          = (x00, mkIfstream (flat_map frame strs) false false)) as ->
    by reflexivity.
  rewrite bool_decide_eq_true_2 by done. cbn [negb].
  by rewrite (ImportModel_loop_framed _ _ _ _ _ Hall Hfuel).
Qed.

Lemma import_chunks_Some name tms t :
  is_Some (import_chunks name tms (Some t)).
Proof.
  revert t. unfold import_chunks.
  induction tms as [|tm tms IH]; intros t; simpl; [by eexists|apply IH].
Qed.

(** The tokens of the chunks that [ExportModel] writes are the tokens of
    the matrix. *)
Lemma ExportModel_chunks_tokens name n_wt chunks :
  ExportModel_chunks name n_wt = Some chunks ->
  flat_map gtm_token chunks = keyword <$> token n_wt.
Proof.
  unfold ExportModel_chunks. intros H.
  destruct (tokens_per_chunk n_wt) as [tpc|]; [|done]. simpl in H.
  destruct (ExportModel_loop_inv n_wt tpc (Z.to_nat (token_size n_wt)) 0
              (mkGetTopicModelArgs (Some name) (Some RequestType_Nwt)
                 (Some MatrixLayout_Sparse) [] [], []))
    as ([pending chunks'] & E & Ht & _ & _ & _ & Hend).
  { unfold token_size. lia. }
  { unfold export_inv, size. simpl.
    repeat split; try done; try constructor. lia. }
  rewrite E in H. simpl in H. injection H as <-.
  simpl in *. destruct Hend as [Hp _]; [done|].
  rewrite Hp, app_nil_r, firstn_all in Ht. done.
Qed.

(** X4 -- a matrix exported by [ExportModel] is read back by [ImportModel]
    chunk by chunk: when the file did not exist and can be created, the
    matrix has a token, and every chunk is serialized into a byte string
    that is not empty, does not start with a decimal digit, is no longer
    than [INT_MAX] and parses, the export returns, and the import of this
    file returns and registers the matrix made by applying the parsed
    chunks, in the order of writing, with weight 1 to a new matrix over the
    topics of the first chunk. *)
Theorem ExportModel_ImportModel (eargs : ExportModelArgs)
  (iargs : ImportModelArgs) (s : State) (n_wt : PhiMatrix)
  (chunks : list GetTopicModelArgs) (tms : list TopicModel) (fuel : nat) :
  let ename :=
    match config (world s), ema_model_name eargs with
    | Some c, None => pwt_name c
    | _, o => str_or_empty o
    end in
  let iname := import_model_name (world s) iargs in
  files (world s) !! ema_file_name eargs = None ->
  can_create K (world s) (ema_file_name eargs) = true ->
  models_ (world s) !! ename = Some n_wt ->
  token_size n_wt ≠ 0 ->
  ExportModel_chunks ename n_wt = Some chunks ->
  Forall2 (fun a tm =>
             let str :=
               SerializeAsString K (RetrieveExternalTopicModel K n_wt a) in
             framable str = true /\ ParseFromArray K str = Some tm)
          chunks tms ->
  ima_file_name iargs = ema_file_name eargs ->
  (length chunks < fuel)%nat ->
  exists s1 target,
    ExportModel eargs s = (Ok tt, s1)
    /\ import_chunks iname tms None = Some target
    /\ ImportModel fuel iargs s1 = (Ok tt, installed iname target s1).
Proof.
  intros ename iname Hfile Hcreate Hmodel Htokens Hchunks Hall Hname Hfuel.
  pose proof (ExportModel_writes eargs s n_wt chunks Hfile Hcreate Hmodel
                Htokens Hchunks) as Hexp.
  match type of Hexp with _ = (_, ?st) => set (s1 := st) in * end.
  assert (import_model_name (world s1) iargs = iname) as Hiname by done.
  assert (is_Some (import_chunks iname tms None)) as [target Ht].
  { destruct Hall as [|a tm chunks' tms' _ _].
    - apply ExportModel_chunks_tokens in Hchunks. simpl in Hchunks.
      unfold token_size in Htokens. destruct (token n_wt); [done|].
      discriminate.
    - apply import_chunks_Some. }
  exists s1, target. split; [done|]. split; [done|].
  rewrite (ImportModel_framed fuel iargs s1
             (map (fun a => SerializeAsString K
                               (RetrieveExternalTopicModel K n_wt a)) chunks)
             tms).
  - by rewrite Hiname, Ht.
  - unfold s1. cbn [world files with_files]. rewrite Hname.
    rewrite lookup_insert_eq. f_equal. f_equal.
    clear. induction chunks as [|a chunks' IH']; [done|].
    simpl. by rewrite IH'.
  - by apply Forall2_fmap_l.
  - by rewrite length_map.
Qed.

(** X5 -- [ImportModel] on a file that holds one chunk does what
    [OverwriteTopicModel] does with the topic model parsed from the chunk,
    once it carries the name under which the import registers the matrix:
    a new matrix over the topics of the model, with the model applied with
    weight 1, replaces whatever the registry held under this name. *)
Theorem ImportModel_OverwriteTopicModel (fuel : nat) (args : ImportModelArgs)
  (s : State) (str : list byte) (tm : TopicModel) :
  let name := import_model_name (world s) args in
  files (world s) !! ima_file_name args = Some (x00 :: frame str) ->
  framable str = true ->
  ParseFromArray K str = Some tm ->
  (2 <= fuel)%nat ->
  ImportModel fuel args s = OverwriteTopicModel (tm_set_name name tm) s
  /\ ImportModel fuel args s
     = (Ok tt,
        installed name
          (ApplyTopicModelOperation K (tm_set_name name tm) (float_one K)
             (DensePhiMatrix name (tm_topic_name tm))) s).
Proof.
  intros name Hfile Hf Hp Hfuel.
  assert (ImportModel fuel args s
          = (Ok tt,
             installed name
               (ApplyTopicModelOperation K (tm_set_name name tm) (float_one K)
                  (DensePhiMatrix name (tm_topic_name tm))) s)) as E.
  { rewrite (ImportModel_framed fuel args s [str] [tm]).
    - reflexivity.
    - cbn [flat_map]. by rewrite app_nil_r.
    - by repeat constructor.
    - simpl. lia. }
  split; [|exact E]. rewrite E.
  unfold OverwriteTopicModel. rewrite bind_gets.
  cbn [tm_name tm_set_name str_or_empty default tm_topic_name].
  by destruct (config (world s)).
Qed.

(** ** What a failed export leaves behind *)

Lemma ExportModel_existing args s :
  is_Some (files (world s) !! ema_file_name args) ->
  ExportModel args s = (Throw DiskWriteException, s).
Proof.
  intros H. unfold ExportModel. rewrite !bind_gets.
  by rewrite bool_decide_eq_true_2.
Qed.

(** X6 -- [ExportModel] never writes to a file that exists: it throws
    DiskWriteException and changes nothing.  It creates the file before it
    looks up the matrix: when the file did not exist and could be created,
    every failure of the export (the matrix is missing, or has no token,
    which is reported as InvalidOperation) leaves the file behind, empty,
    so that every later export to this file name throws
    DiskWriteException. *)
Theorem ExportModel_failure_leaves_file (args : ExportModelArgs) (s : State) :
  let file := ema_file_name args in
  let name :=
    match config (world s), ema_model_name args with
    | Some c, None => pwt_name c
    | _, o => str_or_empty o
    end in
  let created :=
    mkState (with_files (insert file []) (world s)) (history s) in
  (is_Some (files (world s) !! file) ->
   ExportModel args s = (Throw DiskWriteException, s))
  /\ (files (world s) !! file = None ->
      can_create K (world s) file = true ->
      (forall f s', ExportModel args s = (Fail f, s') ->
         s' = created
         /\ forall args', ema_file_name args' = file ->
              ExportModel args' s' = (Throw DiskWriteException, s'))
      /\ (forall n_wt, models_ (world s) !! name = Some n_wt ->
            token_size n_wt = 0 ->
            ExportModel args s = (Throw InvalidOperation, created))).
Proof.
  intros file name created. split; [apply ExportModel_existing|].
  intros Hfile Hcreate.
  assert (forall args', ema_file_name args' = file ->
            ExportModel args' created = (Throw DiskWriteException, created))
    as Hretry.
  { intros args' E. apply ExportModel_existing.
    unfold created. cbn [world files with_files]. rewrite E.
    rewrite lookup_insert_eq. by eexists. }
  assert (ExportModel args s
          = match models_ (world s) !! name with
            | None => (Throw MissingModel, created)
            | Some n_wt =>
                if decide (token_size n_wt = 0)
                then (Throw InvalidOperation, created)
                else
                  match ExportModel_chunks name n_wt with
                  | None => (Undefined, created)
                  | Some chunks =>
                      (Ok tt,
                       mkState
                         (with_files
                            (insert file
                               (x00 :: flat_map (chunk_bytes n_wt) chunks))
                            (world created)) (history s))
                  end
            end) as E.
  { unfold ExportModel. rewrite bind_gets. fold name. cbv zeta.
    rewrite bind_gets. fold file. rewrite Hfile.
    rewrite bool_decide_eq_false_2 by (by intros [? ?]). cbv iota.
    rewrite bind_gets, Hcreate. cbn [negb]. cbv iota.
    rewrite bind_modify. fold created.
    unfold GetPhiMatrixSafe, GetPhiMatrix, bind, gets, ret.
    cbn [world with_files models_ created].
    destruct (models_ (world s) !! name) as [n_wt|]; [|done].
    destruct (decide (token_size n_wt = 0)); [done|].
    unfold defined, modify, ret, undefined.
    by destruct (ExportModel_chunks name n_wt). }
  split.
  - intros f s' Hrun. rewrite E in Hrun.
    assert (s' = created) as ->; [|by split].
    destruct (models_ (world s) !! name) as [n_wt|]; [|by inversion Hrun].
    destruct (decide (token_size n_wt = 0)); [by inversion Hrun|].
    destruct (ExportModel_chunks name n_wt); by inversion Hrun.
  - intros n_wt Hm Ht. rewrite E, Hm. by destruct (decide _).
Qed.

(** ** The tasks that a call enqueues *)

(** The task that [createProcessorInput] builds at the draw [n] of the
    generator of task ids. *)
Definition new_task (args : ProcessBatchesArgs) (bm : nat) (sm : option nat)
  (t p : option CachePtr) (n : nat) : ProcessorInput :=
  mkProcessorInput (random_generator K n) bm sm t p
    (str_or_empty (pba_pwt_source_name args)) args
    (if default false (pba_reuse_theta args) then Some InstanceCache else None)
    (pba_nwt_target_name args) None None None.

(** The state after [createProcessorInput] and the push of the task [pi],
    when the batch manager [bm] held [ids]. *)
Definition pushed (bm : nat) (ids : gset uuid) (pi : ProcessorInput)
  (s : State) : State :=
  mkState
    (with_processor_queue (fun q => q ++ [pi])
       (with_batch_managers (fun l => <[bm := {[pi_task_id pi]} ∪ ids]> l)
          (with_uuid_count S (world s))))
    (history s ++ [EvPush pi]).

Lemma create_push_eq args bm sm t p s ids
  (upd : ProcessorInput -> ProcessorInput) :
  batch_managers (world s) !! bm = Some ids ->
  (forall pi, pi_task_id (upd pi) = pi_task_id pi) ->
  bind (createProcessorInput args bm sm t p
          (str_or_empty (pba_pwt_source_name args)))
       (fun pi => push (upd pi)) s
  = (Ok tt,
     pushed bm ids (upd (new_task args bm sm t p (uuid_count (world s)))) s).
Proof.
  intros Hb Hupd.
  unfold createProcessorInput, BatchManager_Add, push, bind, gets, modify, log,
    defined, ret. simpl. rewrite Hb. simpl.
  unfold pushed, new_task. by rewrite Hupd.
Qed.

(** What the enqueue loops have done so far: the tasks [tasks] are on the
    queue behind those that were there, their ids are in the batch manager,
    and as many task ids were drawn. *)
Definition enqueued_tasks (bm : nat) (ids0 : gset uuid) (s0 : State)
  (tasks : list ProcessorInput) (s : State) : Prop :=
  processor_queue (world s) = processor_queue (world s0) ++ tasks
  /\ history s = history s0 ++ (EvPush <$> tasks)
  /\ batch_managers (world s) !! bm
     = Some (list_to_set (pi_task_id <$> tasks) ∪ ids0)
  /\ uuid_count (world s) = (uuid_count (world s0) + length tasks)%nat
  /\ models_ (world s) = models_ (world s0).

Lemma enqueue_loop_tasks args bm sm t p ids0 s0
  (body : nat -> unit -> M unit)
  (upd : nat -> ProcessorInput -> ProcessorInput) n0 n :
  forall i tasks s,
  (forall j s1, (i <= j < i + n)%nat ->
     body j tt s1
     = bind (createProcessorInput args bm sm t p
               (str_or_empty (pba_pwt_source_name args)))
            (fun pi => push (upd j pi)) s1) ->
  (forall j pi, pi_task_id (upd j pi) = pi_task_id pi) ->
  enqueued_tasks bm ids0 s0 tasks s ->
  uuid_count (world s) = (n0 + i)%nat ->
  exists s',
    for_each (seq i n) body tt s = (Ok tt, s')
    /\ enqueued_tasks bm ids0 s0
         (tasks ++ map (fun j => upd j (new_task args bm sm t p (n0 + j)))
                       (seq i n)) s'.
Proof.
  induction n as [|n IH]; intros i tasks s Hbody Hupd Hinv Hn; simpl.
  - exists s. by rewrite app_nil_r.
  - pose proof Hinv as (Hq & Hh & Hb & Hu & Hm).
    unfold bind at 1. rewrite Hbody by lia.
    rewrite (create_push_eq args bm sm t p s _ (upd i) Hb (Hupd i)).
    rewrite Hn.
    set (pi := upd i (new_task args bm sm t p (n0 + i))).
    destruct (IH (S i) (tasks ++ [pi])
                (pushed bm (list_to_set (pi_task_id <$> tasks) ∪ ids0) pi s))
      as (s' & Hrun & Hinv');
      [intros; apply Hbody; lia|done| |simpl; lia|].
    { unfold enqueued_tasks, pushed. simpl.
      rewrite Hq, Hh, Hm, Hu, !fmap_app, <- !app_assoc, length_app. simpl.
      repeat split; try done; [|lia].
      rewrite list_lookup_insert_eq by (by eapply lookup_lt_Some).
      f_equal. rewrite list_to_set_app_L. simpl. set_solver. }
    exists s'. split; [done|]. by rewrite <- app_assoc in Hinv'.
Qed.

Lemma for_each_app {I A : Type} (l1 l2 : list I) (body : I -> A -> M A)
  (acc : A) s :
  for_each (l1 ++ l2) body acc s
  = bind (for_each l1 body acc) (for_each l2 body) s.
Proof.
  revert acc s. induction l1 as [|i l1 IH]; intros acc s; [done|].
  simpl. unfold bind.
  destruct (body i acc s) as [[a|f] s1]; [|done]. by rewrite IH.
Qed.

(** X7 -- the enqueue loops of ProcessBatches, for a batch manager that
    holds [ids0] and with a weight for every index used: one task for each
    batch file name, in order, then one for each inline batch, in order,
    are put on the queue behind the tasks that were there.  The task of the
    file name at index [j] carries [batch_weight[j]]; the task of the
    inline batch at index [j] carries [batch_weight[j]] too: the weights
    are read from index 0 again.  The task ids are consecutive draws of
    the generator and are all recorded in the batch manager.  With fewer
    weights than batch file names the loop reads outside [batch_weight]. *)
Theorem ProcessBatches_enqueue_tasks (args : ProcessBatchesArgs) (bm : nat)
  (sm : option nat) (t p : option CachePtr) (ids0 : gset uuid) (s : State) :
  let nf := length (pba_batch_filename args) in
  let nb := length (pba_batch args) in
  let n0 := uuid_count (world s) in
  batch_managers (world s) !! bm = Some ids0 ->
  ((nf <= length (pba_batch_weight args))%nat ->
   (nb <= length (pba_batch_weight args))%nat ->
   exists tasks s',
     ProcessBatches_enqueue args bm sm t p s = (Ok tt, s')
     /\ processor_queue (world s') = processor_queue (world s) ++ tasks
     /\ length tasks = (nf + nb)%nat
     /\ (forall j f w,
           pba_batch_filename args !! j = Some f ->
           pba_batch_weight args !! j = Some w ->
           tasks !! j
           = Some (set_batch_filename f w
                     (new_task args bm sm t p (n0 + j))))
     /\ (forall j b w,
           pba_batch args !! j = Some b ->
           pba_batch_weight args !! j = Some w ->
           tasks !! (nf + j)%nat
           = Some (set_batch b w (new_task args bm sm t p (n0 + nf + j))))
     /\ batch_managers (world s') !! bm
        = Some (list_to_set (pi_task_id <$> tasks) ∪ ids0)
     /\ uuid_count (world s') = (n0 + nf + nb)%nat)
  /\ ((length (pba_batch_weight args) < nf)%nat ->
      (ProcessBatches_enqueue args bm sm t p s).1 = Undefined).
Proof.
  intros nf nb n0 Hbm.
  set (body1 := fun batch_index (_ : unit) =>
                  let* pi := createProcessorInput args bm sm t p
                               (str_or_empty (pba_pwt_source_name args)) in
                  let* f := defined (pba_batch_filename args !! batch_index) in
                  let* w := defined (pba_batch_weight args !! batch_index) in
                  push (set_batch_filename f w pi)).
  set (body2 := fun batch_index (_ : unit) =>
                  let* pi := createProcessorInput args bm sm t p
                               (str_or_empty (pba_pwt_source_name args)) in
                  let* b := defined (pba_batch args !! batch_index) in
                  let* w := defined (pba_batch_weight args !! batch_index) in
                  push (set_batch b w pi)).
  set (upd1 := fun j pi =>
                 match pba_batch_filename args !! j, pba_batch_weight args !! j
                 with
                 | Some f, Some w => set_batch_filename f w pi
                 | _, _ => pi
                 end).
  set (upd2 := fun j pi =>
                 match pba_batch args !! j, pba_batch_weight args !! j with
                 | Some b, Some w => set_batch b w pi
                 | _, _ => pi
                 end).
  assert (forall j pi, pi_task_id (upd1 j pi) = pi_task_id pi) as Hupd1.
  { intros j pi. unfold upd1.
    by destruct (pba_batch_filename args !! j), (pba_batch_weight args !! j). }
  assert (forall j pi, pi_task_id (upd2 j pi) = pi_task_id pi) as Hupd2.
  { intros j pi. unfold upd2.
    by destruct (pba_batch args !! j), (pba_batch_weight args !! j). }
  assert (forall j s1,
            (j < nf)%nat -> (j < length (pba_batch_weight args))%nat ->
            body1 j tt s1
            = bind (createProcessorInput args bm sm t p
                      (str_or_empty (pba_pwt_source_name args)))
                   (fun pi => push (upd1 j pi)) s1) as Hbody1.
  { intros j s1 Hj Hw. unfold body1, upd1.
    destruct (lookup_lt_is_Some_2 (pba_batch_filename args) j Hj) as [f Ef].
    destruct (lookup_lt_is_Some_2 (pba_batch_weight args) j Hw) as [w Ew].
    rewrite Ef, Ew. unfold bind.
    by destruct (createProcessorInput _ _ _ _ _ _ s1) as [[pi|?] ?]. }
  assert (enqueued_tasks bm ids0 s [] s) as Hinv0.
  { unfold enqueued_tasks. simpl. rewrite !app_nil_r, Hbm.
    repeat split; try done; try lia. f_equal. set_solver. }
  split.
  - intros Hf Hb.
    destruct (enqueue_loop_tasks args bm sm t p ids0 s body1 upd1 n0 nf 0%nat
                [] s) as (s1 & Hrun1 & Hinv1);
      [intros; apply Hbody1; lia|done|done|unfold n0; lia|].
    destruct (enqueue_loop_tasks args bm sm t p ids0 s body2 upd2 (n0 + nf) nb
                0%nat
                ([] ++ map (fun j => upd1 j (new_task args bm sm t p (n0 + j)))
                           (seq 0 nf)) s1) as (s2 & Hrun2 & Hinv2);
      [|done|exact Hinv1| |].
    { intros j s' Hj. unfold body2, upd2.
      destruct (lookup_lt_is_Some_2 (pba_batch args) j) as [b Eb];
        [unfold nb in *; lia|].
      destruct (lookup_lt_is_Some_2 (pba_batch_weight args) j) as [w Ew];
        [lia|].
      rewrite Eb, Ew. unfold bind.
      by destruct (createProcessorInput _ _ _ _ _ _ s') as [[pi|?] ?]. }
    { destruct Hinv1 as (_ & _ & _ & Hu & _). rewrite Hu. simpl.
      rewrite length_map, length_seq. unfold n0. lia. }
    destruct Hinv2 as (Hq & _ & Hids & Hu & _).
    eexists _, s2. unfold ProcessBatches_enqueue.
    fold body1 body2 nf nb. unfold bind at 1. rewrite Hrun1, Hrun2.
    split; [done|]. split; [exact Hq|].
    split; [simpl; rewrite length_app, !length_map, !length_seq; lia|].
    split; [|split; [|split; [exact Hids|]]].
    + intros j f w Ef Ew. pose proof (lookup_lt_Some _ _ _ Ef) as Hj.
      simpl. rewrite lookup_app_l by (rewrite length_map, length_seq; done).
      rewrite list_lookup_fmap, lookup_seq_lt by done. simpl.
      unfold upd1. by rewrite Ef, Ew.
    + intros j b w Eb Ew. pose proof (lookup_lt_Some _ _ _ Eb) as Hj.
      simpl. rewrite lookup_app_r by (rewrite length_map, length_seq; lia).
      rewrite length_map, length_seq.
      replace (nf + j - nf)%nat with j by lia.
      rewrite list_lookup_fmap, lookup_seq_lt by done. simpl.
      unfold upd2. by rewrite Eb, Ew.
    + rewrite Hu. simpl. rewrite length_app, !length_map, !length_seq.
      unfold n0. lia.
  - intros Hw. set (m := length (pba_batch_weight args)) in *.
    unfold ProcessBatches_enqueue. fold body1 body2 nf.
    replace nf with (m + S (nf - S m))%nat by lia.
    rewrite seq_app. unfold bind at 1. rewrite for_each_app.
    destruct (enqueue_loop_tasks args bm sm t p ids0 s body1 upd1 n0 m 0%nat
                [] s) as (s1 & Hrun1 & Hinv1);
      [intros; apply Hbody1; lia|done|done|unfold n0; lia|].
    unfold bind at 1. rewrite Hrun1. cbn [seq for_each Nat.add].
    unfold bind at 1, body1 at 1.
    destruct Hinv1 as (_ & _ & Hb1 & _).
    unfold createProcessorInput, BatchManager_Add, bind, gets, modify, defined,
      ret. simpl. rewrite Hb1. simpl.
    destruct (lookup_lt_is_Some_2 (pba_batch_filename args) m) as [f Ef];
      [lia|].
    rewrite Ef. simpl.
    rewrite (lookup_ge_None_2 (pba_batch_weight args) m) by (unfold m; lia).
    reflexivity.
Qed.

(** ** Merge, Regularize and Normalize *)

(** One source of a merge added to the target: a source without token is
    not applied. *)
Definition merge_into (m : PhiMatrix) (w : float) (t : PhiMatrix)
  : PhiMatrix :=
  if decide (token_size m > 0)
  then ApplyTopicModelOperation K
         (RetrieveExternalTopicModel K m
            (mkGetTopicModelArgs None None None [] [])) w t
  else t.

(** X8 -- the step Merge of the executor, which merges [nwt] and [nwt_hat]
    into [nwt]: when [nwt] is not in the registry (as in the first
    iteration of an online schedule) the decay weight is not used and the
    new [nwt] is [nwt_hat] applied with the apply weight to an empty
    matrix over the topics of [nwt_hat]; when both are there, [nwt] is
    applied with the decay weight, then [nwt_hat] with the apply weight, to
    an empty matrix over the topics of [nwt]; when none is there the step
    throws InvalidOperation. *)
Theorem ArtmExecutor_Merge (nwt nwt_hat : string) (d a : float) (s : State) :
  let s1 := mkState (world s) (history s ++ [EvMerge nwt d nwt_hat a]) in
  Merge nwt d nwt_hat a s
  = match models_ (world s) !! nwt, models_ (world s) !! nwt_hat with
    | None, None => (Throw InvalidOperation, s1)
    | Some n, None =>
        (Ok tt,
         installed nwt (merge_into n d (DensePhiMatrix nwt (topic_name n))) s1)
    | None, Some h =>
        (Ok tt,
         installed nwt (merge_into h a (DensePhiMatrix nwt (topic_name h))) s1)
    | Some n, Some h =>
        (Ok tt,
         installed nwt
           (merge_into h a
              (merge_into n d (DensePhiMatrix nwt (topic_name n)))) s1)
    end.
Proof.
  intros s1. unfold Merge, bind at 1, log. fold s1.
  set (args := mkMergeModelArgs [nwt; nwt_hat] [d; a] (Some nwt) []).
  unfold MergeModel. cbn [args mma_nwt_source_name mma_source_weight length].
  destruct (decide (2 = 0)%nat) as [?|_]; [lia|].
  destruct (decide (2 ≠ 2)%nat) as [?|_]; [done|].
  unfold bind. rewrite (MergeModel_loop args s1 2 0 None eq_refl eq_refl).
  unfold present_sources.
  cbn [args mma_nwt_source_name mma_source_weight mma_nwt_target_name drop zip
       zip_with omap list_omap fst snd s1 world str_or_empty default].
  unfold SetPhiMatrix, installed, bind, log, modify, throw.
  destruct (models_ (world s) !! nwt) as [n|];
    destruct (models_ (world s) !! nwt_hat) as [h|];
    cbn [fmap option_fmap option_map fold_left merge_source fst snd
         mma_topic_name mma_nwt_target_name length Nat.eqb negb str_or_empty
         default args];
    reflexivity.
Qed.

Lemma GetPhiMatrixSafe_state name s :
  (GetPhiMatrixSafe name s).2 = s.
Proof.
  unfold GetPhiMatrixSafe, GetPhiMatrix, bind, gets.
  by destruct (models_ (world s) !! name).
Qed.

(** X9 -- MergeModel, RegularizeModel and NormalizeModel write the
    registry in their last statement only: whenever one of them fails,
    with any exception, the state is what it was before the call. *)
Theorem Merge_Regularize_Normalize_atomic (s : State) :
  (forall a f s', MergeModel a s = (Fail f, s') -> s' = s)
  /\ (forall a f s', RegularizeModel a s = (Fail f, s') -> s' = s)
  /\ (forall a f s', NormalizeModel a s = (Fail f, s') -> s' = s).
Proof.
  split; [|split]; intros a f s' Hrun.
  - unfold MergeModel in Hrun.
    destruct (decide (length (mma_nwt_source_name a) = 0%nat));
      [by inversion Hrun|].
    destruct (decide (length (mma_nwt_source_name a)
                      ≠ length (mma_source_weight a))) as [|Heq];
      [by inversion Hrun|].
    apply dec_stable in Heq. unfold bind in Hrun.
    rewrite (MergeModel_loop a s _ 0 None Heq) in Hrun by lia.
    destruct (fold_left _ _ _); by inversion Hrun.
  - unfold RegularizeModel in Hrun.
    repeat (destruct (negb _); [by inversion Hrun|]).
    unfold bind in Hrun.
    pose proof (GetPhiMatrixSafe_state
                  (str_or_empty (rma_nwt_source_name a)) s) as E1.
    destruct (GetPhiMatrixSafe _ s) as [[n|f1] s1]; simpl in E1; subst s1;
      [|by inversion Hrun].
    pose proof (GetPhiMatrixSafe_state
                  (str_or_empty (rma_pwt_source_name a)) s) as E2.
    destruct (GetPhiMatrixSafe _ s) as [[p|f2] s2]; simpl in E2; subst s2;
      [|by inversion Hrun].
    by inversion Hrun.
  - unfold NormalizeModel in Hrun.
    repeat (destruct (negb _); [by inversion Hrun|]).
    unfold bind in Hrun.
    pose proof (GetPhiMatrixSafe_state
                  (str_or_empty (nma_nwt_source_name a)) s) as E1.
    destruct (GetPhiMatrixSafe _ s) as [[n|f1] s1]; simpl in E1; subst s1;
      [|by inversion Hrun].
    destruct (nma_rwt_source_name a) as [r|]; [|by inversion Hrun].
    unfold bind in Hrun.
    pose proof (GetPhiMatrixSafe_state (str_or_empty (Some r)) s) as E2.
    destruct (GetPhiMatrixSafe _ s) as [[p|f2] s2]; simpl in E2; subst s2;
      by inversion Hrun.
Qed.

Lemma GetPhiMatrixSafe_eq name s :
  GetPhiMatrixSafe name s
  = match models_ (world s) !! name with
    | Some m => (Ok m, s)
    | None => (Throw MissingModel, s)
    end.
Proof.
  unfold GetPhiMatrixSafe, GetPhiMatrix, bind, gets.
  by destruct (models_ (world s) !! name).
Qed.

Lemma RegularizeModel_eq pwt nwt rwt settings s :
  RegularizeModel (mkRegularizeModelArgs (Some pwt) (Some nwt) (Some rwt)
                                         settings) s
  = match models_ (world s) !! nwt, models_ (world s) !! pwt with
    | Some n, Some p =>
        (Ok tt,
         installed rwt
           (InvokePhiRegularizers K (world s) settings p n
              (Reshape n (DensePhiMatrix rwt (topic_name n)))) s)
    | _, _ => (Throw MissingModel, s)
    end.
Proof.
  unfold RegularizeModel.
  cbn [rma_pwt_source_name rma_nwt_source_name rma_rwt_target_name
       rma_regularizer_settings str_or_empty default].
  unfold Datatypes.id.
  rewrite !bool_decide_eq_true_2 by (by eexists). cbn [negb].
  unfold bind at 1. rewrite GetPhiMatrixSafe_eq.
  destruct (models_ (world s) !! nwt) as [n|]; [|done].
  unfold bind at 1. rewrite GetPhiMatrixSafe_eq.
  destruct (models_ (world s) !! pwt) as [p|]; [|done].
  reflexivity.
Qed.

Lemma NormalizeModel_eq pwt nwt (rwt : option string) s :
  NormalizeModel (mkNormalizeModelArgs (Some pwt) (Some nwt) rwt) s
  = match models_ (world s) !! nwt with
    | None => (Throw MissingModel, s)
    | Some n =>
        let target := Reshape n (DensePhiMatrix pwt (topic_name n)) in
        match rwt with
        | None => (Ok tt, installed pwt (FindPwt K n target) s)
        | Some r =>
            match models_ (world s) !! r with
            | Some r_wt =>
                (Ok tt, installed pwt (FindPwt_rwt K n r_wt target) s)
            | None => (Throw MissingModel, s)
            end
        end
    end.
Proof.
  unfold NormalizeModel.
  cbn [nma_pwt_target_name nma_nwt_source_name nma_rwt_source_name
       str_or_empty default].
  unfold Datatypes.id.
  rewrite !bool_decide_eq_true_2 by (by eexists). cbn [negb].
  unfold bind at 1. rewrite GetPhiMatrixSafe_eq.
  destruct (models_ (world s) !! nwt) as [n|]; [|done].
  destruct rwt as [r|]; [|done].
  unfold bind at 1 2. cbn [str_or_empty default]. unfold Datatypes.id.
  rewrite GetPhiMatrixSafe_eq.
  by destruct (models_ (world s) !! r).
Qed.

(** X10 -- in the executor, a step Regularize that returns is followed by
    a step Normalize that returns, as soon as [nwt] is in the registry:
    with regularizers configured, Regularize has just registered [rwt] and
    Normalize computes [pwt] from [nwt] and this [rwt]; without, Regularize
    does nothing and Normalize computes [pwt] from [nwt] alone.  The new
    [pwt] replaces the entry under this name. *)
Theorem Regularize_then_Normalize (ex ex' : ArtmExecutor)
  (pwt nwt rwt : string) (s s1 : State) :
  let s2 := mkState (world s1) (history s1 ++ [EvNormalize pwt nwt rwt]) in
  let target n_wt :=
    Reshape n_wt (DensePhiMatrix pwt (topic_name n_wt)) in
  Regularize ex pwt nwt rwt s = (Ok ex', s1) ->
  is_Some (models_ (world s) !! nwt) ->
  exists n_wt,
    models_ (world s1) !! nwt = Some n_wt
    /\ if decide (size (rma_regularizer_settings (regularize_model_args_ ex))
                  > 0)
       then exists r_wt,
              models_ (world s1) !! rwt = Some r_wt
              /\ Normalize ex' pwt nwt rwt s1
                 = (Ok tt,
                    installed pwt (FindPwt_rwt K n_wt r_wt (target n_wt)) s2)
       else s1 = mkState (world s) (history s ++ [EvRegularize pwt nwt rwt])
            /\ Normalize ex' pwt nwt rwt s1
               = (Ok tt, installed pwt (FindPwt K n_wt (target n_wt)) s2).
Proof.
  intros s2 target Hreg [n Hn]. unfold Regularize in Hreg.
  unfold bind at 1, log in Hreg.
  destruct (decide (size (rma_regularizer_settings (regularize_model_args_ ex))
                    > 0)) as [Hsome|Hnone].
  - unfold bind in Hreg. rewrite RegularizeModel_eq in Hreg.
    cbn [world] in Hreg. rewrite Hn in Hreg.
    destruct (models_ (world s) !! pwt) as [p|]; [|by inversion Hreg].
    unfold ret, installed in Hreg. injection Hreg as <- <-.
    cbn [world with_models models_].
    assert (is_Some (<[rwt:=InvokePhiRegularizers K (world s)
                          (rma_regularizer_settings (regularize_model_args_ ex))
                          p n (Reshape n (DensePhiMatrix rwt (topic_name n)))]>
                       (models_ (world s)) !! nwt)) as [n' Hn'].
    { destruct (decide (rwt = nwt)) as [->|Hne].
      - rewrite lookup_insert_eq. by eexists.
      - rewrite lookup_insert_ne by done. by eexists. }
    exists n'. split; [done|]. eexists. split; [apply lookup_insert_eq|].
    unfold Normalize, bind at 1, log.
    cbn [set_regularize_model_args regularize_model_args_
         rma_regularizer_settings].
    destruct (decide _) as [_|?]; [|done].
    rewrite NormalizeModel_eq. cbn [world with_models models_].
    rewrite Hn', lookup_insert_eq. reflexivity.
  - unfold ret in Hreg. injection Hreg as <- <-. cbn [world].
    exists n. split; [done|]. split; [done|].
    unfold Normalize, bind at 1, log.
    destruct (decide _) as [?|_]; [done|].
    rewrite NormalizeModel_eq. cbn [world]. rewrite Hn. reflexivity.
Qed.

(** ** What the steps of the offline schedule do (C3) *)






























(** ** FitOffline *)

Lemma does_some_of_does {A V X : Type} (view : Event -> option V) (x0 : X)
  (m : M A) E (Q : A -> Prop) :
  does view m E Q -> does_some view m (fun _ : X => E) (fun _ => Q).
Proof.
  intros Hm s. destruct (Hm s) as (l & Hh & Hr). by exists l, x0.
Qed.

Lemma does_some_then {A B V X : Type} (view : Event -> option V) (m : M A)
  (k : A -> M B) (spec : X -> list V) (Q1 : X -> A -> Prop) E
  (Q2 : X -> B -> Prop) :
  does_some view m spec Q1 ->
  (forall x a, Q1 x a -> does view (k a) E (Q2 x)) ->
  does_some view (bind m k) (fun x => spec x ++ E) Q2.
Proof.
  intros Hm Hk s. destruct (Hm s) as (l1 & x & H1 & R1). unfold bind.
  destruct (m s) as [[a|f] s1]; cbn [fst snd] in *.
  - destruct R1 as [R1 HQ]. destruct (Hk x a HQ s1) as (l2 & H2 & R2).
    exists (l1 ++ l2), x. rewrite H2, H1, app_assoc. split; [done|].
    rewrite omap_app, R1. destruct (k a s1).1.
    + destruct R2 as [-> ?]. done.
    + by apply prefix_app.
  - exists l1, x. split; [done|]. by apply prefix_app_r.
Qed.

Lemma does_some_ExecuteOfflineAlgorithm fuel ex passes iter :
  does_some step_view (ExecuteOfflineAlgorithm fuel ex passes iter)
    (offline_steps (master_model_config_ ex) iter)
    (fun sms _ => length sms = Z.to_nat passes).
Proof.
  unfold ExecuteOfflineAlgorithm, offline_steps.
  apply (does_then step_view [] _ _ [EvClearScoreCache] (fun _ => True)
           (fun sms => flat_map (pass_steps (master_model_config_ ex) iter) sms
                       ++ [EvDisposeModel "rwt"]));
    [apply does_ClearScoreCache|]. intros _ _.
  apply (does_some_then step_view _ _
           (fun sms => flat_map (pass_steps (master_model_config_ ex) iter) sms)
           (fun sms _ => length sms = Z.to_nat passes)
           [EvDisposeModel "rwt"]
           (fun sms _ => length sms = Z.to_nat passes)).
  - intros s.
    destruct (ExecuteOfflineAlgorithm_loop_steps fuel
                (seq 0 (Z.to_nat passes)) ex iter s)
      as (l & sms & Hh & Hr).
    exists l, sms. split; [done|].
    destruct (for_each _ _ _ s).1; [|done].
    destruct Hr as (-> & Hlen & _). split; [done|].
    by rewrite length_seq in Hlen.
  - intros sms st Hlen.
    eapply does_bind_cons; [apply does_Dispose|]. intros _ _.
    by apply does_ret.
Qed.

Section FitOfflineSteps.

Variable ListAllBatches : World -> string -> list string.
Variable FixMessage : FitOfflineMasterModelArgs -> FitOfflineMasterModelArgs.

(** X11 -- [FitOffline] throws InvalidOperation, and does nothing else,
    when the master component has no configuration, and when it is given
    no batch file name and finds none: in memory when no folder is given,
    in the folder otherwise.  With batch file names given, the batches in
    memory and the folder are not looked at and [FixMessage] is not
    applied.  In every other case the executor runs the offline schedule
    over the names given or found, with the passes and weights of the
    arguments that the iterator is built from; when [FixMessage] keeps the
    batch file names, this list of names is never empty. *)
Theorem FitOffline_steps (fuel : nat) (batches_keys : list string)
  (args : FitOfflineMasterModelArgs) (s : State) :
  let out := FitOffline ListAllBatches FixMessage fuel batches_keys args s in
  let found :=
    match fof_batch_folder args with
    | None => batches_keys
    | Some batch_folder => ListAllBatches (world s) batch_folder
    end in
  let args' :=
    if decide (fof_batch_filename args = []) then
      FixMessage (add_batch_filenames found args)
    else args in
  let iter :=
    mkOfflineBatchesIterator (fof_batch_filename args')
                             (fof_batch_weight args') in
  (config (world s) = None -> out = (Throw InvalidOperation, s))
  /\ (fof_batch_filename args = [] -> found = [] ->
      is_Some (config (world s)) -> out = (Throw InvalidOperation, s))
  /\ (forall c, config (world s) = Some c ->
        fof_batch_filename args ≠ [] \/ found ≠ [] ->
        exists l sms,
          history out.2 = history s ++ l
          /\ omap step_view l `prefix_of` offline_steps c iter sms
          /\ (is_ok out.1 = true ->
              length sms = Z.to_nat (fof_passes args')
              /\ omap step_view l = offline_steps c iter sms))
  /\ ((forall a, fof_batch_filename (FixMessage a) = fof_batch_filename a) ->
      fof_batch_filename args ≠ [] \/ found ≠ [] ->
      fof_batch_filename args' ≠ []).
Proof.
  intros out found args' iter.
  assert (forall c, config (world s) = Some c ->
            out = if decide (fof_batch_filename args = []) then
                    if decide (found = []) then (Throw InvalidOperation, s)
                    else
                      (let* _ :=
                         ExecuteOfflineAlgorithm fuel (ArtmExecutor_new c)
                           (fof_passes args') iter in ret tt) s
                  else
                    (let* _ :=
                       ExecuteOfflineAlgorithm fuel (ArtmExecutor_new c)
                         (fof_passes args') iter in ret tt) s) as Hout.
  { intros c Hc. unfold out, FitOffline. rewrite bind_gets, Hc.
    unfold iter, args', found.
    destruct (decide (fof_batch_filename args = [])) as [E|E].
    - rewrite E.
      destruct (decide (size _ = 0)) as [_|Hn]; [|by destruct Hn].
      destruct (fof_batch_folder args) as [folder|].
      + unfold bind, gets, ret, throw. cbn [world fst snd].
        by destruct (decide (ListAllBatches (world s) folder = [])).
      + unfold bind, gets, ret, throw.
        by destruct (decide (batches_keys = [])).
    - destruct (decide (size (fof_batch_filename args) = 0)) as [E0|_];
        [|done].
      unfold size in E0. destruct (fof_batch_filename args); [done|].
      simpl in E0. lia. }
  split; [|split; [|split]].
  - intros Hc. unfold out, FitOffline. by rewrite bind_gets, Hc.
  - intros Hnames Hfound [c Hc]. rewrite (Hout c Hc).
    destruct (decide (fof_batch_filename args = [])); [|done].
    by destruct (decide (found = [])).
  - intros c Hc Hsome.
    assert (out = (let* _ :=
                     ExecuteOfflineAlgorithm fuel (ArtmExecutor_new c)
                       (fof_passes args') iter in ret tt) s) as ->.
    { rewrite (Hout c Hc).
      destruct (decide (fof_batch_filename args = [])); [|done].
      destruct (decide (found = [])); [|done]. by destruct Hsome. }
    destruct (does_some_ExecuteOfflineAlgorithm fuel (ArtmExecutor_new c)
                (fof_passes args') iter s) as (l & sms & Hh & Hr).
    exists l, sms. unfold bind.
    destruct (ExecuteOfflineAlgorithm fuel (ArtmExecutor_new c) _ iter s)
      as [[r|f] s']; cbn [fst snd is_ok] in *.
    + destruct Hr as [-> Hlen]. by repeat split.
    + by repeat split.
  - intros Hfix Hsome. unfold args'.
    destruct (decide (fof_batch_filename args = [])) as [E|E]; [|done].
    rewrite Hfix. cbn [add_batch_filenames fof_batch_filename].
    rewrite E. simpl. by destruct Hsome.
Qed.

End FitOfflineSteps.

(** ** The names made by StringIndex *)

(** X12 -- the name that a [StringIndex] converts to determines its index:
    two indices with the same prefix are converted to the same name only
    when they are equal.  So the matrices [nwt_hat k] of distinct
    operations of an online schedule have distinct names, as have the
    temporary matrices [pwt k], and no [nwt_hat j] is a [pwt k]; and
    [operator-] undoes [operator++] as long as the index fits in an
    [int]. *)
Theorem StringIndex_names_distinct (p : string) (i j : Z) (m n : nat) :
  (to_string (mkStringIndex p i) = to_string (mkStringIndex p j) <-> i = j)
  /\ (nwt_hat_name m = nwt_hat_name n <-> m = n)
  /\ (pwt_temp_name m = pwt_temp_name n <-> m = n)
  /\ nwt_hat_name m ≠ pwt_temp_name n
  /\ (INT_MIN <= i < INT_MAX ->
      offset (incr (mkStringIndex p i)) (-1) = mkStringIndex p i).
Proof.
  assert (forall q x y, q +:+ pretty x = q +:+ pretty y -> x = y :> Z) as Hinj.
  { intros q x y H. apply (inj (String.append q)) in H.
    by apply (inj pretty) in H. }
  repeat split.
  - apply Hinj.
  - by intros ->.
  - intros H. apply Hinj in H. lia.
  - by intros ->.
  - intros H. apply Hinj in H. lia.
  - by intros ->.
  - discriminate.
  - intros Hi. unfold incr, offset. cbn [prefix_ i_].
    rewrite (to_int_small (i + 1)) by (unfold INT_MIN, INT_MAX in *; lia).
    rewrite to_int_small by (unfold INT_MIN, INT_MAX in *; lia).
    f_equal. lia.
Qed.

(** ** Dictionaries *)

Section DictionaryProperties.

Context {DictionaryData Dictionary : Type}.
Variable D : @DictionaryOps DictionaryData Dictionary.

(** X14 -- [CreateDictionary] returns and registers the new dictionary
    under the name of the message, so that a request for this name finds
    it.  It first disposes the dictionary of this name: for a name that is
    not empty this touches no other dictionary, but for the empty name
    [DisposeDictionary] clears the collection, and the new dictionary is
    then the only one left. *)
Theorem CreateDictionary_entries (data : DictionaryData)
  (d : gmap string Dictionary) :
  let name := dd_name D data in
  let out := CreateDictionary D data d in
  out.1 = Ok tt
  /\ out.2 !! name = Some (Dictionary_new D data)
  /\ Request_Dictionary D (mkGetDictionaryArgs (Some name)) out.2
     = (Ok (dd_set_name D name
              (StoreIntoDictionaryData D (Dictionary_new D data))), out.2)
  /\ (name ≠ EmptyString ->
      forall other, other ≠ name -> out.2 !! other = d !! other)
  /\ (name = EmptyString -> out.2 = {[ name := Dictionary_new D data ]}).
Proof.
  intros name out. unfold out, CreateDictionary, DisposeDictionary.
  fold name. destruct (decide (name = EmptyString)) as [E|E]; cbn [fst snd].
  - split; [done|]. split; [apply lookup_insert_eq|]. split; [|split].
    + unfold Request_Dictionary. cbn [gda_dictionary_name str_or_empty default].
      unfold Datatypes.id. by rewrite lookup_insert_eq.
    + done.
    + intros _. by rewrite insert_empty.
  - split; [done|]. split; [apply lookup_insert_eq|]. split; [|split].
    + unfold Request_Dictionary. cbn [gda_dictionary_name str_or_empty default].
      unfold Datatypes.id. by rewrite lookup_insert_eq.
    + intros _ other Hother.
      rewrite lookup_insert_ne by done. by rewrite lookup_delete_ne.
    + done.
Qed.

(** The dictionary that [ImportDictionary] builds from the messages. *)
Definition imported_dictionary (name : string) (front : DictionaryData)
  (others : list DictionaryData) : Dictionary :=
  fold_left (fun dict data => Dictionary_Append D (dd_set_name D name data) dict)
            others (Dictionary_new D (dd_set_name D name front)).

Lemma ImportDictionary_loop name others : forall dict d,
  (forall n x, dd_name D (dd_set_name D n x) = n) ->
  d !! name = Some dict ->
  fold_left
    (fun (acc : Res unit * gmap string Dictionary) data =>
       match acc with
       | (Ok _, d) => AppendDictionary D (dd_set_name D name data) d
       | (Fail f, d) => (Fail f, d)
       end)
    others (Ok tt, d)
  = (Ok tt,
     <[name := fold_left
                 (fun dict data =>
                    Dictionary_Append D (dd_set_name D name data) dict)
                 others dict]> d).
Proof.
  induction others as [|data others IH]; intros dict d Hname Hd; simpl.
  - by rewrite insert_id.
  - unfold AppendDictionary at 2. rewrite Hname, Hd.
    rewrite (IH (Dictionary_Append D (dd_set_name D name data) dict))
      by (done || apply lookup_insert_eq).
    by rewrite insert_insert_eq.
Qed.

(** X15 -- [ImportDictionary] throws CorruptedMessage, and changes
    nothing, when the first message has no token.  Otherwise it returns:
    the dictionary made from the first message and appended with the
    others, in order, is registered under the name of the arguments, in
    place of the dictionary that had this name; appending never throws
    InvalidOperation here, since the dictionary has just been created.  The
    name set on a message is the name read from it. *)
Theorem ImportDictionary_result (front : DictionaryData)
  (others : list DictionaryData) (args : ImportDictionaryArgs)
  (d : gmap string Dictionary) :
  let name := str_or_empty (ida_dictionary_name args) in
  (forall n x, dd_name D (dd_set_name D n x) = n) ->
  (dd_token_size D front <= 0 ->
   ImportDictionary D (front :: others) args d
   = (Throw CorruptedMessageException, d))
  /\ (dd_token_size D front > 0 ->
      ImportDictionary D (front :: others) args d
      = (Ok tt,
         <[name := imported_dictionary name front others]>
           (DisposeDictionary name d).2)).
Proof.
  intros name Hname. unfold ImportDictionary. fold name. split; intros Hsize.
  - by destruct (decide (dd_token_size D front <= 0)).
  - destruct (decide (dd_token_size D front <= 0)); [lia|].
    unfold CreateDictionary. rewrite Hname.
    destruct (DisposeDictionary name d) as [r d0]. cbn [snd].
    rewrite (ImportDictionary_loop name others
               (Dictionary_new D (dd_set_name D name front)))
      by (done || apply lookup_insert_eq).
    by rewrite insert_insert_eq.
Qed.

(** Both [FilterDictionary] and [GatherDictionary] end in [r]. *)
Definition filter_and_gather (data : DictionaryData * DictionaryData)
  (d : gmap string Dictionary) (r : Res unit * gmap string Dictionary)
  : Prop :=
  FilterDictionary D data d = r /\ GatherDictionary D data d = r.

(** X18 -- [FilterDictionary] and [GatherDictionary], on the collection
    [d]: the dictionary of the first message is created under its name
    (after the dictionary of that name was disposed, or all of them when
    the name is empty).  Without co-occurrence entries in the second
    message this is all.  With such entries, the second message is appended
    to the dictionary registered under the name of the second message: to
    the dictionary just created when the names are the same; to another
    dictionary of the collection, which the creation has left there, when
    the names differ and the collection holds one of that name; and when it
    holds none, or the creation has cleared the collection, the call throws
    [InvalidOperation] and the dictionary of the first message stays
    registered. *)
Theorem FilterDictionary_result (data : DictionaryData * DictionaryData)
  (d : gmap string Dictionary) :
  let name1 := dd_name D data.1 in
  let name2 := dd_name D data.2 in
  let created := Dictionary_new D data.1 in
  let d1 :=
    <[name1 := created]>
      (if decide (name1 = EmptyString) then ∅ else delete name1 d) in
  let cooc := dd_cooc_first_index_size D data.2 in
  (cooc <= 0 -> filter_and_gather data d (Ok tt, d1))
  /\ (cooc > 0 -> name2 = name1 ->
      filter_and_gather data d
        (Ok tt, <[name1 := Dictionary_Append D data.2 created]> d1))
  /\ (cooc > 0 -> name2 <> name1 -> name1 <> EmptyString ->
      forall other, d !! name2 = Some other ->
      filter_and_gather data d
        (Ok tt, <[name2 := Dictionary_Append D data.2 other]> d1))
  /\ (cooc > 0 -> name2 <> name1 ->
      name1 = EmptyString \/ d !! name2 = None ->
      filter_and_gather data d (Throw InvalidOperation, d1))
  /\ d1 !! name1 = Some created.
Proof.
  intros name1 name2 created d1 cooc.
  assert (d1 !! name1 = Some created) as Hnew by apply lookup_insert_eq.
  assert (CreateDictionary D data.1 d = (Ok tt, d1)) as Hcreate.
  { unfold CreateDictionary, DisposeDictionary. fold name1.
    by destruct (decide (name1 = EmptyString)). }
  assert (forall r,
            (if decide (cooc > 0) then AppendDictionary D data.2 d1
             else (Ok tt, d1)) = r ->
            filter_and_gather data d r) as Hboth.
  { intros r <-. unfold filter_and_gather, FilterDictionary, GatherDictionary.
    rewrite Hcreate. by fold cooc. }
  split; [|split; [|split; [|split]]]; [| | | |done].
  - intros Hc. apply Hboth. by destruct (decide (cooc > 0)); [lia|].
  - intros Hc Hn. apply Hboth. destruct (decide (cooc > 0)); [|lia].
    unfold AppendDictionary. fold name2. by rewrite Hn, Hnew.
  - intros Hc Hn Hne other Hother. apply Hboth.
    destruct (decide (cooc > 0)); [|lia].
    unfold AppendDictionary. fold name2.
    assert (d1 !! name2 = Some other) as ->; [|done].
    unfold d1. rewrite lookup_insert_ne by done.
    destruct (decide (name1 = EmptyString)); [done|].
    by rewrite lookup_delete_ne.
  - intros Hc Hn Hnone. apply Hboth. destruct (decide (cooc > 0)); [|lia].
    unfold AppendDictionary. fold name2.
    assert (d1 !! name2 = None) as ->; [|done].
    unfold d1. rewrite lookup_insert_ne by done.
    destruct (decide (name1 = EmptyString)) as [E|E]; [done|].
    rewrite lookup_delete_ne by done. by destruct Hnone.
Qed.

End DictionaryProperties.

(** ** The external buffer *)

Lemma for_each_defined_app {I A : Type} (l1 l2 : list I)
  (body : I -> A -> option A) (acc : A) :
  for_each_defined (l1 ++ l2) body acc
  = acc' ← for_each_defined l1 body acc; for_each_defined l2 body acc'.
Proof.
  revert acc. induction l1 as [|i l1 IH]; intros acc; [done|].
  simpl. destruct (body i acc) as [acc'|]; [apply IH|done].
Qed.

(** Two nested loops visit the cells in the order of the list of pairs. *)
Lemma for_each_defined_nested {I J C A : Type} (xs : list I) (ys : list J)
  (cell : I -> J -> C) (body : C -> A -> option A) : forall acc,
  for_each_defined xs
    (fun x acc => for_each_defined ys (fun y acc => body (cell x y) acc) acc)
    acc
  = for_each_defined (flat_map (fun x => map (cell x) ys) xs) body acc.
Proof.
  induction xs as [|x xs IH]; intros acc; [done|].
  cbn [for_each_defined flat_map]. rewrite for_each_defined_app.
  assert (forall acc, for_each_defined ys (fun y acc => body (cell x y) acc) acc
                      = for_each_defined (map (cell x) ys) body acc) as E.
  { clear. induction ys as [|y ys IHy]; intros acc; [done|].
    simpl. destruct (body (cell x y) acc); [apply IHy|done]. }
  rewrite E. destruct (for_each_defined (map (cell x) ys) body acc); [|done].
  apply IH.
Qed.

(** A matrix with [rows] rows of [cols] cells each. *)
Definition rectangular (weights : list (list float)) (rows cols : nat)
  : Prop :=
  length weights = rows /\ Forall (fun values => length values = cols) weights.

Lemma rectangular_cell weights rows cols r c :
  rectangular weights rows cols -> (r < rows)%nat -> (c < cols)%nat ->
  exists values v, weights !! r = Some values /\ values !! c = Some v.
Proof.
  intros [Hlen Hall] Hr Hc.
  destruct (lookup_lt_is_Some_2 weights r) as [values Ev]; [lia|].
  pose proof (proj1 (Forall_lookup _ _) Hall r values Ev) as Hl.
  destruct (lookup_lt_is_Some_2 values c) as [v E]; [simpl in Hl; lia|].
  by exists values, v.
Qed.

Lemma concat_rectangular weights cols : forall rows,
  rectangular weights rows cols ->
  length (concat weights) = (rows * cols)%nat
  /\ forall r c values v,
       weights !! r = Some values -> values !! c = Some v ->
       concat weights !! (r * cols + c)%nat = Some v.
Proof.
  induction weights as [|row weights IH]; intros rows [Hlen Hall].
  - simpl in *. subst rows. split; [done|]. intros r c values v Hr. done.
  - apply Forall_cons in Hall as [Hrow Hall].
    simpl in Hlen. destruct rows as [|rows]; [done|].
    destruct (IH rows) as [IHlen IHcell]; [split; [lia|done]|].
    simpl. rewrite length_app, IHlen, Hrow. split; [lia|].
    intros [|r] c values v Hr Hc; simpl in Hr.
    + injection Hr as <-. simpl. by rewrite lookup_app_l
        by (by eapply lookup_lt_Some).
    + rewrite lookup_app_r by lia.
      replace (S r * cols + c - length row)%nat with (r * cols + c)%nat
        by (rewrite Hrow; lia).
      by apply (IHcell r c values v).
Qed.

Lemma cell_index_inj cols r c r' c' :
  (c < cols)%nat -> (c' < cols)%nat ->
  (r * cols + c = r' * cols + c')%nat -> r = r' /\ c = c'.
Proof.
  intros Hc Hc' E.
  assert (r = r') as ->.
  { destruct (Nat.lt_trichotomy r r') as [Hlt|[Heq|Hgt]]; [|done|].
    - assert (S r * cols <= r' * cols)%nat by (apply Nat.mul_le_mono_r; lia).
      lia.
    - assert (S r' * cols <= r * cols)%nat by (apply Nat.mul_le_mono_r; lia).
      lia. }
  split; [done|lia].
Qed.

(** The writes of the cells [cells], in any order, on a buffer that has a
    float for every cell of the matrix. *)
Lemma write_cells weights rows cols (cells : list (nat * nat)) :
  rectangular weights rows cols ->
  Z.of_nat (rows * cols) <= INT_MAX + 1 ->
  Forall (fun rc => (rc.1 < rows)%nat /\ (rc.2 < cols)%nat) cells ->
  forall lm, length lm = (rows * cols)%nat ->
  exists lm',
    for_each_defined cells
      (fun rc lm => write_float weights (Z.of_nat cols) rc.1 rc.2 lm) lm
    = Some lm'
    /\ length lm' = (rows * cols)%nat
    /\ forall r c values v,
         (c < cols)%nat ->
         weights !! r = Some values -> values !! c = Some v ->
         lm' !! (r * cols + c)%nat
         = if bool_decide ((r, c) ∈ cells) then Some v
           else lm !! (r * cols + c)%nat.
Proof.
  intros Hrect Hmax Hcells.
  induction Hcells as [|[r0 c0] cells [Hr0 Hc0] _ IH]; intros lm Hlm.
  - exists lm. split; [done|]. split; [done|]. intros r c values v _ _ _.
    rewrite bool_decide_eq_false_2; [done|]. apply not_elem_of_nil.
  - simpl in Hr0, Hc0.
    destruct (rectangular_cell weights rows cols r0 c0 Hrect Hr0 Hc0)
      as (values0 & v0 & Ev0 & E0).
    cbn [for_each_defined fst snd]. unfold write_float.
    assert (Z.of_nat r0 * Z.of_nat cols + Z.of_nat c0
            = Z.of_nat (r0 * cols + c0)) as -> by lia.
    assert (r0 * cols + c0 < rows * cols)%nat as Hidx by nia.
    destruct (decide (Z.of_nat (r0 * cols + c0) > INT_MAX)); [lia|].
    rewrite Ev0. cbn [mbind option_bind]. rewrite E0. cbn [mbind option_bind].
    rewrite Nat2Z.id.
    destruct (decide (r0 * cols + c0 < length lm)%nat); [|lia].
    destruct (IH (<[(r0 * cols + c0)%nat := v0]> lm)) as (lm' & Hrun & Hlen & Hget);
      [by rewrite length_insert|].
    exists lm'. split; [done|]. split; [done|].
    intros r c values v Hc Ev E. rewrite (Hget r c values v Hc Ev E).
    destruct (decide ((r, c) ∈ cells)) as [Hin|Hout].
    + rewrite !bool_decide_eq_true_2; [done| |done]. by right.
    + rewrite (bool_decide_eq_false_2 _ Hout).
      destruct (decide ((r, c) = (r0, c0))) as [[= -> ->]|Hne].
      * rewrite bool_decide_eq_true_2 by left.
        rewrite list_lookup_insert_eq by lia. congruence.
      * rewrite bool_decide_eq_false_2.
        2:{ intros Hin. apply elem_of_cons in Hin as [?|?]; done. }
        rewrite list_lookup_insert_ne; [done|].
        intros Eidx.
        destruct (cell_index_inj cols r0 c0 r c Hc0 Hc Eidx) as [-> ->].
        done.
Qed.

(** A buffer with every cell written is the matrix, row after row. *)
Lemma all_cells_concat weights rows cols (cells : list (nat * nat))
  (lm lm' : list float) :
  rectangular weights rows cols ->
  length lm' = (rows * cols)%nat ->
  (forall r c, (r < rows)%nat -> (c < cols)%nat -> (r, c) ∈ cells) ->
  (forall r c values v,
     (c < cols)%nat ->
     weights !! r = Some values -> values !! c = Some v ->
     lm' !! (r * cols + c)%nat
     = if bool_decide ((r, c) ∈ cells) then Some v
       else lm !! (r * cols + c)%nat) ->
  lm' = concat weights.
Proof.
  intros Hrect Hlen Hall Hget.
  destruct (concat_rectangular weights cols rows Hrect) as [Hclen Hcell].
  apply list_eq. intros k.
  destruct (decide (k < rows * cols)%nat) as [Hk|Hk].
  - assert (0 < cols)%nat as Hcols by nia.
    pose proof (Nat.div_mod k cols ltac:(lia)) as Ek.
    pose proof (Nat.mod_upper_bound k cols ltac:(lia)) as Hc.
    assert (k / cols < rows)%nat as Hr
      by (apply Nat.Div0.div_lt_upper_bound; lia).
    revert Ek Hc Hr.
    generalize (k / cols)%nat (k mod cols)%nat. intros r c Ek Hc Hr.
    replace k with (r * cols + c)%nat by lia.
    destruct (rectangular_cell weights rows cols r c Hrect Hr Hc)
      as (values & v & Ev & E).
    rewrite (Hget r c values v Hc Ev E).
    rewrite bool_decide_eq_true_2 by (by apply Hall).
    by rewrite (Hcell r c values v Ev E).
  - rewrite !lookup_ge_None_2; [done|lia|lia].
Qed.

Lemma resize_floats_length rows cols lm :
  0 <= rows <= INT_MAX -> 0 <= cols -> rows * cols <= INT_MAX + 1 ->
  length (resize_floats rows cols lm) = Z.to_nat (rows * cols).
Proof.
  intros Hr Hc Hmax. unfold resize_floats, to_size_t, INT_MAX in *.
  assert (cols <= 2 ^ 31 \/ rows = 0) as Hcols by nia.
  rewrite (Z.mod_small rows) by lia.
  rewrite (Z.mod_small (4 * rows)) by lia.
  destruct Hcols as [Hcols| ->].
  - rewrite (Z.mod_small cols) by lia.
    rewrite (Z.mod_small (4 * rows * cols)) by nia.
    replace (4 * rows * cols) with (rows * cols * 4) by lia.
    rewrite Z.div_mul by lia.
    rewrite length_app, length_take, length_replicate. lia.
  - rewrite !Z.mul_0_r, Z.mul_0_l. simpl. done.
Qed.

Section ExternalLayout.

Variable tm_topics_count : TopicModel -> Z.
Variable item_id_size : ThetaMatrix -> Z.
Variable topics_count : ThetaMatrix -> Z.
Variable item_weights : ThetaMatrix -> list (list float).
Variable clear_item_weights : ThetaMatrix -> ThetaMatrix.

Variable ThetaMatrix_new : ThetaMatrix.
Variable default_matrix_layout : MatrixLayout.

(** The message of a topic model is dense: one row of weights for each
    token, each with [topics_count] weights, and a number of cells that
    fits in an [int]. *)
Definition dense_topic_model (topic_model : TopicModel) : Prop :=
  size (tm_token topic_model) <= INT_MAX
  /\ 0 <= tm_topics_count topic_model
  /\ size (tm_token topic_model) * tm_topics_count topic_model <= INT_MAX + 1
  /\ rectangular (tm_token_weights topic_model)
       (length (tm_token topic_model))
       (Z.to_nat (tm_topics_count topic_model)).

Definition dense_theta_matrix (theta_matrix : ThetaMatrix) : Prop :=
  0 <= item_id_size theta_matrix <= INT_MAX
  /\ 0 <= topics_count theta_matrix
  /\ item_id_size theta_matrix * topics_count theta_matrix <= INT_MAX + 1
  /\ rectangular (item_weights theta_matrix)
       (Z.to_nat (item_id_size theta_matrix))
       (Z.to_nat (topics_count theta_matrix)).

Lemma HandleExternalTopicModelRequest_dense topic_model lm :
  dense_topic_model topic_model ->
  HandleExternalTopicModelRequest tm_topics_count topic_model lm
  = Some (clear_token_weights topic_model,
          concat (tm_token_weights topic_model)).
Proof.
  intros (Hrows & Hcols & Hmax & Hrect).
  unfold HandleExternalTopicModelRequest.
  set (rows := length (tm_token topic_model)) in *.
  set (cols := Z.to_nat (tm_topics_count topic_model)) in *.
  assert (tm_topics_count topic_model = Z.of_nat cols) as Ecols
    by (unfold cols; lia).
  assert (size (tm_token topic_model) = Z.of_nat rows) as Erows by done.
  rewrite Erows, Ecols in *. rewrite !Nat2Z.id.
  rewrite (for_each_defined_nested (seq 0 rows) (seq 0 cols) pair
             (fun rc lm => write_float (tm_token_weights topic_model)
                             (Z.of_nat cols) rc.1 rc.2 lm)).
  destruct (write_cells (tm_token_weights topic_model) rows cols
              (flat_map (fun r => map (pair r) (seq 0 cols)) (seq 0 rows))
              Hrect) with (lm := resize_floats (Z.of_nat rows)
                                   (Z.of_nat cols) lm)
    as (lm' & -> & Hlen & Hget).
  - lia.
  - apply Forall_forall. intros [r c] Hin.
    apply list_elem_of_In, in_flat_map in Hin as (r' & Hr' & Hin).
    apply in_map_iff in Hin as (c' & [= <- <-] & Hc').
    apply in_seq in Hr', Hc'. simpl. lia.
  - rewrite resize_floats_length by lia. lia.
  - simpl. f_equal. f_equal.
    eapply (all_cells_concat _ rows cols);
      [exact Hrect|exact Hlen| |exact Hget].
    intros r c Hr Hc. apply list_elem_of_In, in_flat_map.
    exists r. split; [apply in_seq; lia|].
    apply in_map, in_seq. lia.
Qed.

Lemma HandleExternalThetaMatrixRequest_dense theta_matrix lm :
  dense_theta_matrix theta_matrix ->
  HandleExternalThetaMatrixRequest item_id_size topics_count item_weights
    clear_item_weights theta_matrix lm
  = Some (clear_item_weights theta_matrix,
          concat (item_weights theta_matrix)).
Proof.
  intros (Hrows & Hcols & Hmax & Hrect).
  unfold HandleExternalThetaMatrixRequest.
  set (rows := Z.to_nat (item_id_size theta_matrix)) in *.
  set (cols := Z.to_nat (topics_count theta_matrix)) in *.
  assert (topics_count theta_matrix = Z.of_nat cols) as Ecols
    by (unfold cols; lia).
  assert (item_id_size theta_matrix = Z.of_nat rows) as Erows
    by (unfold rows; lia).
  rewrite Erows, Ecols in *.
  rewrite (for_each_defined_nested (seq 0 cols) (seq 0 rows)
             (fun c r => (r, c))
             (fun rc lm => write_float (item_weights theta_matrix)
                             (Z.of_nat cols) rc.1 rc.2 lm)).
  destruct (write_cells (item_weights theta_matrix) rows cols
              (flat_map (fun c => map (fun r => (r, c)) (seq 0 rows))
                        (seq 0 cols))
              Hrect) with (lm := resize_floats (Z.of_nat rows)
                                   (Z.of_nat cols) lm)
    as (lm' & -> & Hlen & Hget).
  - lia.
  - apply Forall_forall. intros [r c] Hin.
    apply list_elem_of_In, in_flat_map in Hin as (c' & Hc' & Hin).
    apply in_map_iff in Hin as (r' & [= <- <-] & Hr').
    apply in_seq in Hr', Hc'. simpl. lia.
  - rewrite resize_floats_length by lia. lia.
  - simpl. f_equal. f_equal.
    eapply (all_cells_concat _ rows cols);
      [exact Hrect|exact Hlen| |exact Hget].
    intros r c Hr Hc. apply list_elem_of_In, in_flat_map.
    exists c. split; [apply in_seq; lia|].
    apply (in_map (fun r => (r, c))), in_seq. lia.
Qed.

(** X16 -- the buffer that the external requests fill is the dense matrix
    row after row, without padding, whatever the buffer held before: for a
    topic model, the weights of the first token over all the topics, then
    those of the second token, and so on; for a Theta matrix, the weights
    of the first item, then those of the second, although its loops run
    over the topics first.  The weights of the message are cleared.  This
    holds when the message has one row of weights for each token (item),
    each with [topics_count] weights, and the number of cells fits in an
    [int]. *)
Theorem HandleExternal_row_major (topic_model : TopicModel)
  (theta_matrix : ThetaMatrix) (lm : list float) :
  (dense_topic_model topic_model ->
   HandleExternalTopicModelRequest tm_topics_count topic_model lm
   = Some (clear_token_weights topic_model,
           concat (tm_token_weights topic_model)))
  /\ (dense_theta_matrix theta_matrix ->
      HandleExternalThetaMatrixRequest item_id_size topics_count item_weights
        clear_item_weights theta_matrix lm
      = Some (clear_item_weights theta_matrix,
              concat (item_weights theta_matrix))).
Proof.
  split.
  - apply HandleExternalTopicModelRequest_dense.
  - apply HandleExternalThetaMatrixRequest_dense.
Qed.

(** X17 -- the external requests.  Without the dense layout a request for
    a topic model or for the Theta matrix throws [InvalidOperation] before
    it reads anything, and a request to process batches whose Theta type is
    neither [Dense] nor [DensePtdw] throws it before any batch is
    processed: the state and the history are as before the call.  With the
    dense layout, the request for a topic model fails as the plain request
    does, and where that one gives a dense message it returns the message
    without its weights and the buffer with the weights row after row; the
    request for the Theta matrix does the same with the matrix of the cache
    manager. *)
Theorem Request_external_dense (args : GetTopicModelArgs)
  (theta_args : GetThetaMatrixArgs) (fuel : nat)
  (batches_args : ProcessBatchesArgs) (external : list float) (s : State) :
  let layout := default default_matrix_layout (gtm_matrix_layout args) in
  let theta_layout :=
    default default_matrix_layout (gth_matrix_layout theta_args) in
  let theta_matrix :=
    RequestThetaMatrix K theta_args (cache_manager (world s)) in
  (layout <> MatrixLayout_Dense ->
   Request_TopicModel_external tm_topics_count default_matrix_layout
     args external s
   = (Throw InvalidOperation, s))
  /\ (layout = MatrixLayout_Dense ->
      (forall f s',
         Request_TopicModel args s = (Fail f, s') ->
         Request_TopicModel_external tm_topics_count default_matrix_layout
           args external s
         = (Fail f, s'))
      /\ (forall topic_model s',
            Request_TopicModel args s = (Ok topic_model, s') ->
            dense_topic_model topic_model ->
            Request_TopicModel_external tm_topics_count default_matrix_layout
              args external s
            = (Ok (clear_token_weights topic_model,
                   concat (tm_token_weights topic_model)), s')))
  /\ (theta_layout <> MatrixLayout_Dense ->
      Request_ThetaMatrix_external item_id_size topics_count item_weights
        clear_item_weights default_matrix_layout theta_args external s
      = (Throw InvalidOperation, s))
  /\ (theta_layout = MatrixLayout_Dense ->
      dense_theta_matrix theta_matrix ->
      Request_ThetaMatrix_external item_id_size topics_count item_weights
        clear_item_weights default_matrix_layout theta_args external s
      = (Ok (clear_item_weights theta_matrix,
             concat (item_weights theta_matrix)), s))
  /\ (theta_matrix_type batches_args <> ThetaMatrixType_Dense ->
      theta_matrix_type batches_args <> ThetaMatrixType_DensePtdw ->
      Request_ProcessBatches_external item_id_size topics_count item_weights
        clear_item_weights ThetaMatrix_new fuel batches_args external s
      = (Throw InvalidOperation, s)).
Proof.
  intros layout theta_layout theta_matrix.
  unfold Request_TopicModel_external, Request_ThetaMatrix_external,
    Request_ProcessBatches_external.
  fold layout theta_layout.
  split; [|split; [|split; [|split]]].
  - intros Hl. by rewrite bool_decide_eq_false_2.
  - intros Hl. rewrite bool_decide_eq_true_2 by done. cbn [negb].
    split.
    + intros f s' E. unfold bind. by rewrite E.
    + intros topic_model s' E Hdense. unfold bind. rewrite E.
      by rewrite HandleExternalTopicModelRequest_dense.
  - intros Hl. by rewrite bool_decide_eq_false_2.
  - intros Hl Hdense. rewrite bool_decide_eq_true_2 by done. cbn [negb].
    unfold bind, Request_ThetaMatrix, gets. fold theta_matrix.
    by rewrite HandleExternalThetaMatrixRequest_dense.
  - intros Hd Hp. by rewrite !bool_decide_eq_false_2.
Qed.

End ExternalLayout.

End Master.

(** * A concrete master component

    Weights are integers; the score and cache managers keep nothing.  The
    worker pool is modelled from the spec: in one idle interval a worker
    takes the first task of the queue and removes its id from the batch
    manager of the task. *)

Definition one_worker (w : @World Z unit unit unit) : @World Z unit unit unit :=
  match processor_queue w with
  | [] => w
  | pi :: q =>
      with_batch_managers
        (alter (fun ids => ids ∖ {[pi_task_id pi]}) (pi_batch_manager pi))
        (with_processor_queue (fun _ => q) w)
  end.

Definition toy : @Kernels Z unit unit unit unit :=
  mkKernels 0 1 one_worker N.of_nat ThetaMatrixType_Cache
    (fun m a =>
       mkTopicModel (Some (model_name m)) (topic_name m) (gtm_token a)
                    (gtm_class_id a) [])
    (fun tm w m =>
       mkPhiMatrix (model_name m) (topic_name m)
         (token m ++ zip_with mkToken (tm_token tm) (tm_class_id tm))
         (values m))
    (fun _ _ _ _ r => r)
    (fun n t => t)
    (fun n r t => t)
    (fun tm => String.list_byte_of_string (String.concat "," (tm_token tm)))
    (fun b =>
       Some (mkTopicModel None ["t1"] [String.string_of_list_byte b] ["c"] []))
    (fun _ _ => true) "001"%byte 7 tt (fun _ => tt) (fun _ _ => tt)
    (fun _ => []) tt (fun _ _ => tt).

Definition toy_config : @MasterModelConfig Z :=
  mkMasterModelConfig "pwt" "nwt" ["t1"; "t2"] [] [] []
    [mkScoreConfig "perplexity"] None 2 false None None.

Definition toy_pwt : @PhiMatrix Z :=
  mkPhiMatrix "pwt" ["t1"; "t2"]
    [mkToken "a" "c"; mkToken "b" "c"; mkToken "d" "c"]
    [[1; 2]; [3; 4]; [5; 6]].

(** A state with the matrix [pwt], two processors and one batch manager. *)
Definition toy_state : @State Z unit unit unit :=
  mkState (mkWorld {["pwt" := toy_pwt]} 2 [] (Some toy_config) tt [] tt [∅] []
                   [] ∅ 0) [].

(** Four batches in two update groups, as in the scenario S2 of the
    specification; the weights of the two groups differ. *)
Definition toy_online : @FitOnlineMasterModelArgs Z :=
  mkFitOnlineMasterModelArgs ["b1"; "b2"; "b3"; "b4"] [1; 1; 1; 1] [2; 4]
                             [11; 12] [21; 22] true.

Definition toy_iterator (cursor : Z) : @OnlineBatchesIterator Z :=
  mkOnlineBatchesIterator ["b1"; "b2"; "b3"; "b4"] [1; 1; 1; 1] [2; 4]
                          [11; 12] [21; 22] cursor.

Definition toy_args (theta : ThetaMatrixType) : @ProcessBatchesArgs Z :=
  mkProcessBatchesArgs (Some "pwt") (Some "nwt") (Some theta) []
    ["b1"; "b2"] [1; 1] [] None [] [] [] [] None None.

(** The asynchronous schedule on the scenario: the merge of the operation 0
    is given the weights of index 0 (21 and 11) although the cursor of the
    iterator is at 1 when they are read, and the merge of the operation 1
    those of index 1. *)
Example FitOnline_async_scenario :
  let out := FitOnline toy 10 toy_online toy_state in
  out.1 = Ok tt
  /\ omap sched_view (history out.2)
     = [Launch 0 "nwt_hat0" ["b1"; "b2"] [1; 1];
        Launch 1 "nwt_hat1" ["b3"; "b4"] [1; 1];
        Awaited 0; Merged "nwt" (Some 21) "nwt_hat0" (Some 11);
        Awaited 1; Merged "nwt" (Some 22) "nwt_hat1" (Some 12)].
Proof. vm_compute. by split. Qed.

Lemma FitOnline_async_weights_witness :
  exists l,
    history (FitOnline toy 10 toy_online toy_state).2
    = history toy_state ++ l
    /\ omap sched_view l `prefix_of` async_sched (toy_iterator 0) toy_config
    /\ (is_ok (FitOnline toy 10 toy_online toy_state).1 = true ->
        omap sched_view l = async_sched (toy_iterator 0) toy_config).
Proof.
  apply (FitOnline_async_weights toy 10 toy_online toy_state toy_config).
  - reflexivity.
  - reflexivity.
  - vm_compute. discriminate.
Defined.

(** A synchronous call on the scenario that asks for a dense Theta matrix
    returns, with its two tasks processed and the matrix of its local cache
    manager. *)
Lemma ProcessBatches_sync_waits_witness :
  let out :=
    RequestProcessBatchesImpl toy 10 (toy_args ThetaMatrixType_Dense) 0 false
                              None true toy_state in
  everything_processed 0 (world out.2)
  /\ exists r s1 k,
       ProcessBatches_submit toy (toy_args ThetaMatrixType_Dense) 0 false None
                             toy_state = (Ok r, s1)
       /\ (k <= 10)%nat
       /\ out.2 = mkState (after_intervals toy k (world s1)) (history s1)
       /\ (forall j, (j < k)%nat ->
             outstanding 0 (after_intervals toy j (world s1)))
       /\ exists theta,
            out.1 = Ok (r.1, theta)
            /\ if true && bool_decide (is_Some (pba_theta_matrix_type r.1))
               then exists c,
                      cache_managers (after_intervals toy k (world s1)) !! r.2
                      = Some c
                      /\ theta
                         = Some (RequestThetaMatrix toy
                                   (theta_request toy r.1) c)
               else theta = None.
Proof.
  apply (ProcessBatches_sync_waits toy 10 (toy_args ThetaMatrixType_Dense) 0
                                   None true toy_state).
  vm_compute. reflexivity.
Defined.

Lemma toy_iterator_valid cursor :
  0 <= cursor <= 2 -> valid_iterator (toy_iterator cursor).
Proof.
  intros H. unfold valid_iterator, size, INT_MAX. simpl.
  repeat split; try lia. repeat constructor; lia.
Qed.

(** On the scenario: with the cursor at 1 there is more, and [move] emits
    the second group; with the cursor at 2 there is no more, and [move]
    only clears the lists. *)
Lemma OnlineBatchesIterator_more_move_witness :
  more (toy_iterator 1) = true
  /\ move (toy_iterator 1) (toy_args ThetaMatrixType_None)
     = Some (toy_iterator 2,
             set_batches ["b3"; "b4"] [1; 1] (toy_args ThetaMatrixType_None))
  /\ ~ more (toy_iterator 2) = true
  /\ move (toy_iterator 2) (toy_args ThetaMatrixType_None)
     = Some (toy_iterator 2,
             set_batches [] [] (toy_args ThetaMatrixType_None)).
Proof.
  pose proof (OnlineBatchesIterator_more_move (toy_iterator 1)
                (toy_args ThetaMatrixType_None)
                (toy_iterator_valid 1 ltac:(lia))) as (Hmore1 & _ & Hin).
  pose proof (OnlineBatchesIterator_more_move (toy_iterator 2)
                (toy_args ThetaMatrixType_None)
                (toy_iterator_valid 2 ltac:(lia))) as (Hmore2 & Hout & _).
  split; [apply Hmore1; vm_compute; reflexivity|].
  split; [apply Hin; vm_compute; reflexivity|].
  split; [intros H; apply Hmore2 in H; vm_compute in H; discriminate|].
  apply Hout. vm_compute. discriminate.
Defined.

(** [ProcessBatches] with the source as target throws and changes nothing;
    with a target other than the source it installs the target before it
    pushes its two tasks. *)
Lemma ProcessBatches_nwt_target_witness :
  let same :=
    mkProcessBatchesArgs (Some "pwt") (Some "pwt") None [] ["b1"; "b2"] [1; 1]
                         [] None [] [] [] [] None None in
  let args := toy_args ThetaMatrixType_None in
  let s1 := (ProcessBatches_prepare toy args false toy_state).2 in
  let out :=
    RequestProcessBatchesImpl toy 10 args 0 false None false toy_state in
  RequestProcessBatchesImpl toy 10 same 0 false None false toy_state
  = (Throw InvalidOperation, toy_state)
  /\ models_ (world s1) !! "nwt" = Some (fresh_nwt toy "nwt" toy_pwt)
  /\ processor_queue (world s1) = processor_queue (world toy_state)
  /\ history s1
     = history toy_state ++ [EvSetPhiMatrix "nwt" (fresh_nwt toy "nwt" toy_pwt)]
  /\ exists l,
       history out.2
       = history toy_state
         ++ EvSetPhiMatrix "nwt" (fresh_nwt toy "nwt" toy_pwt) :: l
       /\ Forall (fun e => is_push e) l.
Proof.
  intros same args s1 out. split.
  - apply (ProcessBatches_nwt_target toy 10 same 0 false None false toy_state
             "pwt" toy_pwt); reflexivity.
  - apply (ProcessBatches_nwt_target toy 10 args 0 false None false toy_state
             "nwt" toy_pwt); try reflexivity; discriminate.
Defined.

(** An asynchronous call for a dense Theta throws; one for no Theta returns
    with its two tasks on the queue and outstanding. *)
Lemma ProcessBatches_async_witness :
  (forall fuel,
     (RequestProcessBatchesImpl toy fuel (toy_args ThetaMatrixType_Dense) 0
                                true None false toy_state).1
     = Throw InvalidOperation)
  /\ exists tasks s',
       (forall fuel,
          RequestProcessBatchesImpl toy fuel (toy_args ThetaMatrixType_None)
                                    0 true None false toy_state
          = (Ok (set_topic_name ["t1"; "t2"]
                   (toy_args ThetaMatrixType_None), None), s'))
       /\ length tasks = 2%nat
       /\ processor_queue (world s')
          = processor_queue (world toy_state) ++ tasks
       /\ Forall (fun pi => pi_batch_manager pi = 0%nat) tasks
       /\ batch_managers (world s') !! 0%nat
          = Some (list_to_set (pi_task_id <$> tasks) ∪ ∅).
Proof.
  split.
  - apply (ProcessBatches_async toy (toy_args ThetaMatrixType_Dense) 0 None
             false toy_state toy_pwt ∅); [reflexivity|discriminate].
  - apply (ProcessBatches_async toy (toy_args ThetaMatrixType_None) 0 None
             false toy_state toy_pwt ∅);
      first [reflexivity|discriminate|simpl; lia].
Defined.

Lemma ProcessBatches_async_theta_not_atomic_witness :
  let out :=
    RequestProcessBatchesImpl toy 10 (toy_args ThetaMatrixType_Dense) 0 true
                              None false toy_state in
  out = (Throw InvalidOperation,
         installed "nwt" (fresh_nwt toy "nwt" toy_pwt) toy_state)
  /\ models_ (world out.2)
     = <["nwt" := fresh_nwt toy "nwt" toy_pwt]> (models_ (world toy_state))
  /\ models_ (world out.2) !! "nwt" = Some (fresh_nwt toy "nwt" toy_pwt)
  /\ token (fresh_nwt toy "nwt" toy_pwt) = token toy_pwt
  /\ Forall (fun row => row = repeat (float_zero toy)
                                     (length (topic_name toy_pwt)))
            (values (fresh_nwt toy "nwt" toy_pwt)).
Proof.
  apply (ProcessBatches_async_theta_not_atomic toy 10
           (toy_args ThetaMatrixType_Dense) 0 None false toy_state "nwt"
           toy_pwt); try reflexivity; discriminate.
Defined.

Lemma ExportModel_chunks_partition_witness :
  exists chunks tpc,
    ExportModel_chunks "pwt" toy_pwt = Some chunks
    /\ tpc = Z.min (token_size toy_pwt)
                   ((100 * 1024 * 1024) `quot` topic_size toy_pwt)
    /\ flat_map gtm_token chunks = keyword <$> token toy_pwt
    /\ flat_map gtm_class_id chunks = class_id <$> token toy_pwt
    /\ Forall (fun c => 1 <= size (gtm_token c) <= Z.max 1 tpc) chunks.
Proof.
  apply (ExportModel_chunks_partition "pwt" toy_pwt).
  vm_compute. discriminate.
Defined.

(** A matrix with one token and 104857601 topics: more topics than 100 MiB
    has bytes, so that [100 * 1024 * 1024 / topic_size] is zero. *)
Definition many_topics : nat := Z.to_nat 104857601.

Definition wide_matrix : @PhiMatrix Z :=
  mkPhiMatrix "m" (replicate many_topics "t") [mkToken "a" "c"]
              [replicate many_topics 0].

Lemma topic_size_wide_matrix : topic_size wide_matrix = 104857601.
Proof.
  unfold topic_size, wide_matrix. cbn [topic_name].
  rewrite length_replicate. unfold many_topics. lia.
Qed.

(** C7, as the specification states it, fails on the wide matrix: the bound
    [min token_size (100 MiB / topic_size)] is zero and the chunk that
    [ExportModel] writes has one token. *)
Lemma ExportModel_chunk_above_bound :
  exists chunks tpc,
    ExportModel_chunks "m" wide_matrix = Some chunks
    /\ tokens_per_chunk wide_matrix = Some tpc
    /\ tpc = Z.min (token_size wide_matrix)
                   ((100 * 1024 * 1024) `quot` topic_size wide_matrix)
    /\ ~ Forall (fun c => size (gtm_token c) <= tpc) chunks.
Proof.
  eexists _, 0. unfold ExportModel_chunks, tokens_per_chunk.
  rewrite topic_size_wide_matrix.
  split; [reflexivity|]. split; [reflexivity|]. split; [reflexivity|].
  intros H. inversion H as [|c l Hc _]. vm_compute in Hc. by apply Hc.
Qed.



Definition import_args : ImportModelArgs :=
  mkImportModelArgs "model.bin" (Some "imported").


(** A zero length that is followed by one more byte is read before the end
    of the stream, and the import is refused with the state untouched. *)
Definition zero_length_state : @State Z unit unit unit :=
  mkState (mkWorld ∅ 2 [] (Some toy_config) tt [] tt [] [] []
                   {["model.bin" := [x00; x30; x0a]]} 0) [].

Lemma ImportModel_corrupted_witness :
  ImportModel toy 5 import_args zero_length_state
  = (Throw CorruptedMessageException, zero_length_state).
Proof.
  apply (proj2 (proj2 (ImportModel_corrupted toy 5 import_args
                         zero_length_state))
           [x00; x30; x0a] (mkIfstream [x30; x0a] false false) 0%nat
           (mkIfstream [x30; x0a] false false) None
           0 (mkIfstream [x0a] false false)).
  - reflexivity.
  - reflexivity.
  - reflexivity.
  - lia.
  - reflexivity.
  - reflexivity.
  - left. split; [reflexivity|lia].
Defined.

Example ImportModel_no_chunk_rejected :
  let s :=
    mkState (mkWorld ∅ 2 [] (Some toy_config) tt [] tt [] [] []
                     {["model.bin" := [x00]]} 0) [] in
  ImportModel toy 5 import_args s = (Throw CorruptedMessageException, s).
Proof. vm_compute. reflexivity. Qed.

(** Merge on the scenario: [nwt] is missing and skipped, [pwt] is merged; a
    list of sources of which none exists is refused. *)
Example MergeModel_scenario :
  (MergeModel toy (mkMergeModelArgs ["nwt"; "pwt"] [1; 2] (Some "out") [])
              toy_state).1 = Ok tt
  /\ MergeModel toy (mkMergeModelArgs ["nwt"; "rwt"] [1; 2] (Some "out") [])
                toy_state = (Throw InvalidOperation, toy_state)
  /\ MergeModel toy (mkMergeModelArgs ["pwt"] [1; 2] (Some "out") [])
                toy_state = (Throw InvalidOperation, toy_state)
  /\ MergeModel toy (mkMergeModelArgs [] [] (Some "out") [])
                toy_state = (Throw InvalidOperation, toy_state).
Proof. vm_compute. by repeat split. Qed.

(** Two passes of the offline schedule on the scenario. *)
Example ExecuteOfflineAlgorithm_scenario :
  let out :=
    ExecuteOfflineAlgorithm toy 10 (ArtmExecutor_new toy_config) 2
      (mkOfflineBatchesIterator ["b1"; "b2"] [1; 1]) toy_state in
  is_ok out.1 = true
  /\ omap step_view (history out.2)
     = offline_steps toy_config (mkOfflineBatchesIterator ["b1"; "b2"] [1; 1])
                     [0; 1]%nat.
Proof. vm_compute. by split. Qed.

(** * The further properties on the concrete master component *)

Lemma OnlineBatchesIterator_groups_partition_witness :
  flat_map (fun k => (group (set_current (Z.of_nat k) (toy_iterator 0))).1)
           (seq 0 2)
  = take (Z.to_nat (group_bound (toy_iterator 0) 2)) ["b1"; "b2"; "b3"; "b4"]
  /\ flat_map (fun k => (group (set_current (Z.of_nat k) (toy_iterator 0))).2)
              (seq 0 2)
     = take (Z.to_nat (group_bound (toy_iterator 0) 2)) [1; 1; 1; 1].
Proof.
  apply (OnlineBatchesIterator_groups_partition (toy_iterator 0)).
  - apply toy_iterator_valid. lia.
  - reflexivity.
Defined.

(** The scenario without [async]. *)
Definition toy_online_sync : @FitOnlineMasterModelArgs Z :=
  mkFitOnlineMasterModelArgs ["b1"; "b2"; "b3"; "b4"] [1; 1; 1; 1] [2; 4]
                             [11; 12] [21; 22] false.

Lemma FitOnline_sync_steps_witness :
  exists l sms,
    history (FitOnline toy 10 toy_online_sync toy_state).2
    = history toy_state ++ l
    /\ omap step_view l `prefix_of` online_steps (toy_iterator 0) toy_config sms
    /\ (is_ok (FitOnline toy 10 toy_online_sync toy_state).1 = true ->
        length sms = 2%nat
        /\ omap step_view l = online_steps (toy_iterator 0) toy_config sms).
Proof.
  apply (FitOnline_sync_steps toy 10 toy_online_sync toy_state toy_config).
  - reflexivity.
  - reflexivity.
  - vm_compute. discriminate.
Defined.

(** The synchronous schedule on the scenario. *)
Example FitOnline_sync_scenario :
  let out := FitOnline toy 10 toy_online_sync toy_state in
  out.1 = Ok tt
  /\ omap step_view (history out.2)
     = [EvClearScoreCache;
        EvNewScoreManager 0;
        EvProcessBatches "pwt" "nwt_hat0" ["b1"; "b2"] [1; 1] 0;
        EvMerge "nwt" 21 "nwt_hat0" 11; EvDisposeModel "nwt_hat0";
        EvRegularize "pwt" "nwt" "rwt"; EvNormalize "pwt" "nwt" "rwt";
        EvStoreScores 0;
        EvNewScoreManager 1;
        EvProcessBatches "pwt" "nwt_hat1" ["b3"; "b4"] [1; 1] 1;
        EvMerge "nwt" 22 "nwt_hat1" 12; EvDisposeModel "nwt_hat1";
        EvRegularize "pwt" "nwt" "rwt"; EvNormalize "pwt" "nwt" "rwt";
        EvStoreScores 1].
Proof. vm_compute. by split. Qed.

Lemma FitOnline_async_steps_witness :
  exists l,
    history (FitOnline toy 10 toy_online toy_state).2 = history toy_state ++ l
    /\ omap step_view l `prefix_of` async_steps (toy_iterator 0) toy_config
    /\ (is_ok (FitOnline toy 10 toy_online toy_state).1 = true ->
        omap step_view l = async_steps (toy_iterator 0) toy_config).
Proof.
  apply (FitOnline_async_steps toy 10 toy_online toy_state toy_config).
  - reflexivity.
  - reflexivity.
  - vm_compute. discriminate.
Defined.

(** The asynchronous schedule on the scenario, as in the table of the
    source: the operation 1 is launched on [pwt] before the operation 0 is
    awaited, and the last iteration normalizes into [pwt]. *)
Example FitOnline_async_steps_scenario :
  async_steps (toy_iterator 0) toy_config
  = [EvClearScoreCache;
     EvAsyncProcessBatches 0 "pwt" "nwt_hat0" ["b1"; "b2"] [1; 1];
     EvAsyncProcessBatches 1 "pwt" "nwt_hat1" ["b3"; "b4"] [1; 1];
     EvAwait 0; EvMerge "nwt" 21 "nwt_hat0" 11; EvDisposeModel "nwt_hat0";
     EvRegularize "pwt" "nwt" "rwt"; EvNormalize "pwt2" "nwt" "rwt";
     EvDisposeModel "pwt0";
     EvAwait 1; EvMerge "nwt" 22 "nwt_hat1" 12; EvDisposeModel "nwt_hat1";
     EvRegularize "pwt2" "nwt" "rwt"; EvNormalize "pwt" "nwt" "rwt";
     EvDisposeModel "pwt1"; EvDisposeModel "pwt2"]
  /\ omap step_view (history (FitOnline toy 10 toy_online toy_state).2)
     = async_steps (toy_iterator 0) toy_config.
Proof. vm_compute. by split. Qed.

(** The matrix [pwt] of the scenario is exported in one chunk and read
    back. *)
Definition export_args : ExportModelArgs := mkExportModelArgs "model.bin" None.

Lemma ExportModel_ImportModel_witness :
  exists s1 target,
    ExportModel toy export_args toy_state = (Ok tt, s1)
    /\ import_chunks toy "imported"
         [mkTopicModel None ["t1"] ["a,b,d"] ["c"] []] None = Some target
    /\ ImportModel toy 5 import_args s1 = (Ok tt, installed "imported" target s1).
Proof.
  apply (ExportModel_ImportModel toy export_args import_args toy_state toy_pwt
           [mkGetTopicModelArgs (Some "pwt") (Some RequestType_Nwt)
              (Some MatrixLayout_Sparse) ["a"; "b"; "d"] ["c"; "c"; "c"]]
           [mkTopicModel None ["t1"] ["a,b,d"] ["c"] []] 5).
  - reflexivity.
  - reflexivity.
  - reflexivity.
  - vm_compute. discriminate.
  - reflexivity.
  - repeat constructor.
  - reflexivity.
  - simpl. lia.
Defined.

(** A file with one chunk of five bytes. *)
Definition one_chunk : list byte := [x61; x62; x63; x64; x65].

Definition one_chunk_state : @State Z unit unit unit :=
  mkState (mkWorld {["imported" := toy_pwt]} 2 [] (Some toy_config) tt [] tt []
                   [] [] {["model.bin" := x00 :: frame one_chunk]} 0) [].

Lemma ImportModel_OverwriteTopicModel_witness :
  let tm := mkTopicModel None ["t1"] ["abcde"] ["c"] [] in
  ImportModel toy 2 import_args one_chunk_state
  = OverwriteTopicModel toy (tm_set_name "imported" tm) one_chunk_state
  /\ ImportModel toy 2 import_args one_chunk_state
     = (Ok tt,
        installed "imported"
          (ApplyTopicModelOperation toy (tm_set_name "imported" tm)
             (float_one toy) (DensePhiMatrix "imported" (tm_topic_name tm)))
          one_chunk_state).
Proof.
  apply (ImportModel_OverwriteTopicModel toy 2 import_args one_chunk_state
           one_chunk (mkTopicModel None ["t1"] ["abcde"] ["c"] [])).
  - reflexivity.
  - reflexivity.
  - reflexivity.
  - lia.
Defined.

(** A matrix without token: its export fails and leaves the file. *)
Definition empty_model_state : @State Z unit unit unit :=
  mkState (mkWorld {["pwt" := mkPhiMatrix "pwt" ["t1"; "t2"] [] []]} 2 []
                   (Some toy_config) tt [] tt [] [] [] ∅ 0) [].

Example ExportModel_empty_model :
  let out := ExportModel toy export_args empty_model_state in
  out.1 = Throw InvalidOperation
  /\ files (world out.2) !! "model.bin" = Some []
  /\ ExportModel toy export_args out.2 = (Throw DiskWriteException, out.2).
Proof. vm_compute. by repeat split. Qed.

(** Two batch file names and one inline batch, with two weights. *)
Definition mixed_args : @ProcessBatchesArgs Z :=
  mkProcessBatchesArgs (Some "pwt") None None [] ["b1"; "b2"] [7; 8]
    [mkBatch "b3" []] None [] [] [] [] None None.

Lemma ProcessBatches_enqueue_tasks_witness :
  (exists tasks s',
     ProcessBatches_enqueue toy mixed_args 0 None None None toy_state
     = (Ok tt, s')
     /\ processor_queue (world s') = processor_queue (world toy_state) ++ tasks
     /\ length tasks = 3%nat
     /\ (forall j f w,
           pba_batch_filename mixed_args !! j = Some f ->
           pba_batch_weight mixed_args !! j = Some w ->
           tasks !! j
           = Some (set_batch_filename f w
                     (new_task toy mixed_args 0 None None None (0 + j))))
     /\ (forall j b w,
           pba_batch mixed_args !! j = Some b ->
           pba_batch_weight mixed_args !! j = Some w ->
           tasks !! (2 + j)%nat
           = Some (set_batch b w
                     (new_task toy mixed_args 0 None None None (0 + 2 + j))))
     /\ batch_managers (world s') !! 0%nat
        = Some (list_to_set (pi_task_id <$> tasks) ∪ ∅)
     /\ uuid_count (world s') = 3%nat).
Proof.
  apply (ProcessBatches_enqueue_tasks toy mixed_args 0 None None None ∅
           toy_state).
  - reflexivity.
  - simpl. lia.
  - simpl. lia.
Defined.

(** The inline batch of [mixed_args] is given the weight of index 0, which
    is also the weight of the first batch file name. *)
Example ProcessBatches_enqueue_scenario :
  let out := ProcessBatches_enqueue toy mixed_args 0 None None None toy_state in
  out.1 = Ok tt
  /\ map (fun pi => (pi_batch_filename pi, id <$> pi_batch pi,
                     pi_batch_weight pi))
         (processor_queue (world out.2))
     = [(Some "b1", None, Some 7); (Some "b2", None, Some 8);
        (None, Some "b3", Some 7)].
Proof. vm_compute. by split. Qed.

(** A configuration with one regularizer, and a state with [pwt] and
    [nwt]. *)
Definition toy_config_reg : @MasterModelConfig Z :=
  mkMasterModelConfig "pwt" "nwt" ["t1"; "t2"] [] []
    [mkRegularizerConfig "sparse" 3] [] None 2 false None None.

Definition toy_state_nwt : @State Z unit unit unit :=
  mkState (mkWorld {["pwt" := toy_pwt; "nwt" := toy_pwt]} 2 []
                   (Some toy_config_reg) tt [] tt [] [] [] ∅ 0) [].

Lemma Regularize_then_Normalize_witness :
  let ex := ArtmExecutor_new toy_config_reg in
  let s1 := (Regularize toy ex "pwt" "nwt" "rwt" toy_state_nwt).2 in
  let ex' :=
    set_regularize_model_args
      (mkRegularizeModelArgs (Some "pwt") (Some "nwt") (Some "rwt")
         [mkRegularizerSettings "sparse" 3 false]) ex in
  let s2 := mkState (world s1) (history s1 ++ [EvNormalize "pwt" "nwt" "rwt"]) in
  let target n_wt :=
    Reshape toy n_wt (DensePhiMatrix "pwt" (topic_name n_wt)) in
  exists n_wt,
    models_ (world s1) !! "nwt" = Some n_wt
    /\ if decide (size (rma_regularizer_settings (regularize_model_args_ ex))
                  > 0)
       then exists r_wt,
              models_ (world s1) !! "rwt" = Some r_wt
              /\ Normalize toy ex' "pwt" "nwt" "rwt" s1
                 = (Ok tt,
                    installed "pwt"
                      (FindPwt_rwt toy n_wt r_wt (target n_wt)) s2)
       else s1 = mkState (world toy_state_nwt)
                   (history toy_state_nwt ++ [EvRegularize "pwt" "nwt" "rwt"])
            /\ Normalize toy ex' "pwt" "nwt" "rwt" s1
               = (Ok tt, installed "pwt" (FindPwt toy n_wt (target n_wt)) s2).
Proof.
  intros ex s1 ex' s2 target.
  apply (Regularize_then_Normalize toy ex ex' "pwt" "nwt" "rwt" toy_state_nwt
           s1).
  - reflexivity.
  - vm_compute. by eexists.
Defined.

(** The synchronous call of the scenario: two tasks, processed by the
    worker in two idle intervals. *)
Definition sync_submitted :
  Res (@ProcessBatchesArgs Z * nat) * @State Z unit unit unit :=
  ProcessBatches_submit toy (toy_args ThetaMatrixType_None) 0 false None
                        toy_state.

Lemma ProcessBatches_sync_returns_witness :
  let r :=
    match sync_submitted.1 with
    | Ok r => r
    | Fail _ => (toy_args ThetaMatrixType_None, 0%nat)
    end in
  let s1 := sync_submitted.2 in
  exists theta,
    RequestProcessBatchesImpl toy 10 (toy_args ThetaMatrixType_None) 0 false
                              None false toy_state
    = (Ok (r.1, theta), mkState (after_intervals toy 2 (world s1)) (history s1)).
Proof.
  intros r s1.
  apply (ProcessBatches_sync_returns toy 10 (toy_args ThetaMatrixType_None) 0
           None false toy_state r s1 2).
  - vm_compute. reflexivity.
  - lia.
  - vm_compute. reflexivity.
  - intros j Hj. destruct j as [|[|j]]; [| |lia].
    + eexists. split; [vm_compute; reflexivity|]. intros H.
      apply (f_equal (fun X : gset uuid => bool_decide (0%N ∈ X))) in H.
      vm_compute in H. discriminate.
    + eexists. split; [vm_compute; reflexivity|]. intros H.
      apply (f_equal (fun X : gset uuid => bool_decide (1%N ∈ X))) in H.
      vm_compute in H. discriminate.
  - discriminate.
Defined.

(** A collection of dictionaries whose messages are a name and tokens. *)
Definition toy_dictionaries
  : @DictionaryOps (string * list string) (list string) :=
  mkDictionaryOps
    fst (fun name data => (name, data.2))
    (fun data => Z.of_nat (length data.2)) (fun _ => 0)
    snd (fun data dict => dict ++ data.2) (fun dict => (EmptyString, dict)).

Lemma ImportDictionary_result_witness :
  ImportDictionary toy_dictionaries
    [("first", ["a"; "b"]); ("second", ["c"])]
    (mkImportDictionaryArgs "dict.bin" (Some "d"))
    {[ "d" := ["old"]; "e" := ["other"] ]}
  = (Ok tt, {[ "d" := ["a"; "b"; "c"]; "e" := ["other"] ]}).
Proof.
  assert (forall n x, dd_name toy_dictionaries
                        (dd_set_name toy_dictionaries n x) = n) as Hname
    by (intros n x; reflexivity).
  destruct (ImportDictionary_result toy_dictionaries ("first", ["a"; "b"])
              [("second", ["c"])]
              (mkImportDictionaryArgs "dict.bin" (Some "d"))
              {[ "d" := ["old"]; "e" := ["other"] ]} Hname) as [_ H].
  rewrite H by (vm_compute; reflexivity).
  vm_compute. reflexivity.
Defined.

(** Two tokens over three topics, and three items over two topics. *)
Lemma HandleExternal_row_major_witness :
  let topic_model :=
    mkTopicModel None ["t1"; "t2"; "t3"] ["a"; "b"] ["c"; "c"]
                 [[1; 2; 3]; [4; 5; 6]] in
  HandleExternalTopicModelRequest toy (fun _ => 3) topic_model [9; 9]
  = Some (clear_token_weights topic_model, [1; 2; 3; 4; 5; 6])
  /\ HandleExternalThetaMatrixRequest toy (fun _ => 3) (fun _ => 2)
       (fun _ => [[1; 2]; [3; 4]; [5; 6]]) (fun th => th) tt [9; 9]
     = Some (tt, [1; 2; 3; 4; 5; 6]).
Proof.
  intros topic_model.
  destruct (HandleExternal_row_major toy (fun _ => 3) (fun _ => 3)
              (fun _ => 2) (fun _ => [[1; 2]; [3; 4]; [5; 6]]) (fun th => th)
              topic_model tt [9; 9]) as [Hphi Htheta].
  split.
  - apply Hphi. unfold dense_topic_model, rectangular.
    repeat split; try (vm_compute; congruence). repeat constructor.
  - apply Htheta. unfold dense_theta_matrix, rectangular.
    repeat split; try (vm_compute; congruence). repeat constructor.
Defined.

(** [FilterDictionary] whose second message has co-occurrence entries and
    the name of another dictionary of the collection: the entries are
    appended to that dictionary, and the new dictionary is registered as it
    was created.  When the first message has the empty name the collection
    is cleared first, and the call throws. *)
Definition cooc_dictionaries
  : @DictionaryOps (string * list string) (list string) :=
  mkDictionaryOps
    fst (fun name data => (name, data.2))
    (fun data => Z.of_nat (length data.2))
    (fun data => Z.of_nat (length data.2))
    snd (fun data dict => dict ++ data.2) (fun dict => (EmptyString, dict)).

Example FilterDictionary_scenario :
  FilterDictionary cooc_dictionaries (("new", ["a"]), ("e", ["x"]))
                   {[ "e" := ["other"] ]}
  = (Ok tt, {[ "new" := ["a"]; "e" := ["other"; "x"] ]})
  /\ FilterDictionary cooc_dictionaries
       ((EmptyString, ["a"]), ("e", ["x"])) {[ "e" := ["other"] ]}
     = (Throw InvalidOperation, {[ EmptyString := ["a"] ]}).
Proof. split; vm_compute; reflexivity. Qed.

(** A worker pool that counts, in the cache manager of each task, the tasks
    it has processed; the Theta matrix of a cache manager is this count. *)
Definition counting_worker (w : @World Z unit unit nat)
  : @World Z unit unit nat :=
  match processor_queue w with
  | [] => w
  | pi :: q =>
      with_cache_managers
        (match pi_cache_manager pi with
         | Some (LocalCache h) => alter S h
         | _ => fun l => l
         end)
        (with_batch_managers
           (alter (fun ids => ids ∖ {[pi_task_id pi]}) (pi_batch_manager pi))
           (with_processor_queue (fun _ => q) w))
  end.

Definition counting : @Kernels Z unit unit nat nat :=
  mkKernels 0 1 counting_worker N.of_nat ThetaMatrixType_Cache
    (fun m a =>
       mkTopicModel (Some (model_name m)) (topic_name m) (gtm_token a)
                    (gtm_class_id a) [])
    (fun tm w m => m)
    (fun _ _ _ _ r => r)
    (fun n t => t)
    (fun n r t => t)
    (fun tm => [])
    (fun b => None)
    (fun _ _ => true) "001"%byte 7 tt (fun _ => tt) (fun _ _ => tt)
    (fun _ => []) 0%nat (fun _ c => c).

Definition counting_state : @State Z unit unit nat :=
  mkState (mkWorld {["pwt" := toy_pwt]} 2 [] (Some toy_config) tt [] 0%nat
                   [∅] [] [] ∅ 0) [].

(** The Theta matrix of a synchronous call over two batches counts both
    tasks: it is assembled after the workers have processed them, while the
    cache manager of the call held the count 0 when the call began to
    wait. *)
Example ProcessBatches_theta_after_drain :
  (RequestProcessBatchesImpl counting 10 (toy_args ThetaMatrixType_Dense) 0
                             false None true counting_state).1
  = Ok (set_topic_name ["t1"; "t2"] (toy_args ThetaMatrixType_Dense),
        Some 2%nat)
  /\ cache_managers
       (world (ProcessBatches_submit counting
                 (toy_args ThetaMatrixType_Dense) 0 false None
                 counting_state).2)
     = [0%nat].
Proof. split; vm_compute; reflexivity. Qed.

(** Two passes of the offline schedule with a regularizer and a score
    configured: in the shared memory at the end [rwt] is disposed, [nwt]
    and [pwt] are registered, each pass has made a score manager and stored
    one score, and no task is left. *)
Definition toy_config_full : @MasterModelConfig Z :=
  mkMasterModelConfig "pwt" "nwt" ["t1"; "t2"] [] []
    [mkRegularizerConfig "sparse" 3] [mkScoreConfig "perplexity"] None 2
    false None None.

Example ExecuteOfflineAlgorithm_scenario_memory :
  let out :=
    ExecuteOfflineAlgorithm toy 10 (ArtmExecutor_new toy_config_full) 2
      (mkOfflineBatchesIterator ["b1"; "b2"] [1; 1])
      (mkState (mkWorld {["pwt" := toy_pwt]} 2 [] (Some toy_config_full) tt
                        [] tt [] [] [] ∅ 0) []) in
  is_ok out.1 = true
  /\ models_ (world out.2) !! "rwt" = None
  /\ is_Some (models_ (world out.2) !! "nwt")
  /\ is_Some (models_ (world out.2) !! "pwt")
  /\ score_managers (world out.2) = [tt; tt]
  /\ score_tracker (world out.2) = [tt; tt]
  /\ processor_queue (world out.2) = []
  /\ batch_managers (world out.2) = [∅; ∅]
  /\ omap step_view (history out.2)
     = offline_steps toy_config_full
         (mkOfflineBatchesIterator ["b1"; "b2"] [1; 1]) [0; 1]%nat.
Proof.
  cbv zeta. repeat split; try (vm_compute; reflexivity).
  - vm_compute. by eexists.
  - vm_compute. by eexists.
Qed.
